(** * Bean Machine: out-node index (minibmg) and GlobalState (graph/global)

    A shallow embedding of

    - [minibmg/out_nodes.cpp]: the consumer index [Out_Nodes_Property::create]
      and its accessor [out_nodes];
    - [beanmachine/graph/global/global_state.cpp]: construction of a
      [GlobalState], backup/revert, and the flatten/unflatten codec.

    Doubles are Rocq's primitive binary64 floats.  C++ exceptions are
    outcomes of an error monad; reads and writes outside a vector, which
    C++ leaves undefined, are the outcome [Undefined]. *)

From Stdlib Require Import PrimFloat.
From stdpp Require Import gmap list strings sorting.

Set Default Proof Using "Type".

(** ** Outcomes of a C++ call *)

(** [std::invalid_argument(what)], the only exception class the two files
    throw. *)
Inductive exn : Type :=
| invalid_argument (what : string).

Inductive result (A : Type) : Type :=
| Ok (a : A)
| Throw (e : exn)
| Undefined.
Arguments Ok {A} a.
Arguments Throw {A} e.
Arguments Undefined {A}.

Definition result_bind {A B : Type} (f : A -> result B) (r : result A) : result B :=
  match r with
  | Ok a => f a
  | Throw e => Throw e
  | Undefined => Undefined
  end.

#[global] Instance result_mbind : MBind result := @result_bind.
#[global] Instance result_mret : MRet result := @Ok.

(** A [for] loop over a container whose body may throw: the data is
    threaded through the iterations, the first failure ends the loop. *)
Fixpoint for_each {A X : Type} (body : A -> X -> result A) (xs : list X) (a : A)
  : result A :=
  match xs with
  | [] => Ok a
  | x :: xs' => a' ← body a x; for_each body xs' a'
  end.

(** Number of occurrences of [x] in [l]. *)
Definition occurrences `{EqDecision A} (x : A) (l : list A) : nat :=
  length (filter (x =.) l).

(** ** minibmg: the out-node index *)

Module minibmg.

(** [Nodep] is [std::shared_ptr<const Node>]: a node is identified by its
    address, and the index is keyed by that address.  The declarations of
    [minibmg.h] ([Operator], the node classes, [Graph]) are not part of
    [out_nodes.cpp]; they are given here as the file uses them. *)
Notation Nodep := nat (only parsing).

(** Modelled from the spec: the enum [Operator] of [minibmg.h], with the
    three tags [create] singles out, and every other tag ("the rest are
    operator nodes"). *)
Inductive Operator : Type :=
| CONSTANT
| VARIABLE
| QUERY
| OPERATION (code : nat).

(** Modelled from the spec: the node classes of [minibmg.h] as a closed
    tagged union, with the fields [create] reads: [QueryNode::in_node]
    and [OperatorNode::in_nodes]. *)
Inductive Node : Type :=
| ConstantNode
| VariableNode
| QueryNode (in_node : Nodep)
| OperatorNode (code : nat) (in_nodes : list Nodep).

Definition op (n : Node) : Operator :=
  match n with
  | ConstantNode => CONSTANT
  | VariableNode => VARIABLE
  | QueryNode _ => QUERY
  | OperatorNode code _ => OPERATION code
  end.

(** Modelled from the spec: [Graph] of [minibmg.h], an ordered collection
    of nodes iterated in its stored order ([for (auto node : g)]);
    [deref] is [*node]. *)
Record Graph : Type := {
  nodes : list Nodep;
  deref : Nodep -> Node;
}.

(** [Out_Nodes_Data::node_map]: each key owns its own list. *)
Notation Out_Nodes_Data := (gmap nat (list nat)) (only parsing).

Definition not_in_graph : exn := invalid_argument "node not in graph".

(** [Out_Nodes_Data::for_node] *)
Definition for_node (data : gmap Nodep (list Nodep)) (node : Nodep)
  : result (list Nodep) :=
  match data !! node with
  | None => Throw not_in_graph
  | Some found => Ok found
  end.

(** [auto& predecessor_out_set = data->for_node(in_node);
     predecessor_out_set.push_back(node);] *)
Definition push_back_for (node : Nodep) (data : gmap Nodep (list Nodep))
    (in_node : Nodep) : result (gmap Nodep (list Nodep)) :=
  predecessor_out_set ← for_node data in_node;
  Ok (<[in_node := predecessor_out_set ++ [node]]> data).

(** One iteration of the loop of [Out_Nodes_Property::create]. *)
Definition create_step (g : Graph) (data : gmap Nodep (list Nodep))
    (node : Nodep) : result (gmap Nodep (list Nodep)) :=
  let data := <[node := []]> data in
  match deref g node with
  | ConstantNode | VariableNode => Ok data
  | QueryNode in_node => push_back_for node data in_node
  | OperatorNode _ in_nodes => for_each (push_back_for node) in_nodes data
  end.

(** [Out_Nodes_Property::create] *)
Definition create (g : Graph) : result (gmap Nodep (list Nodep)) :=
  for_each (create_step g) (nodes g) ∅.

(** Modelled from the spec: [Property::get], inherited by
    [Out_Nodes_Property] from a header that is not part of
    [out_nodes.cpp]: it returns the memoised structure of the graph,
    computed by [create] on the first request. *)
Definition get (g : Graph) : result (gmap Nodep (list Nodep)) := create g.

(** [out_nodes] *)
Definition out_nodes (g : Graph) (node : Nodep) : result (list Nodep) :=
  data ← get g; for_node data node.

(** The declared input list of a node. *)
Definition inputs (n : Node) : list Nodep :=
  match n with
  | ConstantNode | VariableNode => []
  | QueryNode in_node => [in_node]
  | OperatorNode _ in_nodes => in_nodes
  end.

(** The consumers of [a] among [ns], in the order of [ns], each as often
    as it lists [a] among its inputs. *)
Definition consumers (g : Graph) (ns : list Nodep) (a : Nodep) : list Nodep :=
  b ← ns; replicate (occurrences a (inputs (deref g b))) b.

(** A graph as [Graph] builds it: no node is stored twice, and every input
    of a node is stored no later than the node. *)
Definition graph_ok (g : Graph) : Prop :=
  NoDup (nodes g) /\
  forall i b a, nodes g !! i = Some b -> a ∈ inputs (deref g b) ->
    exists j, j <= i /\ nodes g !! j = Some a.

(** A small graph: [10] is a constant, [20] a variable, [30] an operator
    reading [10] twice and [20] once, [40] a query of [30]. *)
Definition sample_graph : Graph :=
  {| nodes := [10; 20; 30; 40];
     deref := fun p =>
       match p with
       | 20 => VariableNode
       | 30 => OperatorNode 0 [10; 20; 10]
       | 40 => QueryNode 30
       | _ => ConstantNode
       end |}.

(** What [create] can end in: an index, or the node-not-found error. *)
Definition found_or_not_in_graph {A : Type} (r : result A) : Prop :=
  match r with
  | Ok _ => True
  | Throw e => e = not_in_graph
  | Undefined => False
  end.

(** Every entry of the index is a node of [all] that lists the key among
    its inputs. *)
Definition entries_sound (g : Graph) (all : list Nodep)
    (data : gmap nat (list nat)) : Prop :=
  forall a l b, data !! a = Some l -> b ∈ l ->
    b ∈ all /\ a ∈ inputs (deref g b).

(** A graph that stores a query before the node it reads. *)
Definition misordered_graph : Graph :=
  {| nodes := [40; 10; 30];
     deref := fun p =>
       match p with
       | 30 => OperatorNode 0 [10]
       | 40 => QueryNode 30
       | _ => ConstantNode
       end |}.

End minibmg.

(** ** beanmachine::graph: nodes, the graph and GlobalState *)

Module graph.

(** The declarations of [graph.h], [operator.h], [stochasticop.h] and
    [global_state.h] are not part of [global_state.cpp]; values, nodes,
    the graph and the members of GlobalState are given here as the spec
    describes them, with the members the file reads and writes. *)

(** *** Values *)

(** Modelled from the spec: the enum [VariableType]; a value is a scalar
    or a matrix.  [SCALAR] is the tag the file tests, [MATRIX kind] stands
    for every other tag, which the file treats alike. *)
Inductive VariableType : Type :=
| SCALAR
| MATRIX (kind : nat).

#[global] Instance VariableType_eq_dec : EqDecision VariableType.
Proof. solve_decision. Defined.

(** Modelled from the spec: [ValueType], the declared type of a value:
    its variable type and, for a matrix, its declared shape. *)
Record ValueType : Type := {
  variable_type : VariableType;
  rows : nat;
  cols : nat;
}.

(** [Eigen::MatrixXd]: its dimensions [rows()] and [cols()], and its
    coefficients in the order [data()] stores them. *)
Record MatrixXd : Type := {
  m_rows : nat;
  m_cols : nat;
  coeffs : list float;
}.

(** [m.size()]: the number of coefficients stored (rows times cols in
    an Eigen matrix). *)
Definition size (m : MatrixXd) : nat := length (coeffs m).

(** The storage of an Eigen matrix holds rows times cols coefficients. *)
Definition well_shaped (m : MatrixXd) : Prop :=
  length (coeffs m) = m_rows m * m_cols m.

(** [Eigen::VectorXd] *)
Notation VectorXd := (list float) (only parsing).

(** [m = v] for a matrix [m] and a vector expression [v] (here
    [value->_matrix = flattened_values.segment(...)]): Eigen's assignment
    resizes the matrix to the dimensions of the right-hand side, one
    column of [length v] coefficients. *)
Definition assign_vector (v : VectorXd) : MatrixXd :=
  {| m_rows := length v; m_cols := 1; coeffs := v |}.

(** Modelled from the spec: [NodeValue], a scalar double or a matrix,
    with its type tag. *)
Record NodeValue : Type := {
  type : ValueType;
  _double : float;
  _matrix : MatrixXd;
}.

Definition set_double (x : float) (v : NodeValue) : NodeValue :=
  {| type := type v; _double := x; _matrix := _matrix v |}.

Definition set_matrix (m : MatrixXd) (v : NodeValue) : NodeValue :=
  {| type := type v; _double := _double v; _matrix := m |}.

(** Modelled from the spec: [DoubleMatrix], the type of the gradient
    accumulator [back_grad1]: a double and a matrix. *)
Record DoubleMatrix : Type := {
  grad_double : float;
  grad_matrix : MatrixXd;
}.

(** [v.resize(n)]: a vector of [n] coefficients; when the size changes the
    storage is fresh (its coefficients are unspecified, here zero). *)
Definition resize (n : nat) (v : VectorXd) : VectorXd :=
  if decide (length v = n) then v else replicate n 0%float.

(** [v[i]] *)
Definition coeff (v : VectorXd) (i : nat) : result float :=
  match v !! i with
  | Some x => Ok x
  | None => Undefined
  end.

(** [v[i] = x] *)
Definition set_coeff (v : VectorXd) (i : nat) (x : float) : result VectorXd :=
  if decide (i < length v) then Ok (<[i := x]> v) else Undefined.

(** [v.segment(i, n)] read as a vector *)
Definition segment (v : VectorXd) (i n : nat) : result VectorXd :=
  if decide (i + n <= length v) then Ok (take n (drop i v)) else Undefined.

(** [v.segment(i, n) = w]: the block and [w] must have the same size. *)
Definition set_segment (v : VectorXd) (i n : nat) (w : VectorXd) : result VectorXd :=
  if decide (i + n <= length v /\ length w = n)
  then Ok (take i v ++ w ++ drop (i + n) v)
  else Undefined.

(** [a + b], coefficient by coefficient; the sizes must agree. *)
Definition vector_add (a b : VectorXd) : result VectorXd :=
  if decide (length a = length b) then Ok (zip_with PrimFloat.add a b) else Undefined.

(** *** Nodes and the graph *)

(** Modelled from the spec: the enum [NodeType]; [OPERATOR] is the tag
    the file tests, [OTHER_NODE kind] stands for every other tag. *)
Inductive NodeType : Type :=
| OPERATOR
| OTHER_NODE (kind : nat).

#[global] Instance NodeType_eq_dec : EqDecision NodeType.
Proof. solve_decision. Defined.

(** Modelled from the spec: the enum [TransformType], the identity
    ([NONE], the tag the file tests) or a bijective reparameterization. *)
Inductive TransformType : Type :=
| NONE
| TRANSFORM (kind : nat).

#[global] Instance TransformType_eq_dec : EqDecision TransformType.
Proof. solve_decision. Defined.

(** A [Node*] is the position of the node in [Graph::nodes]. *)
Notation NodePtr := nat (only parsing).

(** Modelled from the spec: a node, with the members of [Node] and of
    [oper::StochasticOperator] that GlobalState reads or writes.
    [is_stochastic] is the virtual method of that name, [in_nodes] the
    node's inputs. *)
Record Node : Type := {
  node_type : NodeType;
  is_stochastic : bool;
  is_observed : bool;
  in_nodes : list NodePtr;
  value : NodeValue;
  back_grad1 : DoubleMatrix;
  unconstrained_value : NodeValue;
  transform_type : TransformType;
}.

Definition set_value (v : NodeValue) (n : Node) : Node :=
  {| node_type := node_type n; is_stochastic := is_stochastic n;
     is_observed := is_observed n; in_nodes := in_nodes n;
     value := v; back_grad1 := back_grad1 n;
     unconstrained_value := unconstrained_value n;
     transform_type := transform_type n |}.

Definition set_unconstrained_value (v : NodeValue) (n : Node) : Node :=
  {| node_type := node_type n; is_stochastic := is_stochastic n;
     is_observed := is_observed n; in_nodes := in_nodes n;
     value := value n; back_grad1 := back_grad1 n;
     unconstrained_value := v;
     transform_type := transform_type n |}.

Definition set_back_grad1 (d : DoubleMatrix) (n : Node) : Node :=
  {| node_type := node_type n; is_stochastic := is_stochastic n;
     is_observed := is_observed n; in_nodes := in_nodes n;
     value := value n; back_grad1 := d;
     unconstrained_value := unconstrained_value n;
     transform_type := transform_type n |}.

(** Modelled from the spec: [Graph], the nodes it owns ([graph.nodes]),
    the observed node ids and the queried node ids. *)
Record Graph : Type := {
  nodes : list Node;
  observed : list nat;
  queries : list nat;
}.

Definition set_nodes (ns : list Node) (g : Graph) : Graph :=
  {| nodes := ns; observed := observed g; queries := queries g |}.

(** A [NodeValue*]: the node it points into and which of the node's two
    value fields it is. *)
Inductive Field : Type :=
| in_value
| in_unconstrained_value.

Definition read_field (f : Field) (n : Node) : NodeValue :=
  match f with
  | in_value => value n
  | in_unconstrained_value => unconstrained_value n
  end.

Definition write_field (f : Field) (v : NodeValue) (n : Node) : Node :=
  match f with
  | in_value => set_value v n
  | in_unconstrained_value => set_unconstrained_value v n
  end.

(** *** External collaborators

    The random generator, the evaluation of a node, the two directions of
    a transform, and the graph's gradient and log-probability passes are
    not part of [global_state.cpp]; GlobalState is parametric in them. *)
Class Collaborators : Type := {
  (** [std::mt19937] and its seeding constructor *)
  Gen : Type;
  mt19937 : nat -> Gen;
  (** [node->eval(gen)]: the new [value] of node [p], and the generator *)
  Node_eval : list Node -> NodePtr -> Gen -> NodeValue * Gen;
  (** the transform: from [value] into [unconstrained_value] ... *)
  transform_apply : TransformType -> NodeValue -> NodeValue -> NodeValue;
  (** ... and its inverse: from [unconstrained_value] into [value] *)
  transform_inverse : TransformType -> NodeValue -> NodeValue -> NodeValue;
  (** [Graph::update_backgrad(ordered_support)]: the new [back_grad1] of
      node [p] *)
  Graph_update_backgrad : list Node -> list NodePtr -> NodePtr -> DoubleMatrix;
  (** [Graph::_full_log_prob(ordered_support)] *)
  Graph_full_log_prob : list Node -> list NodePtr -> float;
}.

(** The inputs of node [i]. *)
Definition inputs_of (ns : list Node) (i : nat) : list nat :=
  default [] (in_nodes <$> ns !! i).

(** A set of nodes together with their inputs. *)
Definition expand (ns : list Node) (s : gset nat) : gset nat :=
  s ∪ list_to_set (i ← elements s; inputs_of ns i).

(** Modelled from the spec: [Graph::compute_support], which is not in
    [global_state.cpp].  It returns the ancestor closure of the observed
    and queried nodes, the nodes themselves included: starting from those
    nodes, the inputs of the nodes found so far are added, once per node
    of the graph (no chain of inputs is longer). *)
Definition compute_support (g : Graph) : gset nat :=
  Nat.iter (length (nodes g)) (expand (nodes g))
    (list_to_set (observed g ++ queries g)).

(** Iterating a [std::set<uint>] visits its elements in ascending order. *)
Definition ascending (s : gset nat) : list nat := merge_sort le (elements s).

(** *** GlobalState *)

(** Modelled from the spec: the members of [GlobalState]; [graph] is the
    graph the state refers to ([Graph& graph]), whose nodes the methods
    mutate in place.  Sizes and offsets ([flat_size], [int i]) are
    natural numbers. *)
Record GlobalState : Type := {
  graph : Graph;
  ordered_support : list NodePtr;
  stochastic_nodes : list NodePtr;
  deterministic_nodes : list NodePtr;
  flat_size : nat;
  stochastic_unconstrained_vals_backup : list NodeValue;
  stochastic_unconstrained_grads_backup : list DoubleMatrix;
  log_prob : float;
}.

Definition with_graph (f : Graph -> Graph) (s : GlobalState) : GlobalState :=
  {| graph := f (graph s); ordered_support := ordered_support s;
     stochastic_nodes := stochastic_nodes s;
     deterministic_nodes := deterministic_nodes s; flat_size := flat_size s;
     stochastic_unconstrained_vals_backup := stochastic_unconstrained_vals_backup s;
     stochastic_unconstrained_grads_backup := stochastic_unconstrained_grads_backup s;
     log_prob := log_prob s |}.

Definition with_ordered_support (f : list NodePtr -> list NodePtr)
    (s : GlobalState) : GlobalState :=
  {| graph := graph s; ordered_support := f (ordered_support s);
     stochastic_nodes := stochastic_nodes s;
     deterministic_nodes := deterministic_nodes s; flat_size := flat_size s;
     stochastic_unconstrained_vals_backup := stochastic_unconstrained_vals_backup s;
     stochastic_unconstrained_grads_backup := stochastic_unconstrained_grads_backup s;
     log_prob := log_prob s |}.

Definition with_stochastic_nodes (f : list NodePtr -> list NodePtr)
    (s : GlobalState) : GlobalState :=
  {| graph := graph s; ordered_support := ordered_support s;
     stochastic_nodes := f (stochastic_nodes s);
     deterministic_nodes := deterministic_nodes s; flat_size := flat_size s;
     stochastic_unconstrained_vals_backup := stochastic_unconstrained_vals_backup s;
     stochastic_unconstrained_grads_backup := stochastic_unconstrained_grads_backup s;
     log_prob := log_prob s |}.

Definition with_deterministic_nodes (f : list NodePtr -> list NodePtr)
    (s : GlobalState) : GlobalState :=
  {| graph := graph s; ordered_support := ordered_support s;
     stochastic_nodes := stochastic_nodes s;
     deterministic_nodes := f (deterministic_nodes s); flat_size := flat_size s;
     stochastic_unconstrained_vals_backup := stochastic_unconstrained_vals_backup s;
     stochastic_unconstrained_grads_backup := stochastic_unconstrained_grads_backup s;
     log_prob := log_prob s |}.

Definition with_flat_size (f : nat -> nat) (s : GlobalState) : GlobalState :=
  {| graph := graph s; ordered_support := ordered_support s;
     stochastic_nodes := stochastic_nodes s;
     deterministic_nodes := deterministic_nodes s; flat_size := f (flat_size s);
     stochastic_unconstrained_vals_backup := stochastic_unconstrained_vals_backup s;
     stochastic_unconstrained_grads_backup := stochastic_unconstrained_grads_backup s;
     log_prob := log_prob s |}.

Definition with_vals_backup (f : list NodeValue -> list NodeValue)
    (s : GlobalState) : GlobalState :=
  {| graph := graph s; ordered_support := ordered_support s;
     stochastic_nodes := stochastic_nodes s;
     deterministic_nodes := deterministic_nodes s; flat_size := flat_size s;
     stochastic_unconstrained_vals_backup := f (stochastic_unconstrained_vals_backup s);
     stochastic_unconstrained_grads_backup := stochastic_unconstrained_grads_backup s;
     log_prob := log_prob s |}.

Definition with_grads_backup (f : list DoubleMatrix -> list DoubleMatrix)
    (s : GlobalState) : GlobalState :=
  {| graph := graph s; ordered_support := ordered_support s;
     stochastic_nodes := stochastic_nodes s;
     deterministic_nodes := deterministic_nodes s; flat_size := flat_size s;
     stochastic_unconstrained_vals_backup := stochastic_unconstrained_vals_backup s;
     stochastic_unconstrained_grads_backup := f (stochastic_unconstrained_grads_backup s);
     log_prob := log_prob s |}.

Definition with_log_prob (x : float) (s : GlobalState) : GlobalState :=
  {| graph := graph s; ordered_support := ordered_support s;
     stochastic_nodes := stochastic_nodes s;
     deterministic_nodes := deterministic_nodes s; flat_size := flat_size s;
     stochastic_unconstrained_vals_backup := stochastic_unconstrained_vals_backup s;
     stochastic_unconstrained_grads_backup := stochastic_unconstrained_grads_backup s;
     log_prob := x |}.

(** *** The state monad of GlobalState's methods

    A method runs on the GlobalState (which holds the graph it refers to)
    and either returns, throws, or has undefined behaviour; the state a
    method leaves behind is kept also when it throws. *)
Definition St (A : Type) : Type := GlobalState -> result A * GlobalState.

Definition st_ret {A : Type} (a : A) : St A := fun s => (Ok a, s).

Definition st_bind {A B : Type} (f : A -> St B) (m : St A) : St B :=
  fun s =>
    match m s with
    | (Ok a, s') => f a s'
    | (Throw e, s') => (Throw e, s')
    | (Undefined, s') => (Undefined, s')
    end.

#[global] Instance St_mbind : MBind St := @st_bind.
#[global] Instance St_mret : MRet St := @st_ret.

Definition get_state : St GlobalState := fun s => (Ok s, s).

Definition modify (f : GlobalState -> GlobalState) : St unit :=
  fun s => (Ok tt, f s).

Definition throw {A : Type} (e : exn) : St A := fun s => (Throw e, s).

Definition lift {A : Type} (r : result A) : St A := fun s => (r, s).

(** A loop over a container; [a] carries the local variables of the loop. *)
Fixpoint st_for {A X : Type} (body : A -> X -> St A) (xs : list X) (a : A) : St A :=
  match xs with
  | [] => mret a
  | x :: xs' => a' ← body a x; st_for body xs' a'
  end.

(** [v[i]] on a [std::vector] *)
Definition at_index {X : Type} (v : list X) (i : nat) : St X :=
  lift (match v !! i with Some x => Ok x | None => Undefined end).

(** [*p] for a [Node*] *)
Definition deref (p : NodePtr) : St Node :=
  s ← get_state; at_index (nodes (graph s)) p.

(** In-place update of the node behind a [Node*] *)
Definition update_node (p : NodePtr) (f : Node -> Node) : St unit :=
  _ ← deref p;
  modify (with_graph (fun g => set_nodes (alter f p (nodes g)) g)).

Definition read_ref (r : NodePtr * Field) : St NodeValue :=
  n ← deref r.1; mret (read_field r.2 n).

Definition write_ref (r : NodePtr * Field) (v : NodeValue) : St unit :=
  update_node r.1 (write_field r.2 v).

(** *** Vocabulary of the statements *)

(** The field [get_unconstrained_value] refers to: [value] itself under
    the identity transform, [unconstrained_value] otherwise. *)
Definition unconstrained_field (n : Node) : Field :=
  match transform_type n with
  | NONE => in_value
  | TRANSFORM _ => in_unconstrained_value
  end.

(** The unconstrained value of a node, and the node with that value
    overwritten. *)
Definition unconstrained (n : Node) : NodeValue :=
  read_field (unconstrained_field n) n.

Definition write_unconstrained (v : NodeValue) (n : Node) : Node :=
  write_field (unconstrained_field n) v n.

(** The coefficients a value contributes to the flattened vector. *)
Definition flat_of (v : NodeValue) : list float :=
  if decide (variable_type (type v) = SCALAR) then [_double v]
  else coeffs (_matrix v).

Definition flat_length (v : NodeValue) : nat :=
  if decide (variable_type (type v) = SCALAR) then 1 else size (_matrix v).

(** The unconstrained values of the nodes [ps] point to, in order. *)
Definition values_of (ns : list Node) (ps : list NodePtr) : list NodeValue :=
  omap (fun p => unconstrained <$> ns !! p) ps.

Definition flat_all (ns : list Node) (ps : list NodePtr) : list float :=
  concat (flat_of <$> values_of ns ps).

Definition flat_total (ns : list Node) (ps : list NodePtr) : nat :=
  sum_list (flat_length <$> values_of ns ps).

(** The state with the nodes of its graph replaced. *)
Definition with_nodes (ns : list Node) (s : GlobalState) : GlobalState :=
  with_graph (set_nodes ns) s.

(** The unconstrained values of the stochastic nodes of a state, and
    their flattening. *)
Definition stochastic_values (s : GlobalState) : list NodeValue :=
  values_of (nodes (graph s)) (stochastic_nodes s).

(** The gradients of the nodes [ps] point to, in order. *)
Definition grads_of (ns : list Node) (ps : list NodePtr) : list DoubleMatrix :=
  omap (fun p => back_grad1 <$> ns !! p) ps.

Definition stochastic_grads (s : GlobalState) : list DoubleMatrix :=
  grads_of (nodes (graph s)) (stochastic_nodes s).

Definition flattened (s : GlobalState) : list float :=
  flat_all (nodes (graph s)) (stochastic_nodes s).

(** A matrix value as a single column of the same coefficients; a scalar
    value as it is. *)
Definition as_column (v : NodeValue) : NodeValue :=
  if decide (variable_type (type v) = SCALAR) then v
  else set_matrix (assign_vector (coeffs (_matrix v))) v.

(** Two nodes that differ at most in their values and gradient. *)
Definition same_kind (n n' : Node) : Prop :=
  node_type n' = node_type n /\ is_stochastic n' = is_stochastic n /\
  is_observed n' = is_observed n /\ in_nodes n' = in_nodes n /\
  transform_type n' = transform_type n.

(** The pointers of a state point into its graph, and no stochastic node
    is listed twice. *)
Definition pointers_ok (s : GlobalState) : Prop :=
  NoDup (stochastic_nodes s) /\
  forall p, p ∈ stochastic_nodes s -> p < length (nodes (graph s)).

(** One backup slot per stochastic node, in both backup sequences. *)
Definition aligned (s : GlobalState) : Prop :=
  length (stochastic_unconstrained_vals_backup s) = length (stochastic_nodes s) /\
  length (stochastic_unconstrained_grads_backup s) = length (stochastic_nodes s).

(** The nodes [ps] point to, in order. *)
Definition nodes_at (ns : list Node) (ps : list NodePtr) : list Node :=
  omap (fun p => ns !! p) ps.

(** The coefficients a node contributes to the flattened gradient:
    [get_flattened_unconstrained_grads] reads the type tag of [value]. *)
Definition grad_flat_of (n : Node) : list float :=
  if decide (variable_type (type (value n)) = SCALAR)
  then [grad_double (back_grad1 n)]
  else coeffs (grad_matrix (back_grad1 n)).

Definition grad_flat_all (ns : list Node) (ps : list NodePtr) : list float :=
  concat (grad_flat_of <$> nodes_at ns ps).

Definition flattened_grads (s : GlobalState) : list float :=
  grad_flat_all (nodes (graph s)) (stochastic_nodes s).

(** Two states with the same stochastic nodes and as many backup slots. *)
Definition same_slots (s s' : GlobalState) : Prop :=
  stochastic_nodes s' = stochastic_nodes s /\
  length (stochastic_unconstrained_vals_backup s') =
    length (stochastic_unconstrained_vals_backup s) /\
  length (stochastic_unconstrained_grads_backup s') =
    length (stochastic_unconstrained_grads_backup s).

(** A computation that, however it ends, leaves the stochastic nodes and
    the number of backup slots as they were. *)
Definition keeps_slots {A : Type} (m : St A) : Prop :=
  forall s, same_slots s (m s).2.

(** A computation that, however it ends, leaves a state related by [R]
    to the one it started in. *)
Definition preserves {A : Type} (R : GlobalState -> GlobalState -> Prop)
    (m : St A) : Prop :=
  forall s, R s (m s).2.

(** The graph has as many nodes as before, and [f] is on each what it was. *)
Definition unchanged {B : Type} (f : Node -> B) (s s' : GlobalState) : Prop :=
  Forall2 (fun n n' => f n' = f n) (nodes (graph s)) (nodes (graph s')).

(** What [same_kind] compares. *)
Definition kind_of (n : Node)
  : NodeType * bool * bool * list NodePtr * TransformType :=
  (node_type n, is_stochastic n, is_observed n, in_nodes n, transform_type n).

(** The members the constructor computes once: the three node sequences
    and [flat_size], and the graph's observed and queried ids. *)
Definition same_partition (s s' : GlobalState) : Prop :=
  ordered_support s' = ordered_support s /\
  stochastic_nodes s' = stochastic_nodes s /\
  deterministic_nodes s' = deterministic_nodes s /\
  flat_size s' = flat_size s /\
  observed (graph s') = observed (graph s) /\
  queries (graph s') = queries (graph s).

Definition same_log_prob (s s' : GlobalState) : Prop :=
  log_prob s' = log_prob s.

(** What the constructor establishes and the methods rely on. *)
Definition consistent (s : GlobalState) : Prop :=
  pointers_ok s /\ aligned s /\
  flat_size s = flat_total (nodes (graph s)) (stochastic_nodes s).

(** A consistent state whose saved values have the sizes of the current
    ones: what every method keeps. *)
Definition sound (s : GlobalState) : Prop :=
  consistent s /\
  flat_length <$> stochastic_unconstrained_vals_backup s =
    flat_length <$> stochastic_values s.

(** A graph as [Graph] builds it: observed and queried ids are nodes of
    the graph, and the inputs of a node were added before the node. *)
Definition graph_wf (g : Graph) : Prop :=
  (forall r, r ∈ observed g ++ queries g -> r < length (nodes g)) /\
  (forall p n q, nodes g !! p = Some n -> q ∈ in_nodes n -> q < p).

(** The ancestor closure of the observed and queried nodes. *)
Inductive in_closure (g : Graph) : nat -> Prop :=
| closure_root r : r ∈ observed g ++ queries g -> in_closure g r
| closure_input p n q :
    in_closure g p -> nodes g !! p = Some n -> q ∈ in_nodes n ->
    in_closure g q.

(** The partition predicates of the constructor, on a pointer. *)
Definition unobserved_stochastic (ns : list Node) (p : NodePtr) : bool :=
  match ns !! p with
  | Some n => is_stochastic n && negb (is_observed n)
  | None => false
  end.

Definition deterministic (ns : list Node) (p : NodePtr) : bool :=
  match ns !! p with
  | Some n => negb (is_stochastic n)
  | None => false
  end.

Section global_state.
Context `{Collaborators}.

(** Modelled from the spec: [StochasticOperator::get_unconstrained_value],
    which is not in [global_state.cpp].  It returns a reference to the
    reparameterized value of the node, recomputing it from [value] when
    asked to.  With the identity transform ([NONE]) the reparameterized
    value is [value] itself. *)
Definition get_unconstrained_value (node : NodePtr) (sync_from_constrained : bool)
  : St (NodePtr * Field) :=
  n ← deref node;
  match transform_type n with
  | NONE => mret (node, in_value)
  | t =>
      (if sync_from_constrained
       then update_node node (fun n =>
              set_unconstrained_value
                (transform_apply t (value n) (unconstrained_value n)) n)
       else mret tt);;
      mret (node, in_unconstrained_value)
  end.

(** Modelled from the spec: [StochasticOperator::get_original_value],
    which is not in [global_state.cpp].  It returns a reference to
    [value], first recomputing it from the unconstrained value through the
    inverse of the transform when asked to (nothing to do for [NONE]). *)
Definition get_original_value (node : NodePtr) (sync_from_unconstrained : bool)
  : St (NodePtr * Field) :=
  n ← deref node;
  match transform_type n with
  | NONE => mret (node, in_value)
  | t =>
      (if sync_from_unconstrained
       then update_node node (fun n =>
              set_value
                (transform_inverse t (value n) (unconstrained_value n)) n)
       else mret tt);;
      mret (node, in_value)
  end.

(** [node->eval(gen)] *)
Definition eval (node : NodePtr) (gen : Gen) : St Gen :=
  s ← get_state;
  let r := Node_eval (nodes (graph s)) node gen in
  update_node node (set_value r.1);;
  mret r.2.

(** [GlobalState::update_log_prob] *)
Definition update_log_prob : St unit :=
  s ← get_state;
  modify (with_log_prob
            (Graph_full_log_prob (nodes (graph s)) (ordered_support s))).

(** [GlobalState::get_log_prob] *)
Definition get_log_prob : St float :=
  s ← get_state; mret (log_prob s).

(** [GlobalState::update_backgrad] *)
Definition update_backgrad : St unit :=
  s ← get_state;
  let ns := nodes (graph s) in
  modify (with_graph (set_nodes
    (imap (fun p n => set_back_grad1
             (Graph_update_backgrad ns (ordered_support s) p) n) ns))).

(** [stochastic_unconstrained_vals_backup[i] = v] *)
Definition assign_vals_backup (i : nat) (v : NodeValue) : St unit :=
  s ← get_state;
  if decide (i < length (stochastic_unconstrained_vals_backup s))
  then modify (with_vals_backup <[i := v]>)
  else lift Undefined.

(** [stochastic_unconstrained_grads_backup[i] = d] *)
Definition assign_grads_backup (i : nat) (d : DoubleMatrix) : St unit :=
  s ← get_state;
  if decide (i < length (stochastic_unconstrained_grads_backup s))
  then modify (with_grads_backup <[i := d]>)
  else lift Undefined.

(** [GlobalState::backup_unconstrained_values], and the body of its loop *)
Definition backup_value_step (_ : unit) (sto_node_id : nat) : St unit :=
  s ← get_state;
  stochastic_node ← at_index (stochastic_nodes s) sto_node_id;
  value ← get_unconstrained_value stochastic_node false;
  v ← read_ref value;
  assign_vals_backup sto_node_id v.

Definition backup_unconstrained_values : St unit :=
  s ← get_state;
  st_for backup_value_step (seq 0 (length (stochastic_nodes s))) tt.

(** [GlobalState::backup_unconstrained_grads] *)
Definition backup_grad_step (_ : unit) (sto_node_id : nat) : St unit :=
  s ← get_state;
  node ← at_index (stochastic_nodes s) sto_node_id;
  n ← deref node;
  assign_grads_backup sto_node_id (back_grad1 n).

Definition backup_unconstrained_grads : St unit :=
  s ← get_state;
  st_for backup_grad_step (seq 0 (length (stochastic_nodes s))) tt.

(** [GlobalState::revert_unconstrained_values] *)
Definition revert_value_step (_ : unit) (sto_node_id : nat) : St unit :=
  s ← get_state;
  stochastic_node ← at_index (stochastic_nodes s) sto_node_id;
  value ← get_unconstrained_value stochastic_node false;
  saved ← at_index (stochastic_unconstrained_vals_backup s) sto_node_id;
  write_ref value saved;;
  get_original_value stochastic_node true;;
  mret tt.

Definition revert_unconstrained_values : St unit :=
  s ← get_state;
  st_for revert_value_step (seq 0 (length (stochastic_nodes s))) tt.

(** [GlobalState::revert_unconstrained_grads] *)
Definition revert_grad_step (_ : unit) (sto_node_id : nat) : St unit :=
  s ← get_state;
  node ← at_index (stochastic_nodes s) sto_node_id;
  saved ← at_index (stochastic_unconstrained_grads_backup s) sto_node_id;
  update_node node (set_back_grad1 saved).

Definition revert_unconstrained_grads : St unit :=
  s ← get_state;
  st_for revert_grad_step (seq 0 (length (stochastic_nodes s))) tt.

(** [GlobalState::get_flattened_unconstrained_values]; the argument is the
    caller's vector, the result is that vector after the call.  The loop
    carries the vector and the offset [i]. *)
Definition flatten_value_step (acc : list float * nat) (node : NodePtr)
  : St (list float * nat) :=
  let flattened_values := acc.1 in
  let i := acc.2 in
  value ← get_unconstrained_value node false;
  v ← read_ref value;
  if decide (variable_type (type v) = SCALAR) then
    flattened_values ← lift (set_coeff flattened_values i (_double v));
    mret (flattened_values, i + 1)
  else
    let vector := coeffs (_matrix v) in
    flattened_values ←
      lift (set_segment flattened_values i (length vector) vector);
    mret (flattened_values, i + size (_matrix v)).

Definition get_flattened_unconstrained_values (flattened_values : VectorXd)
  : St VectorXd :=
  s ← get_state;
  let flattened_values := resize (flat_size s) flattened_values in
  r ← st_for flatten_value_step (stochastic_nodes s) (flattened_values, 0);
  mret r.1.

Definition size_mismatch_flattened : exn :=
  invalid_argument
    "The size of flattened_values is inconsistent with the values in the graph".

Definition size_mismatch_increment : exn :=
  invalid_argument
    "The size of increment is inconsistent with the values in the graph".

(** [GlobalState::set_flattened_unconstrained_values]; the loop carries the
    offset [i]. *)
Definition unflatten_value_step (flattened_values : VectorXd) (i : nat)
    (node : NodePtr) : St nat :=
  value ← get_unconstrained_value node false;
  v ← read_ref value;
  i ← (if decide (variable_type (type v) = SCALAR) then
         x ← lift (coeff flattened_values i);
         write_ref value (set_double x v);;
         mret (i + 1)
       else
         w ← lift (segment flattened_values i (size (_matrix v)));
         write_ref value (set_matrix (assign_vector w) v);;
         v' ← read_ref value;
         mret (i + size (_matrix v')));
  sto_node ← deref node;
  (if decide (transform_type sto_node ≠ NONE)
   then get_original_value node true;; mret tt
   else mret tt);;
  mret i.

Definition set_flattened_unconstrained_values (flattened_values : VectorXd)
  : St unit :=
  s ← get_state;
  if decide (length flattened_values ≠ flat_size s)
  then throw size_mismatch_flattened
  else
    st_for (unflatten_value_step flattened_values) (stochastic_nodes s) 0;;
    mret tt.

(** [GlobalState::add_to_stochastic_unconstrained_nodes] *)
Definition add_to_stochastic_unconstrained_nodes (increment : VectorXd)
  : St unit :=
  s ← get_state;
  if decide (length increment ≠ flat_size s)
  then throw size_mismatch_increment
  else
    flattened_values ← get_flattened_unconstrained_values [];
    sum ← lift (vector_add flattened_values increment);
    set_flattened_unconstrained_values sum.

(** [GlobalState::get_flattened_unconstrained_grads] *)
Definition flatten_grad_step (acc : list float * nat) (node : NodePtr)
  : St (list float * nat) :=
  let flattened_grad := acc.1 in
  let i := acc.2 in
  n ← deref node;
  if decide (variable_type (type (value n)) = SCALAR) then
    flattened_grad ←
      lift (set_coeff flattened_grad i (grad_double (back_grad1 n)));
    mret (flattened_grad, i + 1)
  else
    let vector := coeffs (grad_matrix (back_grad1 n)) in
    flattened_grad ←
      lift (set_segment flattened_grad i (length vector) vector);
    mret (flattened_grad, i + size (grad_matrix (back_grad1 n))).

Definition get_flattened_unconstrained_grads (flattened_grad : VectorXd)
  : St VectorXd :=
  s ← get_state;
  let flattened_grad := resize (flat_size s) flattened_grad in
  r ← st_for flatten_grad_step (stochastic_nodes s) (flattened_grad, 0);
  mret r.1.

(** The loops of the constructor. *)

(** [ordered_support.push_back(graph.nodes[node_id].get())] *)
Definition push_support_step (_ : unit) (node_id : nat) : St unit :=
  s ← get_state;
  _ ← at_index (nodes (graph s)) node_id;
  modify (with_ordered_support (fun l => l ++ [node_id])).

(** "initialize values"; the loop carries the generator. *)
Definition initialize_step (gen : Gen) (node : NodePtr) : St Gen :=
  n ← deref node;
  gen ← (if negb (is_observed n) then eval node gen else mret gen);
  (if is_stochastic n && bool_decide (node_type n = OPERATOR)
   then get_unconstrained_value node true;; mret tt
   else mret tt);;
  mret gen.

(** "save stochastic and deterministic nodes" *)
Definition save_node_step (_ : unit) (node : NodePtr) : St unit :=
  n ← deref node;
  if is_stochastic n && negb (is_observed n) then
    modify (with_stochastic_nodes (fun l => l ++ [node]));;
    value ← get_unconstrained_value node false;
    unconstrained_value ← read_ref value;
    modify (with_vals_backup (fun l => l ++ [unconstrained_value]));;
    stochastic_node ← deref node;
    modify (with_grads_backup (fun l => l ++ [back_grad1 stochastic_node]))
  else if negb (is_stochastic n) then
    modify (with_deterministic_nodes (fun l => l ++ [node]))
  else mret tt.

(** "calculate total size of unobserved unconstrained stochastic values" *)
Definition flat_size_step (_ : unit) (node : NodePtr) : St unit :=
  value ← get_unconstrained_value node false;
  unconstrained_value ← read_ref value;
  if decide (variable_type (type unconstrained_value) = SCALAR)
  then modify (with_flat_size (fun n => n + 1))
  else modify (with_flat_size
                 (fun n => n + size (_matrix unconstrained_value))).

(** [GlobalState::GlobalState(Graph& g, uint seed)], run on the members as
    they are before the constructor body. *)
Definition GlobalState_body (seed : nat) : St unit :=
  let gen := mt19937 seed in
  modify (with_flat_size (fun _ => 0));;
  s ← get_state;
  let supp := compute_support (graph s) in
  st_for push_support_step (ascending supp) tt;;
  s ← get_state;
  _ ← st_for initialize_step (ordered_support s) gen;
  update_backgrad;;
  s ← get_state;
  st_for save_node_step (ordered_support s) tt;;
  s ← get_state;
  st_for flat_size_step (stochastic_nodes s) tt;;
  backup_unconstrained_values;;
  backup_unconstrained_grads;;
  update_log_prob.

(** The members before the constructor body runs: [graph] is bound to
    [g], the vectors are empty; [flat_size] and [log_prob] are assigned by
    the body before they are read. *)
Definition members_of (g : Graph) : GlobalState :=
  {| graph := g; ordered_support := []; stochastic_nodes := [];
     deterministic_nodes := []; flat_size := 0;
     stochastic_unconstrained_vals_backup := [];
     stochastic_unconstrained_grads_backup := [];
     log_prob := 0%float |}.

Definition GlobalState_new (g : Graph) (seed : nat) : result unit * GlobalState :=
  GlobalState_body seed (members_of g).

(** The effect of [get_original_value(true)] on a node. *)
Definition sync_original (n : Node) : Node :=
  match transform_type n with
  | NONE => n
  | t => set_value (transform_inverse t (value n) (unconstrained_value n)) n
  end.

(** The effect of one iteration of [set_flattened_unconstrained_values]
    on the node it visits, at offset [i] of [fv]. *)
Definition unflatten_value (fv : VectorXd) (i : nat) (v : NodeValue) : NodeValue :=
  if decide (variable_type (type v) = SCALAR)
  then set_double (nth i fv 0%float) v
  else set_matrix (assign_vector (take (size (_matrix v)) (drop i fv))) v.

Definition unflatten_node (fv : VectorXd) (i : nat) (n : Node) : Node :=
  sync_original (write_unconstrained (unflatten_value fv i (unconstrained n)) n).

(** The nodes after the loop of [set_flattened_unconstrained_values] over
    [ps], started at offset [i]. *)
Fixpoint unflatten_nodes (fv : VectorXd) (ps : list NodePtr) (i : nat)
    (ns : list Node) : list Node :=
  match ps with
  | [] => ns
  | p :: ps' =>
      match ns !! p with
      | Some n =>
          unflatten_nodes fv ps' (i + flat_length (unconstrained n))
            (<[p := unflatten_node fv i n]> ns)
      | None => ns
      end
  end.

(** A node after a round trip through the flattened vector. *)
Definition round_trip_node (n : Node) : Node :=
  sync_original (write_unconstrained (as_column (unconstrained n)) n).

(** The effect of one iteration of [revert_unconstrained_values]. *)
Definition revert_node (saved : NodeValue) (n : Node) : Node :=
  sync_original (write_unconstrained saved n).

(** The nodes after the loop of [revert_unconstrained_values]. *)
Fixpoint revert_nodes (ps : list NodePtr) (saved : list NodeValue)
    (ns : list Node) : list Node :=
  match ps, saved with
  | p :: ps', b :: saved' => revert_nodes ps' saved' (alter (revert_node b) p ns)
  | _, _ => ns
  end.

(** The nodes after the loop of [revert_unconstrained_grads]. *)
Fixpoint revert_grads (ps : list NodePtr) (saved : list DoubleMatrix)
    (ns : list Node) : list Node :=
  match ps, saved with
  | p :: ps', d :: saved' => revert_grads ps' saved' (alter (set_back_grad1 d) p ns)
  | _, _ => ns
  end.

(** The members after the loop "save stochastic and deterministic nodes"
    has visited the nodes [l]. *)
Definition save_nodes_result (l : list NodePtr) (s : GlobalState) : GlobalState :=
  let ns := nodes (graph s) in
  let sto := filter (fun p => unobserved_stochastic ns p) l in
  {| graph := graph s; ordered_support := ordered_support s;
     stochastic_nodes := stochastic_nodes s ++ sto;
     deterministic_nodes :=
       deterministic_nodes s ++ filter (fun p => deterministic ns p) l;
     flat_size := flat_size s;
     stochastic_unconstrained_vals_backup :=
       stochastic_unconstrained_vals_backup s ++ values_of ns sto;
     stochastic_unconstrained_grads_backup :=
       stochastic_unconstrained_grads_backup s ++ grads_of ns sto;
     log_prob := log_prob s |}.

(** The methods a sampler may call on a constructed GlobalState. *)
Inductive method : Type :=
| Backup_unconstrained_values
| Backup_unconstrained_grads
| Revert_unconstrained_values
| Revert_unconstrained_grads
| Add_to_stochastic_unconstrained_nodes (increment : VectorXd)
| Get_flattened_unconstrained_values (flattened_values : VectorXd)
| Set_flattened_unconstrained_values (flattened_values : VectorXd)
| Get_flattened_unconstrained_grads (flattened_grad : VectorXd)
| Get_log_prob
| Update_log_prob
| Update_backgrad.

Definition call (m : method) : St unit :=
  match m with
  | Backup_unconstrained_values => backup_unconstrained_values
  | Backup_unconstrained_grads => backup_unconstrained_grads
  | Revert_unconstrained_values => revert_unconstrained_values
  | Revert_unconstrained_grads => revert_unconstrained_grads
  | Add_to_stochastic_unconstrained_nodes v =>
      add_to_stochastic_unconstrained_nodes v
  | Get_flattened_unconstrained_values v =>
      get_flattened_unconstrained_values v;; mret tt
  | Set_flattened_unconstrained_values v =>
      set_flattened_unconstrained_values v
  | Get_flattened_unconstrained_grads v =>
      get_flattened_unconstrained_grads v;; mret tt
  | Get_log_prob => get_log_prob;; mret tt
  | Update_log_prob => update_log_prob
  | Update_backgrad => update_backgrad
  end.

(** The states a sampler can reach: the constructed state, and the state
    any method leaves behind. *)
Inductive reachable (g : Graph) (seed : nat) : GlobalState -> Prop :=
| reachable_new s :
    GlobalState_new g seed = (Ok tt, s) -> reachable g seed s
| reachable_call s m :
    reachable g seed s -> reachable g seed (call m s).2.

(** What the "initialize values" loop of the constructor does to a node
    of the support: the kind and the gradient stay, an observed node keeps
    its [value] (it is not evaluated), and a stochastic operator with a
    transform gets the transform's image of its [value] as
    [unconstrained_value]. *)
Definition initialized (n n' : Node) : Prop :=
  same_kind n n' /\ back_grad1 n' = back_grad1 n /\
  (is_observed n = true -> value n' = value n) /\
  unconstrained_value n' =
    if is_stochastic n && bool_decide (node_type n = OPERATOR)
    then match transform_type n with
         | NONE => unconstrained_value n
         | t => transform_apply t (value n') (unconstrained_value n)
         end
    else unconstrained_value n.

(** *** Sample data *)

End global_state.

Definition scalar (x : float) : NodeValue :=
  {| type := {| variable_type := SCALAR; rows := 0; cols := 0 |};
     _double := x;
     _matrix := {| m_rows := 0; m_cols := 0; coeffs := [] |} |}.

Definition matrix (r c : nat) (cs : list float) : NodeValue :=
  {| type := {| variable_type := MATRIX 0; rows := r; cols := c |};
     _double := 0%float;
     _matrix := {| m_rows := r; m_cols := c; coeffs := cs |} |}.

Definition zero_grad : DoubleMatrix :=
  {| grad_double := 0%float;
     grad_matrix := {| m_rows := 0; m_cols := 0; coeffs := [] |} |}.

(** Collaborators for the samples: evaluation keeps the value a node has,
    the transform doubles a scalar and its inverse halves it, gradients
    stay as they are. *)
Definition sample_collaborators : Collaborators :=
  {| Gen := nat;
     mt19937 := fun seed => seed;
     Node_eval := fun ns p gen =>
       (from_option value (scalar 0%float) (ns !! p), S gen);
     transform_apply := fun _ v _ => set_double (_double v * 2)%float v;
     transform_inverse := fun _ _ u => set_double (_double u / 2)%float u;
     Graph_update_backgrad := fun ns _ p =>
       from_option back_grad1 zero_grad (ns !! p);
     Graph_full_log_prob := fun _ _ => 0%float |}.

Definition sample_node (sto obs : bool) (ins : list NodePtr) (v : NodeValue)
    (t : TransformType) : Node :=
  {| node_type := OPERATOR; is_stochastic := sto; is_observed := obs;
     in_nodes := ins; value := v; back_grad1 := zero_grad;
     unconstrained_value := v; transform_type := t |}.

(** A graph with unobserved stochastic nodes of shapes scalar, 3-vector
    and scalar (nodes 1, 2, 3), an observed stochastic node (4), a queried
    deterministic node (5), a constant (0), and a node outside the support
    (6). *)
Definition sample_graph : Graph :=
  {| nodes :=
       [ {| node_type := OTHER_NODE 0; is_stochastic := false;
            is_observed := false; in_nodes := []; value := scalar 1;
            back_grad1 := zero_grad; unconstrained_value := scalar 1;
            transform_type := NONE |};
         sample_node true false [0] (scalar 8) NONE;
         sample_node true false [0] (matrix 3 1 [1; 2; 3]%float) (TRANSFORM 1);
         sample_node true false [1] (scalar 2) (TRANSFORM 1);
         sample_node true true [2; 3] (scalar 4) NONE;
         sample_node false false [3] (scalar 0) NONE;
         sample_node true false [0] (scalar 5) NONE ];
     observed := [4];
     queries := [5] |}.

Definition sample_state : GlobalState :=
  Eval vm_compute in (@GlobalState_new sample_collaborators sample_graph 42).2.

(** The nodes of the sample state after a proposal overwrote the values
    of all of them. *)
Definition proposed_nodes : list Node :=
  (fun n => set_unconstrained_value (scalar 7) (set_value (scalar 7) n))
    <$> nodes (graph sample_state).

(** A graph whose only node is a queried, unobserved stochastic node with
    a 2 x 2 matrix value. *)
Definition matrix_graph : Graph :=
  {| nodes := [ sample_node true false [] (matrix 2 2 [1; 2; 3; 4]%float) NONE ];
     observed := [];
     queries := [0] |}.

Definition matrix_state : GlobalState :=
  Eval vm_compute in (@GlobalState_new sample_collaborators matrix_graph 0).2.

(** A graph whose only node is a queried, unobserved stochastic scalar of
    value 2^53. *)
Definition large_graph : Graph :=
  {| nodes := [ sample_node true false [] (scalar 9007199254740992) NONE ];
     observed := [];
     queries := [0] |}.

Definition large_state : GlobalState :=
  Eval vm_compute in (@GlobalState_new sample_collaborators large_graph 0).2.

(** The sample state after a gradient pass gave every node a gradient of
    the shape of its value. *)
Definition graded_state : GlobalState :=
  with_nodes
    ((fun n => set_back_grad1
                 {| grad_double := 1%float; grad_matrix := _matrix (value n) |} n)
       <$> nodes (graph sample_state))
    sample_state.

(** The nodes of the sample graph with nothing observed and nothing
    queried. *)
Definition rootless_graph : Graph :=
  {| nodes := nodes sample_graph; observed := []; queries := [] |}.



End graph.

(** * Properties *)

(** ** Loops and occurrence counts *)

Lemma for_each_app {A X : Type} (body : A -> X -> result A) (xs ys : list X) (a : A) :
  for_each body (xs ++ ys) a = a' ← for_each body xs a; for_each body ys a'.
Proof.
  revert a. induction xs as [|x xs IH]; intros a; simpl; [done|].
  destruct (body a x) as [a'| |]; simpl; [apply IH|done|done].
Qed.

Lemma occurrences_nil `{EqDecision A} (x : A) : occurrences x [] = 0.
Proof. done. Qed.

Lemma occurrences_app `{EqDecision A} (x : A) (l k : list A) :
  occurrences x (l ++ k) = occurrences x l + occurrences x k.
Proof. unfold occurrences. by rewrite filter_app, length_app. Qed.

Lemma occurrences_cons `{EqDecision A} (x y : A) (l : list A) :
  occurrences x (y :: l) = (if decide (x = y) then 1 else 0) + occurrences x l.
Proof.
  unfold occurrences. rewrite filter_cons. by destruct (decide (x = y)).
Qed.

Lemma occurrences_replicate `{EqDecision A} (x y : A) (n : nat) :
  occurrences x (replicate n y) = if decide (x = y) then n else 0.
Proof.
  induction n as [|n IH]; simpl.
  - by destruct (decide (x = y)).
  - rewrite occurrences_cons, IH. by destruct (decide (x = y)).
Qed.

Lemma occurrences_not_elem `{EqDecision A} (x : A) (l : list A) :
  x ∉ l -> occurrences x l = 0.
Proof.
  induction l as [|y l IH]; intros Hx; [done|].
  rewrite occurrences_cons. apply not_elem_of_cons in Hx as [Hxy Hl].
  rewrite decide_False by done. by rewrite IH.
Qed.

(** ** The out-node index *)

Module out_nodes_facts.
Import minibmg.

Lemma push_back_for_Some node data in_node l :
  data !! in_node = Some l ->
  push_back_for node data in_node = Ok (<[in_node := l ++ [node]]> data).
Proof. intros Hl. unfold push_back_for, for_node. by rewrite Hl. Qed.

Lemma push_back_for_None node data in_node :
  data !! in_node = None ->
  push_back_for node data in_node = Throw not_in_graph.
Proof. intros Hl. unfold push_back_for, for_node. by rewrite Hl. Qed.

(** The inner loop: every input already has a list, and each gets [node]
    appended once per occurrence. *)
Lemma push_back_all node ins : forall data,
  (forall a, a ∈ ins -> is_Some (data !! a)) ->
  exists data',
    for_each (push_back_for node) ins data = Ok data' /\
    forall a, data' !! a =
      (fun l => l ++ replicate (occurrences a ins) node) <$> data !! a.
Proof.
  induction ins as [|p ins IH]; intros data Hins.
  - exists data. split; [done|]. intros a. simpl.
    destruct (data !! a); simpl; [|done]. by rewrite app_nil_r.
  - destruct (Hins p) as [l Hl]; [set_solver|].
    destruct (IH (<[p := l ++ [node]]> data)) as (data' & Hrun & Hdata').
    { intros a Ha. destruct (decide (p = a)) as [->|Hne].
      - rewrite lookup_insert_eq. eauto.
      - rewrite lookup_insert_ne by done. apply Hins. set_solver. }
    exists data'. split.
    + simpl. rewrite (push_back_for_Some _ _ _ l) by done. apply Hrun.
    + intros a. rewrite Hdata', occurrences_cons.
      destruct (decide (a = p)) as [->|Hne].
      * rewrite lookup_insert_eq, Hl. simpl. by rewrite <- app_assoc.
      * rewrite lookup_insert_ne by done. done.
Qed.

(** The inner loop without any assumption: it never leaves the defined
    behaviour, throws nothing but node-not-found, and keeps the key set. *)
Lemma push_back_all_dom node ins : forall data,
  match for_each (push_back_for node) ins data with
  | Ok data' => dom data' = dom data
  | Throw e => e = not_in_graph
  | Undefined => False
  end.
Proof.
  induction ins as [|p ins IH]; intros data; simpl; [done|].
  destruct (data !! p) as [l|] eqn:Hl.
  - rewrite (push_back_for_Some _ _ _ l) by done. simpl.
    specialize (IH (<[p := l ++ [node]]> data)).
    destruct (for_each _ ins _); [|done|done].
    rewrite IH, dom_insert_L. apply elem_of_dom_2 in Hl. set_solver.
  - by rewrite push_back_for_None.
Qed.

Lemma create_step_inputs g data node :
  create_step g data node =
  for_each (push_back_for node) (inputs (deref g node)) (<[node := []]> data).
Proof.
  unfold create_step. destruct (deref g node); simpl; try done.
  by destruct (push_back_for _ _ _).
Qed.

Lemma create_loop_dom g ns : forall data,
  match for_each (create_step g) ns data with
  | Ok data' => dom data' = dom data ∪ list_to_set ns
  | Throw e => e = not_in_graph
  | Undefined => False
  end.
Proof.
  induction ns as [|n ns IH]; intros data; simpl; [set_solver|].
  rewrite create_step_inputs.
  pose proof (push_back_all_dom n (inputs (deref g n)) (<[n := []]> data)) as Hin.
  destruct (for_each (push_back_for n) _ _) as [data1| |]; simpl; [|done|done].
  specialize (IH data1). destruct (for_each (create_step g) ns data1); [|done|done].
  rewrite IH, Hin, dom_insert_L. set_solver.
Qed.

Lemma consumers_app g ns ms a :
  consumers g (ns ++ ms) a = consumers g ns a ++ consumers g ms a.
Proof. unfold consumers. apply bind_app. Qed.

Lemma consumers_not_input g ns a :
  (forall b, b ∈ ns -> a ∉ inputs (deref g b)) -> consumers g ns a = [].
Proof.
  induction ns as [|b ns IH]; intros Hns; [done|].
  change (b :: ns) with ([b] ++ ns). rewrite consumers_app, IH by set_solver.
  unfold consumers. simpl. rewrite occurrences_not_elem; [done|].
  apply Hns. set_solver.
Qed.

(** The outer loop on a prefix of a well-formed graph: the index holds,
    for each node seen, its consumers among the nodes seen. *)
Lemma create_prefix g ns :
  NoDup ns ->
  (forall i b a, ns !! i = Some b -> a ∈ inputs (deref g b) ->
     exists j, j <= i /\ ns !! j = Some a) ->
  exists data,
    for_each (create_step g) ns ∅ = Ok data /\
    forall a, data !! a =
      if decide (a ∈ ns) then Some (consumers g ns a) else None.
Proof.
  induction ns as [|n ns IH] using rev_ind; intros Hnd Hwf.
  - exists ∅. split; [done|]. intros a. rewrite lookup_empty.
    rewrite decide_False; [done|]. set_solver.
  - apply NoDup_app in Hnd as (Hnd & Hfresh & _).
    assert (n ∉ ns) as Hn by (intros Hin; apply (Hfresh n Hin); set_solver).
    assert (forall b a, b ∈ ns -> a ∈ inputs (deref g b) -> a ∈ ns) as Hclosed.
    { intros b a Hb Ha. apply list_elem_of_lookup in Hb as [i Hi].
      destruct (Hwf i b a) as (j & Hj & Hja); [by apply lookup_app_l_Some|done|].
      rewrite lookup_app_l in Hja
        by (apply lookup_lt_Some in Hi; lia).
      by eapply list_elem_of_lookup_2. }
    destruct IH as (data & Hrun & Hdata); [done| |].
    { intros i b a Hi Ha.
      destruct (Hwf i b a) as (j & Hj & Hja); [by apply lookup_app_l_Some|done|].
      exists j. split; [done|].
      rewrite lookup_app_l in Hja by (apply lookup_lt_Some in Hi; lia). done. }
    destruct (push_back_all n (inputs (deref g n)) (<[n := []]> data))
      as (data' & Hrun' & Hdata').
    { intros a Ha. destruct (decide (n = a)) as [->|Hne].
      - rewrite lookup_insert_eq. eauto.
      - rewrite lookup_insert_ne by done. rewrite Hdata.
        destruct (Hwf (length ns) n a) as (j & Hj & Hja); [|done|].
        { by rewrite lookup_app_r, Nat.sub_diag by lia. }
        rewrite decide_True; [eauto|].
        destruct (decide (j = length ns)) as [->|Hlt].
        + rewrite lookup_app_r, Nat.sub_diag in Hja by lia. naive_solver.
        + rewrite lookup_app_l in Hja by lia. by eapply list_elem_of_lookup_2. }
    exists data'. split.
    + rewrite for_each_app, Hrun. simpl. rewrite create_step_inputs, Hrun'. done.
    + intros a. rewrite Hdata', consumers_app.
      replace (consumers g [n] a)
        with (replicate (occurrences a (inputs (deref g n))) n)
        by (unfold consumers; simpl; by rewrite app_nil_r).
      destruct (decide (a = n)) as [->|Hne].
      * rewrite lookup_insert_eq. simpl. rewrite decide_True by set_solver.
        rewrite consumers_not_input; [done|].
        intros b Hb Hin. apply Hn. by apply (Hclosed b n).
      * rewrite lookup_insert_ne by done. rewrite Hdata.
        destruct (decide (a ∈ ns)) as [Ha|Ha].
        -- rewrite decide_True by set_solver. done.
        -- rewrite decide_False by set_solver. done.
Qed.

Lemma occurrences_consumers g ns a b :
  NoDup ns -> b ∈ ns ->
  occurrences b (consumers g ns a) = occurrences a (inputs (deref g b)).
Proof.
  induction ns as [|n ns IH]; intros Hnd Hb; [set_solver|].
  apply NoDup_cons in Hnd as [Hn Hnd].
  change (n :: ns) with ([n] ++ ns).
  rewrite consumers_app, occurrences_app.
  replace (consumers g [n] a)
    with (replicate (occurrences a (inputs (deref g n))) n)
    by (unfold consumers; simpl; by rewrite app_nil_r).
  rewrite occurrences_replicate.
  destruct (decide (b = n)) as [->|Hne].
  - rewrite (occurrences_not_elem n (consumers g ns a)); [lia|].
    unfold consumers. rewrite list_elem_of_bind. intros (x & Hx & Hxs).
    apply elem_of_replicate in Hx as [-> _]. done.
  - rewrite IH; [done|done|set_solver].
Qed.

Lemma create_ok g :
  graph_ok g ->
  exists data,
    create g = Ok data /\
    forall a, data !! a =
      if decide (a ∈ nodes g) then Some (consumers g (nodes g) a) else None.
Proof. intros [Hnd Hwf]. by apply create_prefix. Qed.

Lemma create_keys g :
  match create g with
  | Ok data => dom data = list_to_set (nodes g)
  | Throw e => e = not_in_graph
  | Undefined => False
  end.
Proof.
  pose proof (create_loop_dom g (nodes g) ∅) as Hdom. unfold create.
  destruct (for_each _ _ _); [|done|done]. set_solver.
Qed.

Lemma sample_graph_ok : graph_ok sample_graph.
Proof.
  split.
  - simpl. repeat (apply NoDup_cons; split; [set_solver|]). apply NoDup_nil_2.
  - intros i b a Hi Ha.
    destruct i as [|[|[|[|i]]]]; simpl in Hi; simplify_eq; simpl in Ha.
    + set_solver.
    + set_solver.
    + apply elem_of_cons in Ha as [->|Ha]; [exists 0; split; [lia|done]|].
      apply elem_of_cons in Ha as [->|Ha]; [exists 1; split; [lia|done]|].
      apply elem_of_cons in Ha as [->|Ha]; [exists 0; split; [lia|done]|].
      set_solver.
    + apply elem_of_cons in Ha as [->|Ha]; [exists 2; split; [lia|done]|].
      set_solver.
Qed.

Example out_nodes_sample_10 : out_nodes sample_graph 10 = Ok [30; 30].
Proof. vm_compute. reflexivity. Qed.

Example out_nodes_sample_30 : out_nodes sample_graph 30 = Ok [40].
Proof. vm_compute. reflexivity. Qed.

Example out_nodes_sample_40 : out_nodes sample_graph 40 = Ok [].
Proof. vm_compute. reflexivity. Qed.

(** C7. Out-edge / in-edge duality with multiplicity: in a graph as
    [Graph] builds it, [out_nodes g a] returns, for a node [a] of the
    graph, the consumers of [a] in the graph's stored (topological) order,
    each once per occurrence of [a] in its input list; so every node [b]
    of the graph occurs in [out_nodes g a] exactly as often as [a] occurs
    among the declared inputs of [b] (none for a constant or a variable,
    the single input for a query, once per occurrence for an operator). *)
Theorem out_nodes_duality (g : Graph) (a : Nodep) :
  graph_ok g -> a ∈ nodes g ->
  exists l,
    out_nodes g a = Ok l /\
    l = consumers g (nodes g) a /\
    (forall b, b ∈ nodes g ->
       occurrences b l = occurrences a (inputs (deref g b))) /\
    (forall b, op (deref g b) = CONSTANT \/ op (deref g b) = VARIABLE ->
       inputs (deref g b) = []) /\
    (forall b, op (deref g b) = QUERY ->
       exists in_node, deref g b = QueryNode in_node /\ inputs (deref g b) = [in_node]).
Proof.
  intros Hok Ha. destruct (create_ok g Hok) as (data & Hcreate & Hdata).
  exists (consumers g (nodes g) a). repeat split.
  - unfold out_nodes, get. rewrite Hcreate. simpl. unfold for_node.
    rewrite Hdata, decide_True by done. done.
  - intros b Hb. apply occurrences_consumers; [apply Hok|done].
  - intros b [Hb|Hb]; destruct (deref g b); simpl in *; congruence.
  - intros b Hb. destruct (deref g b); simpl in *; try congruence. eauto.
Qed.

Lemma out_nodes_duality_witness :
  exists l,
    out_nodes sample_graph 10 = Ok l /\
    l = consumers sample_graph (nodes sample_graph) 10 /\
    (forall b, b ∈ nodes sample_graph ->
       occurrences b l = occurrences 10 (inputs (deref sample_graph b))) /\
    (forall b, op (deref sample_graph b) = CONSTANT \/
               op (deref sample_graph b) = VARIABLE ->
       inputs (deref sample_graph b) = []) /\
    (forall b, op (deref sample_graph b) = QUERY ->
       exists in_node, deref sample_graph b = QueryNode in_node /\
                       inputs (deref sample_graph b) = [in_node]).
Proof.
  apply (out_nodes_duality sample_graph 10).
  - exact sample_graph_ok.
  - simpl. set_solver.
Defined.

(** C8. Not-found error: for every graph, [out_nodes g node] on a node
    that is not in the graph fails with [invalid_argument "node not in
    graph"]; a call never ends in anything but a list or that error; and
    in a graph as [Graph] builds it the call succeeds on every node of
    the graph, so a node outside the graph is its only error condition. *)
Theorem out_nodes_not_found (g : Graph) (node : Nodep) :
  (node ∉ nodes g -> out_nodes g node = Throw not_in_graph) /\
  found_or_not_in_graph (out_nodes g node) /\
  (graph_ok g -> node ∈ nodes g -> exists l, out_nodes g node = Ok l).
Proof.
  pose proof (create_keys g) as Hkeys. unfold out_nodes, get.
  repeat split.
  - intros Hnode. destruct (create g) as [data| |]; simpl; [|by subst|done].
    unfold for_node. rewrite (not_elem_of_dom_1 data node); [done|].
    rewrite Hkeys. set_solver.
  - destruct (create g) as [data| |]; simpl; [|done|done].
    unfold for_node. by destruct (data !! node).
  - intros Hok Hnode. destruct (create_ok g Hok) as (data & -> & Hdata).
    simpl. unfold for_node. rewrite Hdata, decide_True by done. eauto.
Qed.

Lemma out_nodes_not_found_witness :
  out_nodes sample_graph 50 = Throw not_in_graph /\
  exists l, out_nodes sample_graph 30 = Ok l.
Proof.
  split.
  - apply (out_nodes_not_found sample_graph 50). simpl. set_solver.
  - apply (out_nodes_not_found sample_graph 30).
    + exact sample_graph_ok.
    + simpl. set_solver.
Defined.

(** *** More about the index *)

Lemma push_back_all_sound g all node ins : forall data,
  node ∈ all ->
  (forall a, a ∈ ins -> a ∈ inputs (deref g node)) ->
  entries_sound g all data ->
  match for_each (push_back_for node) ins data with
  | Ok data' => entries_sound g all data'
  | _ => True
  end.
Proof.
  induction ins as [|p ins IH]; intros data Hnode Hins Hdata; simpl; [done|].
  destruct (data !! p) as [l|] eqn:Hl.
  - rewrite (push_back_for_Some _ _ _ l) by done. simpl.
    apply IH; [done|intros; apply Hins; set_solver|].
    intros a l' b Ha Hb. destruct (decide (p = a)) as [->|Hne].
    + rewrite lookup_insert_eq in Ha. simplify_eq.
      apply elem_of_app in Hb as [Hb|Hb]; [by eapply Hdata|].
      apply list_elem_of_singleton in Hb as ->. split; [done|].
      apply Hins. set_solver.
    + rewrite lookup_insert_ne in Ha by done. by eapply Hdata.
  - by rewrite push_back_for_None.
Qed.

Lemma create_loop_sound g all ns : forall data,
  (forall b, b ∈ ns -> b ∈ all) ->
  entries_sound g all data ->
  match for_each (create_step g) ns data with
  | Ok data' => entries_sound g all data'
  | _ => True
  end.
Proof.
  induction ns as [|n ns IH]; intros data Hns Hdata; simpl; [done|].
  rewrite create_step_inputs.
  pose proof (push_back_all_sound g all n (inputs (deref g n)) (<[n := []]> data))
    as Hin.
  destruct (for_each (push_back_for n) _ _) as [data1| |]; simpl; [|done|done].
  apply IH; [intros; apply Hns; set_solver|]. apply Hin.
  - apply Hns. set_solver.
  - done.
  - intros a l b Ha Hb. destruct (decide (n = a)) as [->|Hne].
    + rewrite lookup_insert_eq in Ha. simplify_eq. set_solver.
    + rewrite lookup_insert_ne in Ha by done. by eapply Hdata.
Qed.

(** X16. Whatever the graph, a list [out_nodes] returns for [a] holds
    only nodes of the graph that list [a] among their inputs; so it never
    holds a constant or a variable node. *)
Theorem out_nodes_only_consumers (g : Graph) (a : Nodep) (l : list Nodep) :
  out_nodes g a = Ok l ->
  forall b, b ∈ l ->
    b ∈ nodes g /\ a ∈ inputs (deref g b) /\
    op (deref g b) ≠ CONSTANT /\ op (deref g b) ≠ VARIABLE.
Proof.
  unfold out_nodes, get, create. intros Hout b Hb.
  pose proof (create_loop_sound g (nodes g) (nodes g) ∅) as Hsound.
  destruct (for_each (create_step g) (nodes g) ∅) as [data| |]; [|done|done].
  simpl in Hout. unfold for_node in Hout.
  destruct (data !! a) as [l'|] eqn:Ha; [|done]. simplify_eq.
  destruct (Hsound ltac:(done) ltac:(by intros ????; simplify_map_eq) a l b Ha Hb)
    as [Hin Hinput].
  split; [done|]. split; [done|].
  destruct (deref g b); simpl in *; set_solver.
Qed.

Lemma out_nodes_only_consumers_witness :
  out_nodes sample_graph 10 = Ok [30; 30] /\
  30 ∈ nodes sample_graph /\ 10 ∈ inputs (deref sample_graph 30) /\
  op (deref sample_graph 30) ≠ CONSTANT /\ op (deref sample_graph 30) ≠ VARIABLE.
Proof.
  assert (out_nodes sample_graph 10 = Ok [30; 30]) as Hout
    by (vm_compute; reflexivity).
  split; [exact Hout|].
  apply (out_nodes_only_consumers sample_graph 10 [30; 30] Hout 30).
  set_solver.
Defined.

Lemma push_back_all_missing node ins : forall data a,
  a ∈ ins -> data !! a = None ->
  for_each (push_back_for node) ins data = Throw not_in_graph.
Proof.
  induction ins as [|p ins IH]; intros data a Ha Hnone; [set_solver|]. simpl.
  destruct (data !! p) as [l|] eqn:Hl.
  - rewrite (push_back_for_Some _ _ _ l) by done. simpl.
    assert (a ≠ p) as Hne by (intros ->; congruence).
    apply (IH _ a); [set_solver|]. by rewrite lookup_insert_ne.
  - by rewrite push_back_for_None.
Qed.

(** X17. When some node of the graph has an input that is not stored at
    or before the node's own position, [create] throws while building the
    index, so [out_nodes] fails with node-not-found for every node, also
    for the nodes that are in the graph. *)
Theorem out_nodes_forward_reference (g : Graph) (i : nat) (b a : Nodep) :
  nodes g !! i = Some b -> a ∈ inputs (deref g b) ->
  a ∉ take (S i) (nodes g) ->
  forall node, out_nodes g node = Throw not_in_graph.
Proof.
  intros Hi Ha Hbefore node. unfold out_nodes, get, create.
  rewrite <- (take_drop_middle (nodes g) i b Hi).
  rewrite for_each_app.
  pose proof (create_loop_dom g (take i (nodes g)) ∅) as Hdom.
  destruct (for_each (create_step g) (take i (nodes g)) ∅) as [data| |];
    simpl; [|by subst|done].
  rewrite create_step_inputs.
  rewrite (push_back_all_missing b _ _ a Ha); [done|].
  rewrite (take_S_r _ _ b Hi) in Hbefore.
  apply not_elem_of_dom. rewrite dom_insert_L, Hdom. set_solver.
Qed.

Lemma out_nodes_forward_reference_witness :
  out_nodes misordered_graph 40 = Throw not_in_graph /\
  out_nodes misordered_graph 10 = Throw not_in_graph.
Proof.
  assert (forall node, out_nodes misordered_graph node = Throw not_in_graph) as H.
  { apply (out_nodes_forward_reference misordered_graph 0 40 30).
    - reflexivity.
    - simpl. set_solver.
    - simpl. set_solver. }
  split; apply H.
Defined.

Lemma sum_list_indicator (x : nat) (ns : list nat) :
  NoDup ns -> x ∈ ns ->
  sum_list ((fun a => if decide (a = x) then 1 else 0) <$> ns) = 1.
Proof.
  induction 1 as [|n ns Hn Hnd IH]; intros Hx; [set_solver|].
  rewrite fmap_cons. simpl. destruct (decide (n = x)) as [->|Hne].
  - assert (sum_list ((fun a => if decide (a = x) then 1 else 0) <$> ns) = 0)
      as ->; [|done].
    clear IH Hx Hnd. induction ns as [|m ns IH]; [done|].
    apply not_elem_of_cons in Hn as [Hne Hn]. rewrite fmap_cons. simpl.
    rewrite decide_False by done. by apply IH.
  - rewrite IH; [done|set_solver].
Qed.

Lemma sum_list_add {A : Type} (f k : A -> nat) (l : list A) :
  sum_list ((fun a => f a + k a) <$> l) = sum_list (f <$> l) + sum_list (k <$> l).
Proof. induction l as [|a l IH]; [done|]. rewrite !fmap_cons. simpl. lia. Qed.

Lemma sum_occurrences (ns l : list nat) :
  NoDup ns -> (forall x, x ∈ l -> x ∈ ns) ->
  sum_list ((fun a => occurrences a l) <$> ns) = length l.
Proof.
  intros Hnd. induction l as [|x l IH]; intros Hl.
  - clear. induction ns as [|n ns IHn]; [done|].
    rewrite fmap_cons, occurrences_nil. simpl. by apply IHn.
  - erewrite list_fmap_ext; last first.
    { intros i a _. apply occurrences_cons. }
    rewrite sum_list_add, IH by (intros; apply Hl; set_solver).
    rewrite sum_list_indicator; [done|done|apply Hl; set_solver].
Qed.

Lemma length_consumers_cons g b bs a :
  length (consumers g (b :: bs) a) =
  occurrences a (inputs (deref g b)) + length (consumers g bs a).
Proof.
  change (b :: bs) with ([b] ++ bs). rewrite consumers_app, length_app.
  unfold consumers at 1. simpl. by rewrite app_nil_r, length_replicate.
Qed.

Lemma sum_length_consumers g ns bs :
  NoDup ns ->
  (forall b x, b ∈ bs -> x ∈ inputs (deref g b) -> x ∈ ns) ->
  sum_list ((fun a => length (consumers g bs a)) <$> ns) =
  sum_list ((fun b => length (inputs (deref g b))) <$> bs).
Proof.
  intros Hnd. induction bs as [|b bs IH]; intros Hbs.
  - clear. induction ns as [|n ns IH]; [done|]. rewrite fmap_cons.
    cbn [sum_list]. by rewrite IH.
  - erewrite list_fmap_ext; last first.
    { intros i a _. apply length_consumers_cons. }
    rewrite sum_list_add, IH
      by (intros b0 x Hb0 Hx; apply (Hbs b0 x); [set_solver|done]).
    rewrite fmap_cons. simpl. f_equal. apply sum_occurrences; [done|].
    intros x Hx. apply (Hbs b); [set_solver|done].
Qed.

(** X18. In a graph as [Graph] builds it, the consumer lists hold one
    entry per input edge: [out_nodes] succeeds on every node of the graph,
    and the lengths of the lists it returns add up to the lengths of the
    input lists of the graph's nodes. *)
Theorem out_nodes_count_edges (g : Graph) :
  graph_ok g ->
  exists outs : Nodep -> list Nodep,
    (forall a, a ∈ nodes g -> out_nodes g a = Ok (outs a)) /\
    sum_list ((fun a => length (outs a)) <$> nodes g) =
    sum_list ((fun b => length (inputs (deref g b))) <$> nodes g).
Proof.
  intros Hok. destruct (create_ok g Hok) as (data & Hcreate & Hdata).
  destruct Hok as [Hnd Hwf].
  exists (consumers g (nodes g)). split.
  - intros a Ha. unfold out_nodes, get. rewrite Hcreate. simpl.
    unfold for_node. by rewrite Hdata, decide_True.
  - apply sum_length_consumers; [done|].
    intros b x Hb Hx. apply list_elem_of_lookup in Hb as [i Hi].
    destruct (Hwf i b x Hi Hx) as (j & _ & Hj). by eapply list_elem_of_lookup_2.
Qed.

Lemma out_nodes_count_edges_witness :
  exists outs : Nodep -> list Nodep,
    (forall a, a ∈ nodes sample_graph -> out_nodes sample_graph a = Ok (outs a)) /\
    sum_list ((fun a => length (outs a)) <$> nodes sample_graph) =
    sum_list ((fun b => length (inputs (deref sample_graph b)))
                <$> nodes sample_graph).
Proof. apply (out_nodes_count_edges sample_graph). exact sample_graph_ok. Defined.

End out_nodes_facts.

(** ** GlobalState *)

Module global_state_facts.
Import graph.

Section facts.
Context `{Collaborators}.

(** *** Running the monad *)

Lemma bind_run {A B : Type} (m : St A) (f : A -> St B) (s : GlobalState) :
  (m ≫= f) s =
  match m s with
  | (Ok a, s') => f a s'
  | (Throw e, s') => (Throw e, s')
  | (Undefined, s') => (Undefined, s')
  end.
Proof. reflexivity. Qed.

Lemma bind_Ok {A B : Type} (m : St A) (f : A -> St B) s a s' :
  m s = (Ok a, s') -> (m ≫= f) s = f a s'.
Proof. intros Hm. by rewrite bind_run, Hm. Qed.

Lemma st_for_nil {A X : Type} (body : A -> X -> St A) a s :
  st_for body [] a s = (Ok a, s).
Proof. reflexivity. Qed.

Lemma st_for_cons {A X : Type} (body : A -> X -> St A) x xs a s :
  st_for body (x :: xs) a s = (a' ← body a x; st_for body xs a') s.
Proof. reflexivity. Qed.

Lemma deref_Some p n s :
  nodes (graph s) !! p = Some n -> deref p s = (Ok n, s).
Proof.
  intros Hp. unfold deref. rewrite bind_run. unfold get_state, at_index, lift.
  cbv beta iota. by rewrite Hp.
Qed.

Lemma update_node_Some p n f s :
  nodes (graph s) !! p = Some n ->
  update_node p f s = (Ok tt, with_nodes (<[p := f n]> (nodes (graph s))) s).
Proof.
  intros Hp. unfold update_node. rewrite (bind_Ok _ _ _ _ _ (deref_Some _ _ _ Hp)).
  assert (alter f p (nodes (graph s)) = <[p := f n]> (nodes (graph s))) as Heq.
  { apply list_eq. intros q. destruct (decide (p = q)) as [->|Hne].
    - rewrite list_lookup_alter_eq, list_lookup_insert_eq
        by (by eapply lookup_lt_Some).
      by rewrite Hp.
    - by rewrite list_lookup_alter_ne, list_lookup_insert_ne. }
  unfold modify, with_nodes, with_graph, set_nodes. cbv beta. by rewrite Heq.
Qed.

Lemma get_unconstrained_value_false p n s :
  nodes (graph s) !! p = Some n ->
  get_unconstrained_value p false s = (Ok (p, unconstrained_field n), s).
Proof.
  intros Hp. unfold get_unconstrained_value.
  rewrite (bind_Ok _ _ _ _ _ (deref_Some _ _ _ Hp)).
  unfold unconstrained_field. by destruct (transform_type n).
Qed.

Lemma read_ref_Some p f n s :
  nodes (graph s) !! p = Some n -> read_ref (p, f) s = (Ok (read_field f n), s).
Proof.
  intros Hp. unfold read_ref. simpl.
  by rewrite (bind_Ok _ _ _ _ _ (deref_Some _ _ _ Hp)).
Qed.

Lemma write_ref_Some p f v n s :
  nodes (graph s) !! p = Some n ->
  write_ref (p, f) v s =
  (Ok tt, with_nodes (<[p := write_field f v n]> (nodes (graph s))) s).
Proof. intros Hp. unfold write_ref. simpl. by apply update_node_Some. Qed.

Lemma get_original_value_true p n s :
  nodes (graph s) !! p = Some n ->
  get_original_value p true s =
  (Ok (p, in_value), with_nodes (<[p := sync_original n]> (nodes (graph s))) s).
Proof.
  intros Hp. unfold get_original_value.
  rewrite (bind_Ok _ _ _ _ _ (deref_Some _ _ _ Hp)).
  unfold sync_original. destruct (transform_type n) eqn:Ht.
  - unfold mret, St_mret, st_ret. f_equal. unfold with_nodes, with_graph.
    rewrite list_insert_id by done. by destruct s as [[]].
  - erewrite bind_Ok by (by apply update_node_Some). done.
Qed.




(** *** Flattening *)

Lemma length_flat_of v : length (flat_of v) = flat_length v.
Proof. unfold flat_of, flat_length, size. by case_decide. Qed.

Lemma values_of_cons_Some ns p ps n :
  ns !! p = Some n -> values_of ns (p :: ps) = unconstrained n :: values_of ns ps.
Proof. intros Hp. unfold values_of. simpl. by rewrite Hp. Qed.

Lemma flat_all_cons ns p ps n :
  ns !! p = Some n -> flat_all ns (p :: ps) = flat_of (unconstrained n) ++ flat_all ns ps.
Proof. intros Hp. unfold flat_all. by rewrite (values_of_cons_Some _ _ _ n). Qed.

Lemma flat_total_cons ns p ps n :
  ns !! p = Some n ->
  flat_total ns (p :: ps) = flat_length (unconstrained n) + flat_total ns ps.
Proof. intros Hp. unfold flat_total. by rewrite (values_of_cons_Some _ _ _ n). Qed.

Lemma length_flat_all ns ps : length (flat_all ns ps) = flat_total ns ps.
Proof.
  unfold flat_all, flat_total. induction (values_of ns ps) as [|v vs IH]; [done|].
  rewrite !fmap_cons. cbn [concat sum_list].
  by rewrite length_app, length_flat_of, IH.
Qed.

Lemma flatten_value_step_run p n v i s :
  nodes (graph s) !! p = Some n ->
  i + flat_length (unconstrained n) <= length v ->
  flatten_value_step (v, i) p s =
  (Ok (take i v ++ flat_of (unconstrained n) ++ drop (i + flat_length (unconstrained n)) v,
       i + flat_length (unconstrained n)), s).
Proof.
  intros Hp Hi. unfold flatten_value_step. cbn [fst snd].
  rewrite (bind_Ok _ _ _ _ _ (get_unconstrained_value_false _ _ _ Hp)).
  rewrite (bind_Ok _ _ _ _ _ (read_ref_Some _ _ _ _ Hp)).
  fold (unconstrained n). unfold flat_of, flat_length in *. revert Hi.
  destruct (decide (variable_type (type (unconstrained n)) = SCALAR)) as [Hs|Hs]; intros Hi.
  - unfold set_coeff. rewrite decide_True by lia. rewrite bind_run. unfold lift.
    cbv beta iota. unfold mret, St_mret, st_ret. simpl.
    rewrite insert_take_drop by lia. by replace (i + 1) with (S i) by lia.
  - unfold set_segment, size in *. rewrite decide_True by (split; [lia|done]).
    rewrite bind_run. unfold lift. cbv beta iota. done.
Qed.
Lemma splice_length (v w : list float) i k :
  length w = k -> i + k <= length v ->
  length (take i v ++ w ++ drop (i + k) v) = length v.
Proof. intros Hw Hi. rewrite !length_app, length_take, length_drop. lia. Qed.

Lemma splice_take (v w : list float) i k :
  length w = k -> i + k <= length v ->
  take (i + k) (take i v ++ w ++ drop (i + k) v) = take i v ++ w.
Proof.
  intros Hw Hi. rewrite app_assoc. apply take_app_length'.
  rewrite length_app, length_take. lia.
Qed.

Lemma splice_drop (v w : list float) i k j :
  length w = k -> i + k <= length v -> i + k <= j ->
  drop j (take i v ++ w ++ drop (i + k) v) = drop j v.
Proof.
  intros Hw Hi Hj. rewrite app_assoc, drop_app_ge
    by (rewrite length_app, length_take; lia).
  rewrite length_app, length_take, drop_drop. f_equal. lia.
Qed.

Lemma flatten_loop ps : forall v i s,
  (forall p, p ∈ ps -> p < length (nodes (graph s))) ->
  i + flat_total (nodes (graph s)) ps <= length v ->
  st_for flatten_value_step ps (v, i) s =
  (Ok (take i v ++ flat_all (nodes (graph s)) ps
         ++ drop (i + flat_total (nodes (graph s)) ps) v,
       i + flat_total (nodes (graph s)) ps), s).
Proof.
  induction ps as [|p ps IH]; intros v i s Hps Hi.
  - rewrite st_for_nil. unfold flat_all, flat_total. simpl.
    rewrite Nat.add_0_r, take_drop. done.
  - destruct (lookup_lt_is_Some_2 (nodes (graph s)) p) as [n Hn];
      [apply Hps; set_solver|].
    rewrite (flat_total_cons _ _ _ n Hn) in *.
    rewrite (flat_all_cons _ _ _ n Hn).
    rewrite st_for_cons.
    pose proof (length_flat_of (unconstrained n)) as Hlen.
    assert (i + flat_length (unconstrained n) <= length v) as Hin by lia.
    rewrite (bind_Ok _ _ _ _ _ (flatten_value_step_run _ _ _ _ _ Hn Hin)).
    rewrite IH; [|intros; apply Hps; set_solver|rewrite splice_length; [lia|done|lia]].
    rewrite splice_take by (done || lia).
    rewrite splice_drop by (done || lia).
    rewrite <- !app_assoc, !Nat.add_assoc. done.
Qed.

Lemma length_resize n v : length (resize n v) = n.
Proof. unfold resize. case_decide; [done|]. apply length_replicate. Qed.

Lemma get_flattened_run v s :
  (forall p, p ∈ stochastic_nodes s -> p < length (nodes (graph s))) ->
  flat_size s = flat_total (nodes (graph s)) (stochastic_nodes s) ->
  get_flattened_unconstrained_values v s = (Ok (flattened s), s).
Proof.
  intros Hps Hsize. unfold get_flattened_unconstrained_values.
  rewrite bind_run. unfold get_state. cbv beta iota zeta.
  assert (0 + flat_total (nodes (graph s)) (stochastic_nodes s)
          <= length (resize (flat_size s) v)) as Hin
    by (rewrite length_resize; lia).
  rewrite (bind_Ok _ _ _ _ _ (flatten_loop _ _ 0 s Hps Hin)).
  unfold mret, St_mret, st_ret. cbn [fst]. f_equal. f_equal.
  rewrite take_0, drop_ge by (rewrite length_resize; lia).
  by rewrite app_nil_r.
Qed.

(** *** Unflattening *)

Lemma nodes_with_nodes ns s : nodes (graph (with_nodes ns s)) = ns.
Proof. reflexivity. Qed.

Lemma with_nodes_with_nodes ns ns' s :
  with_nodes ns (with_nodes ns' s) = with_nodes ns s.
Proof. reflexivity. Qed.

Lemma transform_type_write_unconstrained v n :
  transform_type (write_unconstrained v n) = transform_type n.
Proof. unfold write_unconstrained. by destruct (unconstrained_field n). Qed.

Lemma unflatten_value_step_run fv p n i s :
  nodes (graph s) !! p = Some n ->
  i + flat_length (unconstrained n) <= length fv ->
  unflatten_value_step fv i p s =
  (Ok (i + flat_length (unconstrained n)),
   with_nodes (<[p := unflatten_node fv i n]> (nodes (graph s))) s).
Proof.
  intros Hp Hi. pose proof (lookup_lt_Some _ _ _ Hp) as Hlt.
  unfold unflatten_value_step.
  rewrite (bind_Ok _ _ _ _ _ (get_unconstrained_value_false _ _ _ Hp)).
  rewrite (bind_Ok _ _ _ _ _ (read_ref_Some _ _ _ _ Hp)).
  fold (unconstrained n).
  set (n1 := write_unconstrained (unflatten_value fv i (unconstrained n)) n).
  set (s1 := with_nodes (<[p := n1]> (nodes (graph s))) s).
  assert (nodes (graph s1) !! p = Some n1) as Hp1
    by (unfold s1; rewrite nodes_with_nodes; by apply list_lookup_insert_eq).
  assert ((if decide (variable_type (type (unconstrained n)) = SCALAR)
           then x ← lift (coeff fv i);
                write_ref (p, unconstrained_field n) (set_double x (unconstrained n));;
                mret (i + 1)
           else w ← lift (segment fv i (size (_matrix (unconstrained n))));
                write_ref (p, unconstrained_field n)
                  (set_matrix (assign_vector w) (unconstrained n));;
                v' ← read_ref (p, unconstrained_field n);
                mret (i + size (_matrix v'))) s
          = (Ok (i + flat_length (unconstrained n)), s1)) as Hwrite.
  { unfold s1, n1, unflatten_value, flat_length in *. revert Hi.
    destruct (decide (variable_type (type (unconstrained n)) = SCALAR)) as [Hs|Hs];
      intros Hi.
    - destruct (lookup_lt_is_Some_2 fv i) as [x Hx]; [lia|].
      unfold coeff. rewrite Hx. rewrite bind_run. unfold lift. cbv beta iota.
      rewrite (bind_Ok _ _ _ _ _ (write_ref_Some _ _ _ _ _ Hp)).
      rewrite (nth_lookup_Some _ _ _ _ Hx). done.
    - unfold segment. rewrite decide_True by done.
      rewrite bind_run. unfold lift. cbv beta iota.
      rewrite (bind_Ok _ _ _ _ _ (write_ref_Some _ _ _ _ _ Hp)).
      erewrite bind_Ok; last first.
      { apply read_ref_Some. rewrite nodes_with_nodes.
        by apply list_lookup_insert_eq. }
      unfold mret, St_mret, st_ret. f_equal. f_equal.
      unfold write_unconstrained, unconstrained_field.
      destruct (transform_type n); simpl; unfold size; simpl;
        rewrite length_take, length_drop; f_equal; unfold size in *; lia. }
  rewrite (bind_Ok _ _ _ _ _ Hwrite).
  rewrite (bind_Ok _ _ _ _ _ (deref_Some _ _ _ Hp1)).
  assert (transform_type n1 = transform_type n) as Ht
    by apply transform_type_write_unconstrained.
  unfold unflatten_node. fold n1.
  destruct (decide (transform_type n1 ≠ NONE)) as [Hne|Hnone].
  - rewrite bind_run.
    rewrite (bind_Ok _ _ _ _ _ (get_original_value_true _ _ _ Hp1)).
    unfold mret, St_mret, st_ret. cbv beta iota. f_equal.
    unfold s1. rewrite nodes_with_nodes, with_nodes_with_nodes.
    by rewrite list_insert_insert_eq.
  - apply dec_stable in Hnone. unfold sync_original. rewrite Hnone. done.
Qed.
Lemma with_nodes_id s : with_nodes (nodes (graph s)) s = s.
Proof. by destruct s as [[] ? ? ? ? ? ? ?]. Qed.

Lemma unconstrained_write_unconstrained v n :
  unconstrained (write_unconstrained v n) = v.
Proof.
  unfold unconstrained, write_unconstrained, unconstrained_field.
  destruct (transform_type n) eqn:Ht; simpl; by rewrite Ht.
Qed.

Lemma unconstrained_sync_original n :
  unconstrained (sync_original n) = unconstrained n.
Proof.
  unfold unconstrained, sync_original, unconstrained_field.
  destruct (transform_type n) eqn:Ht; simpl; by rewrite ?Ht.
Qed.

Lemma transform_type_sync_original n :
  transform_type (sync_original n) = transform_type n.
Proof. unfold sync_original. by destruct (transform_type n) eqn:Ht. Qed.

Lemma unconstrained_unflatten_node fv i n :
  unconstrained (unflatten_node fv i n) = unflatten_value fv i (unconstrained n).
Proof.
  unfold unflatten_node.
  by rewrite unconstrained_sync_original, unconstrained_write_unconstrained.
Qed.

Lemma flat_of_unflatten_value fv i v :
  i + flat_length v <= length fv ->
  flat_of (unflatten_value fv i v) = take (flat_length v) (drop i fv).
Proof.
  unfold flat_of, unflatten_value, flat_length.
  destruct (decide (variable_type (type v) = SCALAR)) as [Hs|Hs]; intros Hi; simpl.
  - rewrite decide_True by done.
    destruct (lookup_lt_is_Some_2 fv i) as [x Hx]; [lia|].
    rewrite (nth_lookup_Some _ _ _ _ Hx).
    rewrite (drop_S _ _ _ Hx). done.
  - by rewrite decide_False by done.
Qed.

Lemma flat_length_unflatten_value fv i v :
  i + flat_length v <= length fv ->
  flat_length (unflatten_value fv i v) = flat_length v.
Proof.
  intros Hi. rewrite <- !length_flat_of, flat_of_unflatten_value by done.
  rewrite length_take, length_drop, length_flat_of. lia.
Qed.

Lemma values_of_cons ns p ps :
  values_of ns (p :: ps) =
  match ns !! p with
  | Some n => unconstrained n :: values_of ns ps
  | None => values_of ns ps
  end.
Proof. unfold values_of. simpl. by destruct (ns !! p). Qed.

Lemma values_of_insert_same ns p n' ps :
  (forall n, ns !! p = Some n ->
     flat_length (unconstrained n') = flat_length (unconstrained n)) ->
  flat_length <$> values_of (<[p := n']> ns) ps = flat_length <$> values_of ns ps.
Proof.
  intros Hsame. induction ps as [|q ps IH]; [done|]. rewrite !values_of_cons.
  destruct (decide (p = q)) as [->|Hne].
  - destruct (ns !! q) as [n|] eqn:Hq.
    + rewrite list_lookup_insert_eq by (by eapply lookup_lt_Some).
      rewrite !fmap_cons, IH. f_equal. by apply Hsame.
    + rewrite list_insert_ge by (by apply lookup_ge_None). by rewrite Hq.
  - rewrite list_lookup_insert_ne by done.
    destruct (ns !! q); [|done]. by rewrite !fmap_cons, IH.
Qed.

Lemma flat_total_insert_same ns p n' ps :
  (forall n, ns !! p = Some n ->
     flat_length (unconstrained n') = flat_length (unconstrained n)) ->
  flat_total (<[p := n']> ns) ps = flat_total ns ps.
Proof. intros Hsame. unfold flat_total. by rewrite values_of_insert_same. Qed.

Lemma values_of_insert_notin ns p n' ps :
  p ∉ ps -> values_of (<[p := n']> ns) ps = values_of ns ps.
Proof.
  intros Hp. induction ps as [|q ps IH]; [done|].
  apply not_elem_of_cons in Hp as [Hne Hp]. rewrite !values_of_cons.
  by rewrite list_lookup_insert_ne, IH.
Qed.

Lemma unflatten_loop fv ps : forall i ns s,
  (forall p, p ∈ ps -> p < length ns) ->
  i + flat_total ns ps <= length fv ->
  st_for (unflatten_value_step fv) ps i (with_nodes ns s) =
  (Ok (i + flat_total ns ps), with_nodes (unflatten_nodes fv ps i ns) s).
Proof.
  induction ps as [|p ps IH]; intros i ns s Hps Hi.
  - rewrite st_for_nil. unfold flat_total. simpl. by rewrite Nat.add_0_r.
  - destruct (lookup_lt_is_Some_2 ns p) as [n Hn]; [apply Hps; set_solver|].
    rewrite (flat_total_cons _ _ _ n Hn) in *.
    assert (i + flat_length (unconstrained n) <= length fv) as Hin by lia.
    rewrite st_for_cons.
    rewrite (bind_Ok _ _ _ _ _
               (unflatten_value_step_run fv p n i (with_nodes ns s) Hn Hin)).
    rewrite nodes_with_nodes, with_nodes_with_nodes.
    assert (flat_total (<[p := unflatten_node fv i n]> ns) ps = flat_total ns ps)
      as Htotal.
    { apply flat_total_insert_same. intros n0 Hn0. simplify_eq.
      rewrite unconstrained_unflatten_node. by apply flat_length_unflatten_value. }
    rewrite IH.
    + rewrite Htotal. simpl. rewrite Hn. by rewrite Nat.add_assoc.
    + intros q Hq. rewrite length_insert. apply Hps. set_solver.
    + rewrite Htotal. lia.
Qed.

Lemma set_flattened_run fv s :
  (forall p, p ∈ stochastic_nodes s -> p < length (nodes (graph s))) ->
  flat_size s = flat_total (nodes (graph s)) (stochastic_nodes s) ->
  length fv = flat_size s ->
  set_flattened_unconstrained_values fv s =
  (Ok tt, with_nodes
            (unflatten_nodes fv (stochastic_nodes s) 0 (nodes (graph s))) s).
Proof.
  intros Hps Hsize Hlen. unfold set_flattened_unconstrained_values.
  rewrite bind_run. unfold get_state. cbv beta iota.
  rewrite decide_False by (intros Hne; by apply Hne).
  assert (0 + flat_total (nodes (graph s)) (stochastic_nodes s) <= length fv)
    as Hin by lia.
  pose proof (unflatten_loop fv _ 0 _ s Hps Hin) as Hrun.
  rewrite with_nodes_id in Hrun. by rewrite bind_run, Hrun.
Qed.

Lemma set_flattened_mismatch fv s :
  length fv ≠ flat_size s ->
  set_flattened_unconstrained_values fv s = (Throw size_mismatch_flattened, s).
Proof.
  intros Hlen. unfold set_flattened_unconstrained_values.
  rewrite bind_run. unfold get_state. cbv beta iota.
  by rewrite decide_True by done.
Qed.
Lemma length_unflatten_nodes fv ps : forall i ns,
  length (unflatten_nodes fv ps i ns) = length ns.
Proof.
  induction ps as [|p ps IH]; intros i ns; simpl; [done|].
  destruct (ns !! p); [|done]. by rewrite IH, length_insert.
Qed.

Lemma unflatten_nodes_notin fv ps q : forall i ns,
  q ∉ ps -> unflatten_nodes fv ps i ns !! q = ns !! q.
Proof.
  induction ps as [|p ps IH]; intros i ns Hq; simpl; [done|].
  apply not_elem_of_cons in Hq as [Hne Hq].
  destruct (ns !! p); [|done]. rewrite IH by done.
  by apply list_lookup_insert_ne.
Qed.

Lemma flat_total_unflatten_nodes fv ps qs : forall i ns,
  (forall p, p ∈ ps -> p < length ns) ->
  i + flat_total ns ps <= length fv ->
  flat_total (unflatten_nodes fv ps i ns) qs = flat_total ns qs.
Proof.
  induction ps as [|p ps IH]; intros i ns Hps Hi; simpl; [done|].
  destruct (ns !! p) as [n|] eqn:Hn; [|done].
  rewrite (flat_total_cons _ _ _ n Hn) in Hi.
  assert (forall qs', flat_total (<[p := unflatten_node fv i n]> ns) qs'
                      = flat_total ns qs') as Hsame.
  { intros qs'. apply flat_total_insert_same. intros n0 Hn0. simplify_eq.
    rewrite unconstrained_unflatten_node.
    apply flat_length_unflatten_value. lia. }
  rewrite IH.
  - apply Hsame.
  - intros q Hq. rewrite length_insert. apply Hps. set_solver.
  - rewrite Hsame. lia.
Qed.

(** Writing a vector and reading it back: the flattening of the nodes
    after the loop is the part of the vector the loop consumed. *)
Lemma flat_all_unflatten_nodes fv ps : forall i ns,
  NoDup ps ->
  (forall p, p ∈ ps -> p < length ns) ->
  i + flat_total ns ps <= length fv ->
  flat_all (unflatten_nodes fv ps i ns) ps = take (flat_total ns ps) (drop i fv).
Proof.
  induction ps as [|p ps IH]; intros i ns Hnd Hps Hi.
  - done.
  - apply NoDup_cons in Hnd as [Hp Hnd].
    destruct (lookup_lt_is_Some_2 ns p) as [n Hn]; [apply Hps; set_solver|].
    rewrite (flat_total_cons _ _ _ n Hn) in *.
    simpl. rewrite Hn.
    set (ns1 := <[p := unflatten_node fv i n]> ns).
    assert (flat_total ns1 ps = flat_total ns ps) as Htotal.
    { apply flat_total_insert_same. intros n0 Hn0. simplify_eq.
      rewrite unconstrained_unflatten_node.
      apply flat_length_unflatten_value. lia. }
    assert (forall q, q ∈ ps -> q < length ns1) as Hps1.
    { intros q Hq. unfold ns1. rewrite length_insert. apply Hps. set_solver. }
    erewrite flat_all_cons; last first.
    { rewrite unflatten_nodes_notin by done. unfold ns1.
      apply list_lookup_insert_eq. by eapply lookup_lt_Some. }
    rewrite IH by (done || lia).
    rewrite unconstrained_unflatten_node, flat_of_unflatten_value by lia.
    rewrite Htotal, <- take_take_drop, drop_drop. done.
Qed.

Lemma set_double_id v : set_double (_double v) v = v.
Proof. by destruct v. Qed.

Lemma unflatten_value_own pre post rest v :
  unflatten_value (pre ++ (flat_of v ++ rest) ++ post) (length pre) v = as_column v.
Proof.
  unfold unflatten_value, as_column, flat_of.
  destruct (decide (variable_type (type v) = SCALAR)) as [Hs|Hs].
  - rewrite app_nth2, Nat.sub_diag by lia. simpl. apply set_double_id.
  - rewrite drop_app_length, <- app_assoc. unfold size.
    by rewrite take_app_length.
Qed.

Lemma unflatten_nodes_own ps : forall ns pre post q,
  NoDup ps ->
  (forall p, p ∈ ps -> p < length ns) ->
  unflatten_nodes (pre ++ flat_all ns ps ++ post) ps (length pre) ns !! q =
  if decide (q ∈ ps) then round_trip_node <$> ns !! q else ns !! q.
Proof.
  induction ps as [|p ps IH]; intros ns pre post q Hnd Hps.
  - cbn [unflatten_nodes]. rewrite decide_False by set_solver. done.
  - apply NoDup_cons in Hnd as [Hp Hnd].
    destruct (lookup_lt_is_Some_2 ns p) as [n Hn]; [apply Hps; set_solver|].
    rewrite (flat_all_cons _ _ _ n Hn). cbn [unflatten_nodes]. rewrite Hn.
    assert (unflatten_node
              (pre ++ (flat_of (unconstrained n) ++ flat_all ns ps) ++ post)
              (length pre) n = round_trip_node n) as ->.
    { unfold unflatten_node, round_trip_node. by rewrite unflatten_value_own. }
    set (ns1 := <[p := round_trip_node n]> ns).
    assert (flat_all ns ps = flat_all ns1 ps) as Hflat.
    { unfold flat_all, ns1. by rewrite values_of_insert_notin. }
    replace (pre ++ (flat_of (unconstrained n) ++ flat_all ns ps) ++ post)
      with ((pre ++ flat_of (unconstrained n)) ++ flat_all ns1 ps ++ post)
      by (rewrite Hflat, <- !app_assoc; done).
    replace (length pre + flat_length (unconstrained n))
      with (length (pre ++ flat_of (unconstrained n)))
      by (by rewrite length_app, length_flat_of).
    rewrite IH; [|done|].
    2:{ intros p' Hp'. unfold ns1. rewrite length_insert. apply Hps. set_solver. }
    unfold ns1. destruct (decide (q = p)) as [->|Hne].
    + rewrite decide_False by done. rewrite decide_True by set_solver.
      rewrite list_lookup_insert_eq by (by eapply lookup_lt_Some).
      by rewrite Hn.
    + rewrite list_lookup_insert_ne by done.
      destruct (decide (q ∈ ps)).
      * by rewrite decide_True by set_solver.
      * by rewrite decide_False by set_solver.
Qed.

(** *** Backup and revert *)

Lemma values_of_lookup ns ps : forall k p n,
  ps !! k = Some p -> ns !! p = Some n ->
  (forall q, q ∈ ps -> q < length ns) ->
  values_of ns ps !! k = Some (unconstrained n).
Proof.
  induction ps as [|q ps IH]; intros k p n Hk Hp Hps; [done|].
  destruct (lookup_lt_is_Some_2 ns q) as [m Hm]; [apply Hps; set_solver|].
  rewrite values_of_cons, Hm. destruct k as [|k]; simpl in *.
  - by simplify_eq.
  - apply (IH k p n); [done|done|]. intros; apply Hps; set_solver.
Qed.

Lemma length_values_of ns ps :
  (forall q, q ∈ ps -> q < length ns) -> length (values_of ns ps) = length ps.
Proof.
  induction ps as [|q ps IH]; intros Hps; [done|].
  destruct (lookup_lt_is_Some_2 ns q) as [m Hm]; [apply Hps; set_solver|].
  rewrite values_of_cons, Hm. simpl. rewrite IH; [done|].
  intros; apply Hps; set_solver.
Qed.

Lemma at_index_Some {X : Type} (v : list X) i x s :
  v !! i = Some x -> at_index v i s = (Ok x, s).
Proof. intros Hx. unfold at_index, lift. by rewrite Hx. Qed.

Lemma backup_value_step_run i p n s :
  stochastic_nodes s !! i = Some p ->
  nodes (graph s) !! p = Some n ->
  i < length (stochastic_unconstrained_vals_backup s) ->
  backup_value_step tt i s =
  (Ok tt, with_vals_backup <[i := unconstrained n]> s).
Proof.
  intros Hi Hp Hlt. unfold backup_value_step.
  rewrite bind_run. unfold get_state. cbv beta iota.
  rewrite (bind_Ok _ _ _ _ _ (at_index_Some _ _ _ _ Hi)).
  rewrite (bind_Ok _ _ _ _ _ (get_unconstrained_value_false _ _ _ Hp)).
  rewrite (bind_Ok _ _ _ _ _ (read_ref_Some _ _ _ _ Hp)).
  unfold assign_vals_backup. rewrite bind_run. unfold get_state. cbv beta iota.
  by rewrite decide_True by done.
Qed.

Lemma backup_values_loop m : forall i s,
  i + m = length (stochastic_nodes s) ->
  (forall p, p ∈ stochastic_nodes s -> p < length (nodes (graph s))) ->
  length (stochastic_unconstrained_vals_backup s) = length (stochastic_nodes s) ->
  st_for backup_value_step (seq i m) tt s =
  (Ok tt, with_vals_backup (fun b => take i b ++ drop i (stochastic_values s)) s).
Proof.
  induction m as [|m IH]; intros i s Hm Hps Hlen.
  - cbn [seq]. rewrite st_for_nil. f_equal.
    pose proof (length_values_of _ _ Hps) as Hvals.
    unfold with_vals_backup, stochastic_values.
    rewrite take_ge, drop_ge, app_nil_r by lia.
    by destruct s.
  - destruct (lookup_lt_is_Some_2 (stochastic_nodes s) i) as [p Hp]; [lia|].
    destruct (lookup_lt_is_Some_2 (nodes (graph s)) p) as [n Hn].
    { apply Hps. by eapply list_elem_of_lookup_2. }
    cbn [seq]. rewrite st_for_cons.
    rewrite (bind_Ok _ _ _ _ _ (backup_value_step_run _ _ _ _ Hp Hn ltac:(lia))).
    rewrite IH; [|simpl; lia|done|simpl; rewrite length_insert; lia].
    unfold with_vals_backup, stochastic_values. simpl. do 2 f_equal.
    pose proof (values_of_lookup _ _ _ _ _ Hp Hn Hps) as Hv.
    rewrite (drop_S _ _ _ Hv).
    rewrite (take_S_r _ _ (unconstrained n))
      by (apply list_lookup_insert_eq; lia).
    rewrite take_insert_ge by lia. by rewrite <- app_assoc.
Qed.

Lemma backup_unconstrained_values_run s :
  (forall p, p ∈ stochastic_nodes s -> p < length (nodes (graph s))) ->
  length (stochastic_unconstrained_vals_backup s) = length (stochastic_nodes s) ->
  backup_unconstrained_values s =
  (Ok tt, with_vals_backup (fun _ => stochastic_values s) s).
Proof.
  intros Hps Hlen. unfold backup_unconstrained_values.
  rewrite bind_run. unfold get_state. cbv beta iota.
  by rewrite backup_values_loop.
Qed.
Lemma grads_of_cons ns p ps :
  grads_of ns (p :: ps) =
  match ns !! p with
  | Some n => back_grad1 n :: grads_of ns ps
  | None => grads_of ns ps
  end.
Proof. unfold grads_of. simpl. by destruct (ns !! p). Qed.

Lemma grads_of_lookup ns ps : forall k p n,
  ps !! k = Some p -> ns !! p = Some n ->
  (forall q, q ∈ ps -> q < length ns) ->
  grads_of ns ps !! k = Some (back_grad1 n).
Proof.
  induction ps as [|q ps IH]; intros k p n Hk Hp Hps; [done|].
  destruct (lookup_lt_is_Some_2 ns q) as [m Hm]; [apply Hps; set_solver|].
  rewrite grads_of_cons, Hm. destruct k as [|k]; simpl in *.
  - by simplify_eq.
  - apply (IH k p n); [done|done|]. intros; apply Hps; set_solver.
Qed.

Lemma length_grads_of ns ps :
  (forall q, q ∈ ps -> q < length ns) -> length (grads_of ns ps) = length ps.
Proof.
  induction ps as [|q ps IH]; intros Hps; [done|].
  destruct (lookup_lt_is_Some_2 ns q) as [m Hm]; [apply Hps; set_solver|].
  rewrite grads_of_cons, Hm. simpl. rewrite IH; [done|].
  intros; apply Hps; set_solver.
Qed.

Lemma backup_grad_step_run i p n s :
  stochastic_nodes s !! i = Some p ->
  nodes (graph s) !! p = Some n ->
  i < length (stochastic_unconstrained_grads_backup s) ->
  backup_grad_step tt i s =
  (Ok tt, with_grads_backup <[i := back_grad1 n]> s).
Proof.
  intros Hi Hp Hlt. unfold backup_grad_step.
  rewrite bind_run. unfold get_state. cbv beta iota.
  rewrite (bind_Ok _ _ _ _ _ (at_index_Some _ _ _ _ Hi)).
  rewrite (bind_Ok _ _ _ _ _ (deref_Some _ _ _ Hp)).
  unfold assign_grads_backup. rewrite bind_run. unfold get_state. cbv beta iota.
  by rewrite decide_True by done.
Qed.

Lemma backup_grads_loop m : forall i s,
  i + m = length (stochastic_nodes s) ->
  (forall p, p ∈ stochastic_nodes s -> p < length (nodes (graph s))) ->
  length (stochastic_unconstrained_grads_backup s) = length (stochastic_nodes s) ->
  st_for backup_grad_step (seq i m) tt s =
  (Ok tt, with_grads_backup (fun b => take i b ++ drop i (stochastic_grads s)) s).
Proof.
  induction m as [|m IH]; intros i s Hm Hps Hlen.
  - cbn [seq]. rewrite st_for_nil. f_equal.
    pose proof (length_grads_of _ _ Hps) as Hvals.
    unfold with_grads_backup, stochastic_grads.
    rewrite take_ge, drop_ge, app_nil_r by lia.
    by destruct s.
  - destruct (lookup_lt_is_Some_2 (stochastic_nodes s) i) as [p Hp]; [lia|].
    destruct (lookup_lt_is_Some_2 (nodes (graph s)) p) as [n Hn].
    { apply Hps. by eapply list_elem_of_lookup_2. }
    cbn [seq]. rewrite st_for_cons.
    rewrite (bind_Ok _ _ _ _ _ (backup_grad_step_run _ _ _ _ Hp Hn ltac:(lia))).
    rewrite IH; [|simpl; lia|done|simpl; rewrite length_insert; lia].
    unfold with_grads_backup, stochastic_grads. simpl. do 2 f_equal.
    pose proof (grads_of_lookup _ _ _ _ _ Hp Hn Hps) as Hv.
    rewrite (drop_S _ _ _ Hv).
    rewrite (take_S_r _ _ (back_grad1 n))
      by (apply list_lookup_insert_eq; lia).
    rewrite take_insert_ge by lia. by rewrite <- app_assoc.
Qed.

Lemma backup_unconstrained_grads_run s :
  (forall p, p ∈ stochastic_nodes s -> p < length (nodes (graph s))) ->
  length (stochastic_unconstrained_grads_backup s) = length (stochastic_nodes s) ->
  backup_unconstrained_grads s =
  (Ok tt, with_grads_backup (fun _ => stochastic_grads s) s).
Proof.
  intros Hps Hlen. unfold backup_unconstrained_grads.
  rewrite bind_run. unfold get_state. cbv beta iota.
  by rewrite backup_grads_loop.
Qed.

Lemma alter_insert_Some (ns : list Node) p n f :
  ns !! p = Some n -> alter f p ns = <[p := f n]> ns.
Proof.
  intros Hp. apply list_eq. intros q. destruct (decide (p = q)) as [->|Hne].
  - rewrite list_lookup_alter_eq, list_lookup_insert_eq
      by (by eapply lookup_lt_Some).
    by rewrite Hp.
  - by rewrite list_lookup_alter_ne, list_lookup_insert_ne.
Qed.

Lemma revert_value_step_run i p n b s :
  stochastic_nodes s !! i = Some p ->
  nodes (graph s) !! p = Some n ->
  stochastic_unconstrained_vals_backup s !! i = Some b ->
  revert_value_step tt i s =
  (Ok tt, with_nodes (alter (revert_node b) p (nodes (graph s))) s).
Proof.
  intros Hi Hp Hb. unfold revert_value_step.
  rewrite bind_run. unfold get_state. cbv beta iota.
  rewrite (bind_Ok _ _ _ _ _ (at_index_Some _ _ _ _ Hi)).
  rewrite (bind_Ok _ _ _ _ _ (get_unconstrained_value_false _ _ _ Hp)).
  rewrite (bind_Ok _ _ _ _ _ (at_index_Some _ _ _ _ Hb)).
  rewrite (bind_Ok _ _ _ _ _ (write_ref_Some _ _ _ _ _ Hp)).
  erewrite bind_Ok; last first.
  { apply get_original_value_true. rewrite nodes_with_nodes.
    apply list_lookup_insert_eq. by eapply lookup_lt_Some. }
  rewrite nodes_with_nodes, with_nodes_with_nodes, list_insert_insert_eq.
  rewrite (alter_insert_Some _ _ _ _ Hp). done.
Qed.

Lemma revert_values_loop m : forall i ns s,
  i + m = length (stochastic_nodes s) ->
  (forall p, p ∈ stochastic_nodes s -> p < length ns) ->
  length (stochastic_unconstrained_vals_backup s) = length (stochastic_nodes s) ->
  st_for revert_value_step (seq i m) tt (with_nodes ns s) =
  (Ok tt, with_nodes
            (revert_nodes (drop i (stochastic_nodes s))
               (drop i (stochastic_unconstrained_vals_backup s)) ns) s).
Proof.
  induction m as [|m IH]; intros i ns s Hm Hps Hlen.
  - cbn [seq]. rewrite st_for_nil. by rewrite drop_ge by lia.
  - destruct (lookup_lt_is_Some_2 (stochastic_nodes s) i) as [p Hp]; [lia|].
    destruct (lookup_lt_is_Some_2 (stochastic_unconstrained_vals_backup s) i)
      as [b Hb]; [lia|].
    destruct (lookup_lt_is_Some_2 ns p) as [n Hn].
    { apply Hps. by eapply list_elem_of_lookup_2. }
    cbn [seq]. rewrite st_for_cons.
    rewrite (bind_Ok _ _ _ _ _
               (revert_value_step_run i p n b (with_nodes ns s) Hp Hn Hb)).
    rewrite nodes_with_nodes, with_nodes_with_nodes.
    rewrite IH; [|lia|intros; rewrite length_alter; by apply Hps|done].
    by rewrite (drop_S _ _ _ Hp), (drop_S _ _ _ Hb).
Qed.

Lemma revert_unconstrained_values_run s :
  (forall p, p ∈ stochastic_nodes s -> p < length (nodes (graph s))) ->
  length (stochastic_unconstrained_vals_backup s) = length (stochastic_nodes s) ->
  revert_unconstrained_values s =
  (Ok tt, with_nodes
            (revert_nodes (stochastic_nodes s)
               (stochastic_unconstrained_vals_backup s) (nodes (graph s))) s).
Proof.
  intros Hps Hlen. unfold revert_unconstrained_values.
  rewrite bind_run. unfold get_state. cbv beta iota.
  pose proof (revert_values_loop (length (stochastic_nodes s)) 0 _ s
                eq_refl Hps Hlen) as Hrun.
  rewrite with_nodes_id in Hrun. by rewrite Hrun.
Qed.

Lemma revert_nodes_lookup ps : forall bs ns k p b,
  NoDup ps -> ps !! k = Some p -> bs !! k = Some b ->
  revert_nodes ps bs ns !! p = revert_node b <$> ns !! p.
Proof.
  assert (forall ps bs ns q, q ∉ ps -> revert_nodes ps bs ns !! q = ns !! q)
    as Hnotin.
  { clear. intros ps. induction ps as [|p ps IH]; intros bs ns q Hq; [done|].
    apply not_elem_of_cons in Hq as [Hne Hq]. destruct bs as [|b bs]; [done|].
    simpl. rewrite IH by done. by apply list_lookup_alter_ne. }
  induction ps as [|q ps IH]; intros bs ns k p b Hnd Hk Hb; [done|].
  apply NoDup_cons in Hnd as [Hq Hnd].
  destruct bs as [|b0 bs]; [done|]. destruct k as [|k]; simpl in *.
  - simplify_eq. rewrite Hnotin by done. apply list_lookup_alter_eq.
  - rewrite (IH bs _ k p b) by done.
    rewrite list_lookup_alter_ne; [done|].
    intros ->. apply Hq. by eapply list_elem_of_lookup_2.
Qed.

Lemma revert_grad_step_run i p n d s :
  stochastic_nodes s !! i = Some p ->
  nodes (graph s) !! p = Some n ->
  stochastic_unconstrained_grads_backup s !! i = Some d ->
  revert_grad_step tt i s =
  (Ok tt, with_nodes (alter (set_back_grad1 d) p (nodes (graph s))) s).
Proof.
  intros Hi Hp Hd. unfold revert_grad_step.
  rewrite bind_run. unfold get_state. cbv beta iota.
  rewrite (bind_Ok _ _ _ _ _ (at_index_Some _ _ _ _ Hi)).
  rewrite (bind_Ok _ _ _ _ _ (at_index_Some _ _ _ _ Hd)).
  rewrite (update_node_Some _ _ _ _ Hp).
  by rewrite (alter_insert_Some _ _ _ _ Hp).
Qed.

Lemma revert_grads_loop m : forall i ns s,
  i + m = length (stochastic_nodes s) ->
  (forall p, p ∈ stochastic_nodes s -> p < length ns) ->
  length (stochastic_unconstrained_grads_backup s) = length (stochastic_nodes s) ->
  st_for revert_grad_step (seq i m) tt (with_nodes ns s) =
  (Ok tt, with_nodes
            (revert_grads (drop i (stochastic_nodes s))
               (drop i (stochastic_unconstrained_grads_backup s)) ns) s).
Proof.
  induction m as [|m IH]; intros i ns s Hm Hps Hlen.
  - cbn [seq]. rewrite st_for_nil. by rewrite drop_ge by lia.
  - destruct (lookup_lt_is_Some_2 (stochastic_nodes s) i) as [p Hp]; [lia|].
    destruct (lookup_lt_is_Some_2 (stochastic_unconstrained_grads_backup s) i)
      as [d Hd]; [lia|].
    destruct (lookup_lt_is_Some_2 ns p) as [n Hn].
    { apply Hps. by eapply list_elem_of_lookup_2. }
    cbn [seq]. rewrite st_for_cons.
    rewrite (bind_Ok _ _ _ _ _
               (revert_grad_step_run i p n d (with_nodes ns s) Hp Hn Hd)).
    rewrite nodes_with_nodes, with_nodes_with_nodes.
    rewrite IH; [|lia|intros; rewrite length_alter; by apply Hps|done].
    by rewrite (drop_S _ _ _ Hp), (drop_S _ _ _ Hd).
Qed.

Lemma revert_unconstrained_grads_run s :
  (forall p, p ∈ stochastic_nodes s -> p < length (nodes (graph s))) ->
  length (stochastic_unconstrained_grads_backup s) = length (stochastic_nodes s) ->
  revert_unconstrained_grads s =
  (Ok tt, with_nodes
            (revert_grads (stochastic_nodes s)
               (stochastic_unconstrained_grads_backup s) (nodes (graph s))) s).
Proof.
  intros Hps Hlen. unfold revert_unconstrained_grads.
  rewrite bind_run. unfold get_state. cbv beta iota.
  pose proof (revert_grads_loop (length (stochastic_nodes s)) 0 _ s
                eq_refl Hps Hlen) as Hrun.
  rewrite with_nodes_id in Hrun. by rewrite Hrun.
Qed.

Lemma revert_grads_lookup ps : forall ds ns k p d,
  NoDup ps -> ps !! k = Some p -> ds !! k = Some d ->
  revert_grads ps ds ns !! p = set_back_grad1 d <$> ns !! p.
Proof.
  assert (forall ps ds ns q, q ∉ ps -> revert_grads ps ds ns !! q = ns !! q)
    as Hnotin.
  { clear. intros ps. induction ps as [|p ps IH]; intros ds ns q Hq; [done|].
    apply not_elem_of_cons in Hq as [Hne Hq]. destruct ds as [|d ds]; [done|].
    simpl. rewrite IH by done. by apply list_lookup_alter_ne. }
  induction ps as [|q ps IH]; intros ds ns k p d Hnd Hk Hd; [done|].
  apply NoDup_cons in Hnd as [Hq Hnd].
  destruct ds as [|d0 ds]; [done|]. destruct k as [|k]; simpl in *.
  - simplify_eq. rewrite Hnotin by done. apply list_lookup_alter_eq.
  - rewrite (IH ds _ k p d) by done.
    rewrite list_lookup_alter_ne; [done|].
    intros ->. apply Hq. by eapply list_elem_of_lookup_2.
Qed.

(** *** The methods on a consistent state *)

Lemma consistent_unflatten fv s :
  consistent s -> length fv = flat_size s ->
  consistent
    (with_nodes (unflatten_nodes fv (stochastic_nodes s) 0 (nodes (graph s))) s).
Proof.
  intros ([Hnd Hps] & Hal & Hsize) Hlen. repeat split; simpl; try done.
  - intros p Hp. rewrite length_unflatten_nodes. by apply Hps.
  - apply Hal.
  - apply Hal.
  - rewrite flat_total_unflatten_nodes; [done|done|lia].
Qed.

Lemma flattened_unflatten fv s :
  consistent s -> length fv = flat_size s ->
  flattened
    (with_nodes (unflatten_nodes fv (stochastic_nodes s) 0 (nodes (graph s))) s)
  = fv.
Proof.
  intros ([Hnd Hps] & Hal & Hsize) Hlen. unfold flattened. simpl.
  rewrite flat_all_unflatten_nodes by (done || lia).
  rewrite drop_0, take_ge; [done|lia].
Qed.

Lemma length_flattened s : length (flattened s) = flat_total (nodes (graph s)) (stochastic_nodes s).
Proof. apply length_flat_all. Qed.

(** What a successful increment does. *)
Lemma add_to_stochastic_unconstrained_nodes_run increment s :
  consistent s -> length increment = flat_size s ->
  exists s',
    add_to_stochastic_unconstrained_nodes increment s = (Ok tt, s') /\
    consistent s' /\ flat_size s' = flat_size s /\
    flattened s' = zip_with PrimFloat.add (flattened s) increment.
Proof.
  intros Hs Hlen. pose proof Hs as ([Hnd Hps] & Hal & Hsize).
  assert (length (flattened s) = length increment) as Hsame
    by (rewrite length_flattened; lia).
  set (sum := zip_with PrimFloat.add (flattened s) increment).
  assert (length sum = flat_size s) as Hsum.
  { unfold sum. rewrite length_zip_with. lia. }
  exists (with_nodes (unflatten_nodes sum (stochastic_nodes s) 0 (nodes (graph s))) s).
  split; [|split; [by apply consistent_unflatten|split; [done|by apply flattened_unflatten]]].
  unfold add_to_stochastic_unconstrained_nodes.
  rewrite bind_run. unfold get_state. cbv beta iota.
  rewrite decide_False by (intros Hne; by apply Hne).
  rewrite (bind_Ok _ _ _ _ _ (get_flattened_run [] s Hps Hsize)).
  unfold vector_add. rewrite decide_True by done.
  rewrite bind_run. unfold lift. cbv beta iota. fold sum.
  by apply set_flattened_run.
Qed.

Lemma add_to_stochastic_unconstrained_nodes_mismatch increment s :
  length increment ≠ flat_size s ->
  add_to_stochastic_unconstrained_nodes increment s =
  (Throw size_mismatch_increment, s).
Proof.
  intros Hlen. unfold add_to_stochastic_unconstrained_nodes.
  rewrite bind_run. unfold get_state. cbv beta iota.
  by rewrite decide_True by done.
Qed.

(** The round trip through the flattened vector: every stochastic node
    keeps its scalar and the coefficients of its matrix; a matrix comes
    back as a single column. *)
Lemma flatten_round_trip_columns s v :
  consistent s ->
  exists s',
    get_flattened_unconstrained_values v s = (Ok (flattened s), s) /\
    set_flattened_unconstrained_values (flattened s) s = (Ok tt, s') /\
    forall p n, p ∈ stochastic_nodes s -> nodes (graph s) !! p = Some n ->
      exists n', nodes (graph s') !! p = Some n' /\
                 unconstrained n' = as_column (unconstrained n).
Proof.
  intros ([Hnd Hps] & Hal & Hsize).
  eexists. split; [by apply get_flattened_run|]. split.
  - apply set_flattened_run; [done|done|]. rewrite length_flattened. lia.
  - intros p n Hp Hn. exists (round_trip_node n). simpl.
    pose proof (unflatten_nodes_own (stochastic_nodes s) (nodes (graph s)) [] [] p
                  Hnd Hps) as Hown.
    rewrite app_nil_r in Hown. simpl in Hown.
    fold (flattened s) in Hown. rewrite Hown, decide_True, Hn by done.
    split; [done|]. unfold round_trip_node.
    by rewrite unconstrained_sync_original, unconstrained_write_unconstrained.
Qed.

Lemma as_column_id v :
  variable_type (type v) = SCALAR \/
  (m_rows (_matrix v) = size (_matrix v) /\ m_cols (_matrix v) = 1) ->
  as_column v = v.
Proof.
  unfold as_column. intros [Hs|[Hr Hc]].
  - by rewrite decide_True.
  - case_decide; [done|]. destruct v as [t d [r c cs]].
    unfold set_matrix, assign_vector, size in *. simpl in *. by subst.
Qed.

(** *** The constructor *)

Lemma same_kind_refl n : same_kind n n.
Proof. by repeat split. Qed.

Lemma same_kind_trans n1 n2 n3 :
  same_kind n1 n2 -> same_kind n2 n3 -> same_kind n1 n3.
Proof. unfold same_kind. intros (?&?&?&?&?) (?&?&?&?&?). repeat split; congruence. Qed.

Lemma same_kind_all_refl ns : Forall2 same_kind ns ns.
Proof. apply Forall2_same_length_lookup_2; [done|]. intros i n n' ? ?. simplify_eq. apply same_kind_refl. Qed.

Lemma same_kind_all_trans ns1 ns2 ns3 :
  Forall2 same_kind ns1 ns2 -> Forall2 same_kind ns2 ns3 ->
  Forall2 same_kind ns1 ns3.
Proof.
  intros H12 H23. revert ns3 H23.
  induction H12 as [|n1 n2 ns1 ns2 Hn H12 IH]; intros ns3 H23.
  - by inversion H23.
  - inversion H23 as [|? n3 ? ns3' Hn' H23']; subst. constructor.
    + by eapply same_kind_trans.
    + by apply IH.
Qed.

Lemma same_kind_insert ns p n n' :
  ns !! p = Some n -> same_kind n n' -> Forall2 same_kind ns (<[p := n']> ns).
Proof.
  intros Hp Hk. apply Forall2_same_length_lookup_2; [by rewrite length_insert|].
  intros i m m' Hm Hm'. destruct (decide (p = i)) as [->|Hne].
  - rewrite list_lookup_insert_eq in Hm' by (by eapply lookup_lt_Some).
    by simplify_eq.
  - rewrite list_lookup_insert_ne in Hm' by done. simplify_eq.
    apply same_kind_refl.
Qed.

Lemma push_support_step_run p n s :
  nodes (graph s) !! p = Some n ->
  push_support_step tt p s =
  (Ok tt, with_ordered_support (fun l => l ++ [p]) s).
Proof.
  intros Hn. unfold push_support_step.
  rewrite bind_run. unfold get_state. cbv beta iota.
  by rewrite (bind_Ok _ _ _ _ _ (at_index_Some _ _ _ _ Hn)).
Qed.

Lemma push_support_loop l : forall s,
  (forall p, p ∈ l -> p < length (nodes (graph s))) ->
  st_for push_support_step l tt s =
  (Ok tt, with_ordered_support (fun o => o ++ l) s).
Proof.
  induction l as [|p l IH]; intros s Hl.
  - rewrite st_for_nil. unfold with_ordered_support. rewrite app_nil_r.
    by destruct s.
  - destruct (lookup_lt_is_Some_2 (nodes (graph s)) p) as [n Hn];
      [apply Hl; set_solver|].
    rewrite st_for_cons, (bind_Ok _ _ _ _ _ (push_support_step_run _ _ _ Hn)).
    rewrite IH by (intros; apply Hl; set_solver).
    unfold with_ordered_support. simpl. by rewrite <- app_assoc.
Qed.

Lemma initialize_step_run gen p n ns s :
  ns !! p = Some n ->
  exists gen' n',
    initialize_step gen p (with_nodes ns s) =
    (Ok gen', with_nodes (<[p := n']> ns) s) /\ same_kind n n'.
Proof.
  intros Hn. pose proof (lookup_lt_Some _ _ _ Hn) as Hlt.
  unfold initialize_step.
  rewrite (bind_Ok _ _ _ _ _ (deref_Some p n (with_nodes ns s) Hn)).
  assert (exists gen' n1,
    (if negb (is_observed n) then eval p gen else mret gen) (with_nodes ns s)
    = (Ok gen', with_nodes (<[p := n1]> ns) s) /\ same_kind n n1)
    as (gen' & n1 & Heval & Hk1).
  { destruct (is_observed n); simpl.
    - exists gen, n. split; [|apply same_kind_refl].
      unfold mret, St_mret, st_ret. by rewrite list_insert_id.
    - eexists _, _. split; [|shelve]. unfold eval.
      rewrite bind_run. unfold get_state. cbv beta iota zeta.
      erewrite bind_Ok by (by apply update_node_Some). done.
      Unshelve. by repeat split. }
  rewrite (bind_Ok _ _ _ _ _ Heval).
  assert (<[p := n1]> ns !! p = Some n1) as Hn1 by (by apply list_lookup_insert_eq).
  destruct (is_stochastic n && bool_decide (node_type n = OPERATOR)).
  - unfold get_unconstrained_value. rewrite !bind_run.
    rewrite (deref_Some p n1) by done. cbv beta iota.
    destruct (transform_type n1) eqn:Ht.
    + exists gen', n1. split; [done|done].
    + rewrite bind_run. erewrite update_node_Some by done.
      rewrite nodes_with_nodes, with_nodes_with_nodes, list_insert_insert_eq.
      eexists _, _. split; [done|].
      eapply same_kind_trans; [done|]. by repeat split.
  - exists gen', n1. split; [done|done].
Qed.

Lemma initialize_loop l : forall gen ns s,
  (forall p, p ∈ l -> p < length ns) ->
  exists gen' ns',
    st_for initialize_step l gen (with_nodes ns s) = (Ok gen', with_nodes ns' s) /\
    Forall2 same_kind ns ns'.
Proof.
  induction l as [|p l IH]; intros gen ns s Hl.
  - exists gen, ns. split; [done|apply same_kind_all_refl].
  - destruct (lookup_lt_is_Some_2 ns p) as [n Hn]; [apply Hl; set_solver|].
    destruct (initialize_step_run gen p n ns s Hn) as (gen1 & n1 & Hstep & Hk).
    destruct (IH gen1 (<[p := n1]> ns) s) as (gen' & ns' & Hrun & Hks).
    { intros q Hq. rewrite length_insert. apply Hl. set_solver. }
    exists gen', ns'. split.
    + rewrite st_for_cons. by rewrite (bind_Ok _ _ _ _ _ Hstep).
    + eapply same_kind_all_trans; [|done]. by eapply same_kind_insert.
Qed.

Lemma update_backgrad_run s :
  exists ns',
    update_backgrad s = (Ok tt, with_nodes ns' s) /\
    Forall2 same_kind (nodes (graph s)) ns'.
Proof.
  exists (imap (fun p n =>
            set_back_grad1
              (Graph_update_backgrad (nodes (graph s)) (ordered_support s) p) n)
            (nodes (graph s))).
  split; [reflexivity|].
  apply Forall2_same_length_lookup_2; [by rewrite length_imap|].
  intros i n n' Hn Hn'. rewrite list_lookup_imap, Hn in Hn'. simpl in Hn'.
  simplify_eq. by repeat split.
Qed.
Lemma save_node_step_run p n s :
  nodes (graph s) !! p = Some n ->
  save_node_step tt p s = (Ok tt, save_nodes_result [p] s).
Proof.
  intros Hn. unfold save_node_step, save_nodes_result.
  rewrite (bind_Ok _ _ _ _ _ (deref_Some _ _ _ Hn)).
  cbv zeta. rewrite !filter_cons, !filter_nil.
  unfold unobserved_stochastic, deterministic. rewrite Hn.
  destruct (is_stochastic n) eqn:Hsto; destruct (is_observed n) eqn:Hobs; simpl.
  - unfold mret, St_mret, st_ret. rewrite !app_nil_r. by destruct s.
  - rewrite bind_run. unfold modify at 1. cbv beta iota.
    erewrite bind_Ok; last first.
    { by apply get_unconstrained_value_false. }
    erewrite bind_Ok; last first.
    { by apply read_ref_Some. }
    rewrite bind_run. unfold modify at 1. cbv beta iota.
    erewrite bind_Ok; last first.
    { by apply deref_Some. }
    unfold modify. fold (unconstrained n).
    rewrite Hn. simpl. rewrite !app_nil_r. done.
  - unfold modify. rewrite !app_nil_r. by destruct s.
  - unfold modify. rewrite !app_nil_r. by destruct s.
Qed.

Lemma values_of_app ns ps qs :
  values_of ns (ps ++ qs) = values_of ns ps ++ values_of ns qs.
Proof.
  induction ps as [|p ps IH]; [done|]. rewrite <- app_comm_cons, !values_of_cons.
  destruct (ns !! p); [|done]. by rewrite IH.
Qed.

Lemma grads_of_app ns ps qs :
  grads_of ns (ps ++ qs) = grads_of ns ps ++ grads_of ns qs.
Proof.
  induction ps as [|p ps IH]; [done|]. rewrite <- app_comm_cons, !grads_of_cons.
  destruct (ns !! p); [|done]. by rewrite IH.
Qed.

Lemma save_nodes_result_app l k s :
  save_nodes_result k (save_nodes_result l s) = save_nodes_result (l ++ k) s.
Proof.
  unfold save_nodes_result. simpl.
  by rewrite !filter_app, values_of_app, grads_of_app, <- !app_assoc.
Qed.

Lemma save_nodes_loop l : forall s,
  (forall p, p ∈ l -> p < length (nodes (graph s))) ->
  st_for save_node_step l tt s = (Ok tt, save_nodes_result l s).
Proof.
  induction l as [|p l IH]; intros s Hl.
  - rewrite st_for_nil. unfold save_nodes_result. simpl.
    rewrite !app_nil_r. by destruct s.
  - destruct (lookup_lt_is_Some_2 (nodes (graph s)) p) as [n Hn];
      [apply Hl; set_solver|].
    rewrite st_for_cons, (bind_Ok _ _ _ _ _ (save_node_step_run _ _ _ Hn)).
    rewrite IH by (intros; apply Hl; set_solver).
    by rewrite save_nodes_result_app.
Qed.

Lemma flat_size_step_run p n s :
  nodes (graph s) !! p = Some n ->
  flat_size_step tt p s =
  (Ok tt, with_flat_size (fun k => k + flat_length (unconstrained n)) s).
Proof.
  intros Hn. unfold flat_size_step.
  rewrite (bind_Ok _ _ _ _ _ (get_unconstrained_value_false _ _ _ Hn)).
  rewrite (bind_Ok _ _ _ _ _ (read_ref_Some _ _ _ _ Hn)).
  fold (unconstrained n). unfold flat_length. by case_decide.
Qed.

Lemma flat_size_loop l : forall s,
  (forall p, p ∈ l -> p < length (nodes (graph s))) ->
  st_for flat_size_step l tt s =
  (Ok tt, with_flat_size (fun k => k + flat_total (nodes (graph s)) l) s).
Proof.
  induction l as [|p l IH]; intros s Hl.
  - rewrite st_for_nil. unfold with_flat_size, flat_total. simpl.
    rewrite Nat.add_0_r. by destruct s.
  - destruct (lookup_lt_is_Some_2 (nodes (graph s)) p) as [n Hn];
      [apply Hl; set_solver|].
    rewrite st_for_cons, (bind_Ok _ _ _ _ _ (flat_size_step_run _ _ _ Hn)).
    rewrite IH by (intros; apply Hl; set_solver).
    rewrite (flat_total_cons _ _ _ n) by done.
    unfold with_flat_size. simpl. by rewrite Nat.add_assoc.
Qed.
Lemma elem_of_ascending (S : gset nat) p : p ∈ ascending S <-> p ∈ S.
Proof. unfold ascending. by rewrite merge_sort_Permutation, elem_of_elements. Qed.

Lemma same_kind_length ns ns' : Forall2 same_kind ns ns' -> length ns' = length ns.
Proof. intros Hk. symmetry. by eapply Forall2_length. Qed.

Lemma GlobalState_new_run g seed :
  (forall p, p ∈ compute_support g -> p < length (nodes g)) ->
  exists s,
    GlobalState_new g seed = (Ok tt, s) /\
    ordered_support s = ascending (compute_support g) /\
    Forall2 same_kind (nodes g) (nodes (graph s)) /\
    observed (graph s) = observed g /\ queries (graph s) = queries g /\
    stochastic_nodes s =
      filter (fun p => unobserved_stochastic (nodes (graph s)) p) (ordered_support s) /\
    deterministic_nodes s =
      filter (fun p => deterministic (nodes (graph s)) p) (ordered_support s) /\
    flat_size s = flat_total (nodes (graph s)) (stochastic_nodes s) /\
    stochastic_unconstrained_vals_backup s = stochastic_values s /\
    stochastic_unconstrained_grads_backup s = stochastic_grads s.
Proof.
  intros Hvalid. unfold GlobalState_new, GlobalState_body. cbv zeta.
  set (asc := ascending (compute_support g)).
  assert (forall p, p ∈ asc -> p < length (nodes g)) as Hasc.
  { intros p Hp. apply Hvalid. by apply elem_of_ascending. }
  rewrite bind_run. unfold modify at 1. cbv beta iota.
  rewrite bind_run. unfold get_state at 1. cbv beta iota.
  set (s0 := with_flat_size (fun _ => 0) (members_of g)).
  change (compute_support (graph s0)) with (compute_support g). fold asc.
  rewrite (bind_Ok _ _ _ _ _ (push_support_loop asc s0 Hasc)).
  set (s1 := with_ordered_support (fun o => o ++ asc) s0).
  rewrite bind_run. unfold get_state at 1. cbv beta iota.
  change (ordered_support s1) with asc.
  destruct (initialize_loop asc (mt19937 seed) (nodes g) s1 Hasc)
    as (gen' & ns2 & Hinit & Hk2).
  change (with_nodes (nodes g) s1)
    with (with_nodes (nodes (graph s1)) s1) in Hinit.
  rewrite with_nodes_id in Hinit.
  rewrite (bind_Ok _ _ _ _ _ Hinit).
  destruct (update_backgrad_run (with_nodes ns2 s1)) as (ns3 & Hgrad & Hk3).
  rewrite nodes_with_nodes in Hk3. rewrite with_nodes_with_nodes in Hgrad.
  rewrite (bind_Ok _ _ _ _ _ Hgrad).
  assert (Forall2 same_kind (nodes g) ns3) as Hk
    by (by eapply same_kind_all_trans).
  pose proof (same_kind_length _ _ Hk) as Hlen3.
  rewrite bind_run. unfold get_state at 1. cbv beta iota.
  change (ordered_support (with_nodes ns3 s1)) with asc.
  assert (forall p, p ∈ asc -> p < length (nodes (graph (with_nodes ns3 s1))))
    as Hasc3.
  { intros p Hp. rewrite nodes_with_nodes, Hlen3. by apply Hasc. }
  rewrite (bind_Ok _ _ _ _ _ (save_nodes_loop asc (with_nodes ns3 s1) Hasc3)).
  set (s4 := save_nodes_result asc (with_nodes ns3 s1)).
  set (sto := filter (fun p => unobserved_stochastic ns3 p) asc).
  assert (stochastic_nodes s4 = sto) as Hsto by done.
  assert (forall p, p ∈ sto -> p < length ns3) as Hsto_valid.
  { intros p Hp. apply list_elem_of_filter in Hp as [_ Hp].
    rewrite Hlen3. by apply Hasc. }
  rewrite bind_run. unfold get_state at 1. cbv beta iota.
  rewrite Hsto.
  rewrite (bind_Ok _ _ _ _ _ (flat_size_loop sto s4 Hsto_valid)).
  change (nodes (graph s4)) with ns3.
  set (s5 := with_flat_size (fun k => k + flat_total ns3 sto) s4).
  assert (length (values_of ns3 sto) = length sto) as Hvals
    by (by apply length_values_of).
  assert (length (grads_of ns3 sto) = length sto) as Hgrads
    by (by apply length_grads_of).
  rewrite (bind_Ok _ _ _ _ _ (backup_unconstrained_values_run s5 Hsto_valid Hvals)).
  set (s6 := with_vals_backup (fun _ => stochastic_values s5) s5).
  rewrite (bind_Ok _ _ _ _ _ (backup_unconstrained_grads_run s6 Hsto_valid Hgrads)).
  eexists. split; [reflexivity|].
  simpl. repeat split; try done.
Qed.

(** *** The support *)

Lemma elem_of_inputs_of ns i q :
  q ∈ inputs_of ns i <-> exists n, ns !! i = Some n /\ q ∈ in_nodes n.
Proof.
  unfold inputs_of. destruct (ns !! i) as [n|]; simpl.
  - split; [eauto|]. by intros (? & ? & ?); simplify_eq.
  - split; [set_solver|]. by intros (? & ? & ?).
Qed.

Lemma elem_of_expand ns (S : gset nat) q :
  q ∈ expand ns S <-> q ∈ S \/ exists i, i ∈ S /\ q ∈ inputs_of ns i.
Proof.
  unfold expand. rewrite elem_of_union, elem_of_list_to_set, list_elem_of_bind.
  setoid_rewrite elem_of_elements. naive_solver.
Qed.

(** Whatever holds of the observed and queried nodes and passes from a
    node to its inputs holds of the whole support. *)
Lemma compute_support_ind g (P : nat -> Prop) :
  (forall r, r ∈ observed g ++ queries g -> P r) ->
  (forall p n q, P p -> nodes g !! p = Some n -> q ∈ in_nodes n -> P q) ->
  forall p, p ∈ compute_support g -> P p.
Proof.
  intros Hroot Hstep. unfold compute_support.
  induction (length (nodes g)) as [|k IH]; intros p Hp; simpl in Hp.
  - apply Hroot. by apply elem_of_list_to_set in Hp.
  - apply elem_of_expand in Hp as [Hp|(i & Hi & Hp)]; [by apply IH|].
    apply elem_of_inputs_of in Hp as (n & Hn & Hq).
    by apply (Hstep i n p); [apply IH| |].
Qed.

Lemma compute_support_valid g :
  graph_wf g -> forall p, p ∈ compute_support g -> p < length (nodes g).
Proof.
  intros [Hroots Hinputs]. apply compute_support_ind; [done|].
  intros p n q Hp Hn Hq. specialize (Hinputs p n q Hn Hq). lia.
Qed.

Lemma compute_support_sound g p : p ∈ compute_support g -> in_closure g p.
Proof.
  revert p. apply compute_support_ind.
  - apply closure_root.
  - intros p n q Hp Hn Hq. by eapply closure_input.
Qed.

Lemma iter_expand_mono ns (S : gset nat) k j p :
  k <= j -> p ∈ Nat.iter k (expand ns) S -> p ∈ Nat.iter j (expand ns) S.
Proof.
  induction 1 as [|j Hle IH]; [done|]. intros Hp. simpl.
  apply elem_of_expand. left. by apply IH.
Qed.

Lemma compute_support_complete g p :
  graph_wf g -> in_closure g p -> p ∈ compute_support g.
Proof.
  intros [Hroots Hinputs] Hp. unfold compute_support.
  assert (exists k, p + k < length (nodes g) /\
            p ∈ Nat.iter k (expand (nodes g)) (list_to_set (observed g ++ queries g)))
    as (k & Hk & Hin).
  { induction Hp as [r Hr|p n q Hp IH Hn Hq].
    - exists 0. split; [specialize (Hroots r Hr); lia|].
      simpl. by apply elem_of_list_to_set.
    - destruct IH as (k & Hk & Hin). exists (S k).
      specialize (Hinputs p n q Hn Hq). split; [lia|]. simpl.
      apply elem_of_expand. right. exists p. split; [done|].
      apply elem_of_inputs_of. eauto. }
  eapply iter_expand_mono; [|done]. lia.
Qed.

Lemma StronglySorted_lookup_lt (l : list nat) i j a b :
  StronglySorted lt l -> i < j -> l !! i = Some a -> l !! j = Some b -> a < b.
Proof.
  intros Hl. revert i j. induction Hl as [|x l Hl IH Hx]; intros i j Hij Hi Hj.
  - done.
  - destruct j as [|j]; [lia|]. destruct i as [|i]; simpl in *.
    + simplify_eq. rewrite Forall_forall in Hx. apply Hx.
      by eapply list_elem_of_lookup_2.
    + apply (IH i j); [lia|done|done].
Qed.

Lemma ascending_sorted (S : gset nat) : StronglySorted lt (ascending S).
Proof.
  assert (NoDup (ascending S)) as Hnd.
  { unfold ascending. rewrite merge_sort_Permutation. apply NoDup_elements. }
  assert (StronglySorted le (ascending S)) as Hle.
  { apply Sorted_StronglySorted; [intros ???; lia|].
    unfold ascending. apply (Sorted_merge_sort le). }
  induction Hle as [|x l Hl IH Hx]; [constructor|].
  apply NoDup_cons in Hnd as [Hnotin Hnd]. constructor; [by apply IH|].
  rewrite Forall_forall in *. intros y Hy. specialize (Hx y Hy).
  assert (x ≠ y) by (by intros ->). lia.
Qed.

Lemma ascending_before (S : gset nat) j p q :
  ascending S !! j = Some p -> q ∈ ascending S -> q < p ->
  exists i, i < j /\ ascending S !! i = Some q.
Proof.
  intros Hj Hq Hlt. apply list_elem_of_lookup in Hq as [i Hi].
  exists i. split; [|done].
  destruct (decide (i < j)) as [|Hge]; [done|].
  destruct (decide (i = j)) as [->|Hne]; [simplify_eq; lia|].
  pose proof (StronglySorted_lookup_lt _ j i p q (ascending_sorted S)
                ltac:(lia) Hj Hi). lia.
Qed.

(** *** The backup slots under every method *)

Lemma same_slots_refl s : same_slots s s.
Proof. by repeat split. Qed.

Lemma same_slots_trans s1 s2 s3 :
  same_slots s1 s2 -> same_slots s2 s3 -> same_slots s1 s3.
Proof. unfold same_slots. intros (?&?&?) (?&?&?). repeat split; congruence. Qed.

Lemma keeps_ret {A : Type} (a : A) : keeps_slots (mret a).
Proof. intros s. apply same_slots_refl. Qed.

Lemma keeps_get_state : keeps_slots get_state.
Proof. intros s. apply same_slots_refl. Qed.

Lemma keeps_lift {A : Type} (r : result A) : keeps_slots (lift r).
Proof. intros s. apply same_slots_refl. Qed.

Lemma keeps_throw {A : Type} e : keeps_slots (@throw A e).
Proof. intros s. apply same_slots_refl. Qed.

Lemma keeps_at_index {X : Type} (v : list X) i : keeps_slots (at_index v i).
Proof. apply keeps_lift. Qed.

Lemma keeps_modify f :
  (forall s, same_slots s (f s)) -> keeps_slots (modify f).
Proof. intros Hf s. apply Hf. Qed.

Lemma keeps_bind {A B : Type} (m : St A) (f : A -> St B) :
  keeps_slots m -> (forall a, keeps_slots (f a)) -> keeps_slots (m ≫= f).
Proof.
  intros Hm Hf s. rewrite bind_run. specialize (Hm s).
  destruct (m s) as [[a|e|] s1]; simpl in *; [|done|done].
  eapply same_slots_trans; [done|apply Hf].
Qed.

Lemma keeps_for {A X : Type} (body : A -> X -> St A) xs :
  (forall a x, keeps_slots (body a x)) -> forall a, keeps_slots (st_for body xs a).
Proof.
  intros Hbody. induction xs as [|x xs IH]; intros a.
  - apply keeps_ret.
  - apply keeps_bind; [apply Hbody|apply IH].
Qed.

Lemma keeps_with_graph f : keeps_slots (modify (with_graph f)).
Proof. apply keeps_modify. intros s. by repeat split. Qed.

Lemma keeps_with_log_prob x : keeps_slots (modify (with_log_prob x)).
Proof. apply keeps_modify. intros s. by repeat split. Qed.

Lemma keeps_deref p : keeps_slots (deref p).
Proof.
  apply keeps_bind; [apply keeps_get_state|]. intros s. apply keeps_at_index.
Qed.

Lemma keeps_update_node p f : keeps_slots (update_node p f).
Proof.
  apply keeps_bind; [apply keeps_deref|]. intros _. apply keeps_with_graph.
Qed.

Lemma keeps_read_ref r : keeps_slots (read_ref r).
Proof. apply keeps_bind; [apply keeps_deref|]. intros n. apply keeps_ret. Qed.

Lemma keeps_write_ref r v : keeps_slots (write_ref r v).
Proof. apply keeps_update_node. Qed.

Lemma keeps_get_unconstrained_value p b :
  keeps_slots (get_unconstrained_value p b).
Proof.
  apply keeps_bind; [apply keeps_deref|]. intros n.
  destruct (transform_type n); [apply keeps_ret|].
  apply keeps_bind; [|intros; apply keeps_ret].
  destruct b; [apply keeps_update_node|apply keeps_ret].
Qed.

Lemma keeps_get_original_value p b :
  keeps_slots (get_original_value p b).
Proof.
  apply keeps_bind; [apply keeps_deref|]. intros n.
  destruct (transform_type n); [apply keeps_ret|].
  apply keeps_bind; [|intros; apply keeps_ret].
  destruct b; [apply keeps_update_node|apply keeps_ret].
Qed.

Lemma keeps_assign_vals_backup i v : keeps_slots (assign_vals_backup i v).
Proof.
  apply keeps_bind; [apply keeps_get_state|]. intros s.
  case_decide; [|apply keeps_lift]. apply keeps_modify. intros s'.
  repeat split. simpl. by rewrite length_insert.
Qed.

Lemma keeps_assign_grads_backup i d : keeps_slots (assign_grads_backup i d).
Proof.
  apply keeps_bind; [apply keeps_get_state|]. intros s.
  case_decide; [|apply keeps_lift]. apply keeps_modify. intros s'.
  repeat split. simpl. by rewrite length_insert.
Qed.

Create HintDb keeps.
#[local] Hint Resolve keeps_ret keeps_get_state keeps_lift keeps_throw
  keeps_at_index keeps_with_graph keeps_with_log_prob keeps_deref
  keeps_update_node keeps_read_ref keeps_write_ref
  keeps_get_unconstrained_value keeps_get_original_value
  keeps_assign_vals_backup keeps_assign_grads_backup : keeps.

(** Goals of the form [keeps_slots m]: follow the structure of [m]. *)
Ltac keeps_tac :=
  repeat first
    [ progress auto with keeps
    | apply keeps_bind; [|intros ?]
    | apply keeps_for; intros ? ?
    | case_decide
    | match goal with |- keeps_slots (if ?b then _ else _) => destruct b end ].

Lemma keeps_backup_unconstrained_values : keeps_slots backup_unconstrained_values.
Proof. unfold backup_unconstrained_values, backup_value_step. keeps_tac. Qed.

Lemma keeps_backup_unconstrained_grads : keeps_slots backup_unconstrained_grads.
Proof. unfold backup_unconstrained_grads, backup_grad_step. keeps_tac. Qed.

Lemma keeps_revert_unconstrained_values : keeps_slots revert_unconstrained_values.
Proof. unfold revert_unconstrained_values, revert_value_step. keeps_tac. Qed.

Lemma keeps_revert_unconstrained_grads : keeps_slots revert_unconstrained_grads.
Proof. unfold revert_unconstrained_grads, revert_grad_step. keeps_tac. Qed.

Lemma keeps_get_flattened_unconstrained_values v :
  keeps_slots (get_flattened_unconstrained_values v).
Proof.
  unfold get_flattened_unconstrained_values, flatten_value_step. keeps_tac.
Qed.

Lemma keeps_set_flattened_unconstrained_values v :
  keeps_slots (set_flattened_unconstrained_values v).
Proof.
  unfold set_flattened_unconstrained_values, unflatten_value_step. keeps_tac.
Qed.

Lemma keeps_get_flattened_unconstrained_grads v :
  keeps_slots (get_flattened_unconstrained_grads v).
Proof.
  unfold get_flattened_unconstrained_grads, flatten_grad_step. keeps_tac.
Qed.

Lemma keeps_add_to_stochastic_unconstrained_nodes v :
  keeps_slots (add_to_stochastic_unconstrained_nodes v).
Proof.
  unfold add_to_stochastic_unconstrained_nodes. keeps_tac.
Qed.

Lemma keeps_call m : keeps_slots (call m).
Proof.
  destruct m; simpl.
  - apply keeps_backup_unconstrained_values.
  - apply keeps_backup_unconstrained_grads.
  - apply keeps_revert_unconstrained_values.
  - apply keeps_revert_unconstrained_grads.
  - apply keeps_add_to_stochastic_unconstrained_nodes.
  - apply keeps_bind; [apply keeps_get_flattened_unconstrained_values|].
    intros; apply keeps_ret.
  - apply keeps_set_flattened_unconstrained_values.
  - apply keeps_bind; [apply keeps_get_flattened_unconstrained_grads|].
    intros; apply keeps_ret.
  - unfold get_log_prob. keeps_tac.
  - unfold update_log_prob. keeps_tac.
  - unfold update_backgrad. keeps_tac.
Qed.

(** *** What the constructor establishes *)

Lemma same_kind_unobserved_stochastic ns ns' p :
  Forall2 same_kind ns ns' ->
  unobserved_stochastic ns' p = unobserved_stochastic ns p.
Proof.
  intros Hk. unfold unobserved_stochastic.
  destruct (ns !! p) as [n|] eqn:Hn.
  - destruct (Forall2_lookup_l _ _ _ _ _ Hk Hn) as (n' & -> & (_ & -> & -> & _)).
    done.
  - apply lookup_ge_None in Hn. rewrite (Forall2_length _ _ _ Hk) in Hn.
    apply lookup_ge_None in Hn. by rewrite Hn.
Qed.

Lemma same_kind_deterministic ns ns' p :
  Forall2 same_kind ns ns' -> deterministic ns' p = deterministic ns p.
Proof.
  intros Hk. unfold deterministic.
  destruct (ns !! p) as [n|] eqn:Hn.
  - destruct (Forall2_lookup_l _ _ _ _ _ Hk Hn) as (n' & -> & (_ & -> & _)).
    done.
  - apply lookup_ge_None in Hn. rewrite (Forall2_length _ _ _ Hk) in Hn.
    apply lookup_ge_None in Hn. by rewrite Hn.
Qed.

Lemma NoDup_ascending (S : gset nat) : NoDup (ascending S).
Proof. unfold ascending. rewrite merge_sort_Permutation. apply NoDup_elements. Qed.

(** The constructor succeeds on a well-formed graph and leaves a
    consistent state. *)
Lemma GlobalState_new_consistent g seed :
  graph_wf g ->
  exists s, GlobalState_new g seed = (Ok tt, s) /\ consistent s.
Proof.
  intros Hwf.
  destruct (GlobalState_new_run g seed (compute_support_valid g Hwf))
    as (s & Hrun & Hsupp & Hk & _ & _ & Hsto & _ & Hsize & Hvals & Hgrads).
  exists s. split; [done|].
  assert (forall p, p ∈ stochastic_nodes s -> p < length (nodes (graph s))) as Hps.
  { intros p Hp. rewrite Hsto in Hp. apply list_elem_of_filter in Hp as [_ Hp].
    rewrite Hsupp in Hp. apply elem_of_ascending in Hp.
    rewrite (same_kind_length _ _ Hk). by apply compute_support_valid. }
  repeat split.
  - rewrite Hsto. apply NoDup_filter. rewrite Hsupp. apply NoDup_ascending.
  - done.
  - rewrite Hvals. by apply length_values_of.
  - rewrite Hgrads. by apply length_grads_of.
  - done.
Qed.


(** *** Every reachable state is consistent *)

Lemma length_revert_nodes ps : forall bs ns,
  length (revert_nodes ps bs ns) = length ns.
Proof.
  induction ps as [|p ps IH]; intros bs ns; [done|].
  destruct bs as [|b bs]; [done|]. simpl. by rewrite IH, length_alter.
Qed.

Lemma unconstrained_revert_node b n : unconstrained (revert_node b n) = b.
Proof.
  unfold revert_node.
  by rewrite unconstrained_sync_original, unconstrained_write_unconstrained.
Qed.

Lemma values_of_revert_nodes ps bs ns :
  NoDup ps -> (forall p, p ∈ ps -> p < length ns) -> length bs = length ps ->
  values_of (revert_nodes ps bs ns) ps = bs.
Proof.
  intros Hnd Hps Hlen.
  assert (forall p, p ∈ ps -> p < length (revert_nodes ps bs ns)) as Hps'
    by (intros; rewrite length_revert_nodes; by apply Hps).
  apply list_eq_same_length with (length ps);
    [done|by apply length_values_of|].
  intros k b b' Hk Hb Hb'.
  destruct (lookup_lt_is_Some_2 ps k) as [p Hp]; [done|].
  destruct (lookup_lt_is_Some_2 ns p) as [n Hn];
    [apply Hps; by eapply list_elem_of_lookup_2|].
  assert (revert_nodes ps bs ns !! p = Some (revert_node b' n)) as Hn'
    by (by rewrite (revert_nodes_lookup _ _ _ k p b'), Hn).
  rewrite (values_of_lookup _ _ _ _ _ Hp Hn' Hps') in Hb.
  simplify_eq. apply unconstrained_revert_node.
Qed.

Lemma values_of_alter_same ns p f qs :
  (forall n, unconstrained (f n) = unconstrained n) ->
  values_of (alter f p ns) qs = values_of ns qs.
Proof.
  intros Hf. induction qs as [|q qs IH]; [done|]. rewrite !values_of_cons, IH.
  destruct (decide (p = q)) as [->|Hne].
  - rewrite list_lookup_alter_eq. destruct (ns !! q); simpl; [|done].
    by rewrite Hf.
  - by rewrite list_lookup_alter_ne.
Qed.

Lemma unconstrained_set_back_grad1 d n :
  unconstrained (set_back_grad1 d n) = unconstrained n.
Proof. done. Qed.

Lemma values_of_revert_grads ps : forall ds ns qs,
  values_of (revert_grads ps ds ns) qs = values_of ns qs.
Proof.
  induction ps as [|p ps IH]; intros ds ns qs; [done|].
  destruct ds as [|d ds]; [done|]. simpl. rewrite IH.
  apply values_of_alter_same. intros n. apply unconstrained_set_back_grad1.
Qed.

Lemma length_revert_grads ps : forall ds ns,
  length (revert_grads ps ds ns) = length ns.
Proof.
  induction ps as [|p ps IH]; intros ds ns; [done|].
  destruct ds as [|d ds]; [done|]. simpl. by rewrite IH, length_alter.
Qed.

Lemma values_of_imap_same (f : nat -> Node -> Node) ns qs :
  (forall i n, unconstrained (f i n) = unconstrained n) ->
  values_of (imap f ns) qs = values_of ns qs.
Proof.
  intros Hf. induction qs as [|q qs IH]; [done|]. rewrite !values_of_cons, IH.
  rewrite list_lookup_imap. destruct (ns !! q); simpl; [|done]. by rewrite Hf.
Qed.

Lemma flat_lengths_unflatten_nodes fv ps qs : forall i ns,
  (forall p, p ∈ ps -> p < length ns) ->
  i + flat_total ns ps <= length fv ->
  flat_length <$> values_of (unflatten_nodes fv ps i ns) qs =
  flat_length <$> values_of ns qs.
Proof.
  induction ps as [|p ps IH]; intros i ns Hps Hi; simpl; [done|].
  destruct (ns !! p) as [n|] eqn:Hn; [|done].
  rewrite (flat_total_cons _ _ _ n Hn) in Hi.
  assert (forall n0, ns !! p = Some n0 ->
            flat_length (unconstrained (unflatten_node fv i n))
            = flat_length (unconstrained n0)) as Hsame.
  { intros n0 Hn0. simplify_eq. rewrite unconstrained_unflatten_node.
    apply flat_length_unflatten_value. lia. }
  rewrite IH.
  - by apply values_of_insert_same.
  - intros q Hq. rewrite length_insert. apply Hps. set_solver.
  - rewrite (flat_total_insert_same _ _ _ _ Hsame). lia.
Qed.

(** A computation that only reads the state. *)
Lemma reads_bind {A B : Type} (m : St A) (f : A -> St B) :
  (forall s, (m s).2 = s) -> (forall a s, (f a s).2 = s) ->
  forall s, ((m ≫= f) s).2 = s.
Proof.
  intros Hm Hf s. rewrite bind_run. specialize (Hm s).
  destruct (m s) as [[a|e|] s1]; simpl in *; subst; [apply Hf|done|done].
Qed.

Lemma reads_for {A X : Type} (body : A -> X -> St A) xs :
  (forall a x s, (body a x s).2 = s) -> forall a s, (st_for body xs a s).2 = s.
Proof.
  intros Hbody. induction xs as [|x xs IH]; intros a s; [done|].
  rewrite st_for_cons. apply reads_bind; [apply Hbody|apply IH].
Qed.

Lemma reads_deref p s : (deref p s).2 = s.
Proof. apply reads_bind; [done|]. by intros. Qed.

Lemma reads_get_flattened_unconstrained_grads v s :
  (get_flattened_unconstrained_grads v s).2 = s.
Proof.
  apply reads_bind; [done|]. intros s0.
  apply reads_bind; [|done]. apply reads_for. intros acc p.
  apply reads_bind; [apply reads_deref|]. intros n.
  case_decide; (apply reads_bind; [done|done]).
Qed.

Lemma sound_call m s : sound s -> sound (call m s).2.
Proof.
  intros [Hs Hsaved]. pose proof Hs as ([Hnd Hps] & [Hvals Hgrads] & Hsize).
  assert (length (values_of (nodes (graph s)) (stochastic_nodes s))
          = length (stochastic_nodes s)) as Hlen by (by apply length_values_of).
  destruct m as [| | | |v|v|v|v| | |]; simpl.
  - rewrite backup_unconstrained_values_run by done. simpl.
    repeat split; try done.
  - rewrite backup_unconstrained_grads_run by done. simpl.
    repeat split; try done. by apply length_grads_of.
  - rewrite revert_unconstrained_values_run by done. simpl.
    assert (values_of
              (revert_nodes (stochastic_nodes s)
                 (stochastic_unconstrained_vals_backup s) (nodes (graph s)))
              (stochastic_nodes s) = stochastic_unconstrained_vals_backup s)
      as Hrev by (by apply values_of_revert_nodes).
    repeat split; simpl; try done.
    + intros p Hp. rewrite length_revert_nodes. by apply Hps.
    + unfold flat_total. by rewrite Hrev, Hsaved.
    + unfold stochastic_values. simpl. by rewrite Hrev.
  - rewrite revert_unconstrained_grads_run by done. simpl.
    repeat split; simpl; try done.
    + intros p Hp. rewrite length_revert_grads. by apply Hps.
    + unfold flat_total. by rewrite values_of_revert_grads.
    + unfold stochastic_values. simpl. by rewrite values_of_revert_grads.
  - destruct (decide (length v = flat_size s)) as [Hv|Hv].
    + destruct (add_to_stochastic_unconstrained_nodes_run v s Hs Hv)
        as (s' & Hrun & Hs' & _ & _).
      rewrite Hrun. simpl. split; [done|].
      revert Hrun. unfold add_to_stochastic_unconstrained_nodes.
      rewrite bind_run. unfold get_state. cbv beta iota.
      rewrite decide_False by (intros Hne; by apply Hne).
      rewrite (bind_Ok _ _ _ _ _ (get_flattened_run [] s Hps Hsize)).
      unfold vector_add.
      rewrite decide_True by (rewrite length_flattened; lia).
      rewrite bind_run. unfold lift. cbv beta iota.
      rewrite set_flattened_run;
        [|done|done|rewrite length_zip_with, length_flattened; lia].
      intros [= <-]. unfold stochastic_values. simpl.
      rewrite flat_lengths_unflatten_nodes; [done|done|].
      rewrite length_zip_with, length_flattened. lia.
    + by rewrite add_to_stochastic_unconstrained_nodes_mismatch.
  - rewrite bind_run, (get_flattened_run v s Hps Hsize). done.
  - destruct (decide (length v = flat_size s)) as [Hv|Hv].
    + rewrite set_flattened_run by done. simpl.
      split; [by apply consistent_unflatten|].
      unfold stochastic_values. simpl.
      rewrite flat_lengths_unflatten_nodes; [done|done|lia].
    + by rewrite set_flattened_mismatch.
  - rewrite reads_bind; [done|apply reads_get_flattened_unconstrained_grads|done].
  - done.
  - done.
  - repeat split; simpl; try done.
    + intros p Hp. rewrite length_imap. by apply Hps.
    + unfold flat_total. by rewrite values_of_imap_same.
    + unfold stochastic_values. simpl. by rewrite values_of_imap_same.
Qed.

Lemma sound_new g seed s :
  graph_wf g -> GlobalState_new g seed = (Ok tt, s) -> sound s.
Proof.
  intros Hwf Hrun.
  destruct (GlobalState_new_consistent g seed Hwf) as (s' & Hrun' & Hs).
  destruct (GlobalState_new_run g seed (compute_support_valid g Hwf))
    as (s'' & Hrun'' & _ & _ & _ & _ & _ & _ & _ & Hvals & _).
  rewrite Hrun in Hrun', Hrun''. simplify_eq. split; [done|]. by rewrite Hvals.
Qed.

(** Every state a sampler can reach from a well-formed graph is
    consistent. *)
Lemma reachable_sound g seed s :
  graph_wf g -> reachable g seed s -> sound s.
Proof.
  intros Hwf Hreach. induction Hreach as [s Hnew|s m Hreach IH].
  - by eapply sound_new.
  - by apply sound_call.
Qed.
(** *** What a method leaves as it is *)

Lemma preserves_ret {A : Type} R (HR : PreOrder R) (a : A) :
  preserves R (mret a).
Proof. intros s. reflexivity. Qed.

Lemma preserves_get_state R (HR : PreOrder R) : preserves R get_state.
Proof. intros s. reflexivity. Qed.

Lemma preserves_lift {A : Type} R (HR : PreOrder R) (r : result A) :
  preserves R (lift r).
Proof. intros s. reflexivity. Qed.

Lemma preserves_throw {A : Type} R (HR : PreOrder R) e :
  preserves R (@throw A e).
Proof. intros s. reflexivity. Qed.

Lemma preserves_modify R f : (forall s, R s (f s)) -> preserves R (modify f).
Proof. intros Hf s. apply Hf. Qed.

Lemma preserves_bind {A B : Type} R (HR : PreOrder R) (m : St A) (f : A -> St B) :
  preserves R m -> (forall a, preserves R (f a)) -> preserves R (m ≫= f).
Proof.
  intros Hm Hf s. rewrite bind_run. specialize (Hm s).
  destruct (m s) as [[a|e|] s1]; simpl in *; [|done|done].
  etransitivity; [done|apply Hf].
Qed.

Lemma preserves_for {A X : Type} R (HR : PreOrder R) (body : A -> X -> St A) xs :
  (forall a x, preserves R (body a x)) ->
  forall a, preserves R (st_for body xs a).
Proof.
  intros Hbody. induction xs as [|x xs IH]; intros a.
  - by apply preserves_ret.
  - apply preserves_bind; [done|apply Hbody|apply IH].
Qed.

(** Goals [preserves R m]: follow the structure of [m]; [HR] is the proof
    that [R] is a preorder, [tac] settles what is asked of the state
    updates. *)
Ltac head_of t := lazymatch t with ?f _ => head_of f | _ => t end.

Ltac preserves_step HR tac :=
  lazymatch goal with
  | |- preserves _ (mret _) => apply (preserves_ret _ HR)
  | |- preserves _ (mbind _ _) => apply (preserves_bind _ HR); [|intros ?]
  | |- preserves _ (lift _) => apply (preserves_lift _ HR)
  | |- preserves _ (throw _) => apply (preserves_throw _ HR)
  | |- preserves _ get_state => apply (preserves_get_state _ HR)
  | |- preserves _ (modify _) => apply preserves_modify; intros ?; tac
  | |- preserves _ (st_for _ _ _) => apply (preserves_for _ HR); intros ? ?
  | |- preserves ?R (if false then _ else ?y) => change (preserves R y)
  | |- preserves ?R (if true then ?x else _) => change (preserves R x)
  | |- preserves _ (if ?b then _ else _) => destruct b
  | |- preserves _ (match ?x with _ => _ end) => destruct x
  | |- preserves _ ?m => let h := head_of m in progress unfold h
  end.

Ltac preserves_tac HR tac := repeat preserves_step HR tac.

Lemma same_vals_backup_preorder :
  PreOrder (fun s s' : GlobalState =>
    stochastic_unconstrained_vals_backup s' =
    stochastic_unconstrained_vals_backup s).
Proof. split; [by intros s|]. intros s1 s2 s3 ? ?. congruence. Qed.

Lemma same_grads_backup_preorder :
  PreOrder (fun s s' : GlobalState =>
    stochastic_unconstrained_grads_backup s' =
    stochastic_unconstrained_grads_backup s).
Proof. split; [by intros s|]. intros s1 s2 s3 ? ?. congruence. Qed.

(** Only [backup_unconstrained_values] assigns to
    [stochastic_unconstrained_vals_backup] ... *)
Lemma vals_backup_call m :
  m ≠ Backup_unconstrained_values ->
  preserves (fun s s' => stochastic_unconstrained_vals_backup s' =
                         stochastic_unconstrained_vals_backup s) (call m).
Proof.
  intros Hm. destruct m; try done; cbn [call];
    preserves_tac same_vals_backup_preorder ltac:(done).
Qed.

(** ... and only [backup_unconstrained_grads] to
    [stochastic_unconstrained_grads_backup]. *)
Lemma grads_backup_call m :
  m ≠ Backup_unconstrained_grads ->
  preserves (fun s s' => stochastic_unconstrained_grads_backup s' =
                         stochastic_unconstrained_grads_backup s) (call m).
Proof.
  intros Hm. destruct m; try done; cbn [call];
    preserves_tac same_grads_backup_preorder ltac:(done).
Qed.

(** *** The claims about GlobalState *)

(** The round trip through the flattened vector is the identity on the
    unconstrained values when every matrix among them is a column. *)
Lemma flatten_round_trip_vectors s v :
  consistent s ->
  (forall p n, p ∈ stochastic_nodes s -> nodes (graph s) !! p = Some n ->
     variable_type (type (unconstrained n)) = SCALAR \/
     (m_rows (_matrix (unconstrained n)) = size (_matrix (unconstrained n)) /\
      m_cols (_matrix (unconstrained n)) = 1)) ->
  exists s',
    get_flattened_unconstrained_values v s = (Ok (flattened s), s) /\
    set_flattened_unconstrained_values (flattened s) s = (Ok tt, s') /\
    forall p n, p ∈ stochastic_nodes s -> nodes (graph s) !! p = Some n ->
      exists n', nodes (graph s') !! p = Some n' /\
                 unconstrained n' = unconstrained n.
Proof.
  intros Hs Hcol. destruct (flatten_round_trip_columns s v Hs)
    as (s' & Hget & Hset & Hnodes).
  exists s'. split; [done|]. split; [done|]. intros p n Hp Hn.
  destruct (Hnodes p n Hp Hn) as (n' & Hn' & Hunc). exists n'. split; [done|].
  rewrite Hunc. apply as_column_id. by apply (Hcol p n).
Qed.

(** A matrix of more than one column does not survive the round trip. *)
Lemma flatten_round_trip_loses_shape s v p n :
  consistent s ->
  p ∈ stochastic_nodes s -> nodes (graph s) !! p = Some n ->
  variable_type (type (unconstrained n)) ≠ SCALAR ->
  m_cols (_matrix (unconstrained n)) ≠ 1 ->
  exists s' n',
    get_flattened_unconstrained_values v s = (Ok (flattened s), s) /\
    set_flattened_unconstrained_values (flattened s) s = (Ok tt, s') /\
    nodes (graph s') !! p = Some n' /\
    unconstrained n' ≠ unconstrained n.
Proof.
  intros Hs Hp Hn Hmatrix Hcols.
  destruct (flatten_round_trip_columns s v Hs) as (s' & Hget & Hset & Hnodes).
  destruct (Hnodes p n Hp Hn) as (n' & Hn' & Hunc).
  exists s', n'. split; [done|]. split; [done|]. split; [done|].
  rewrite Hunc. unfold as_column. rewrite decide_False by done.
  intros Heq. apply Hcols. by rewrite <- Heq.
Qed.

Lemma well_shaped_assign_vector v : well_shaped (assign_vector v).
Proof. unfold well_shaped, assign_vector. simpl. lia. Qed.

(** C2. Backup / revert: on a state whose pointers and backup slots are in
    order, [backup_unconstrained_values], then any change whatsoever of
    the graph's nodes (the graph keeping its size), then
    [revert_unconstrained_values] succeeds and leaves every stochastic
    node with the unconstrained value it had at the backup; the node is
    the mutated node with that value written back and [value] recomputed
    from it by the inverse transform (nothing to recompute under the
    identity transform, where [value] is the unconstrained value). *)
Theorem backup_revert_restores (s : GlobalState) (mutated : list Node) :
  pointers_ok s -> aligned s ->
  length mutated = length (nodes (graph s)) ->
  exists s1 s3,
    backup_unconstrained_values s = (Ok tt, s1) /\
    revert_unconstrained_values (with_nodes mutated s1) = (Ok tt, s3) /\
    forall p n, p ∈ stochastic_nodes s -> nodes (graph s) !! p = Some n ->
      exists m n3,
        mutated !! p = Some m /\ nodes (graph s3) !! p = Some n3 /\
        unconstrained n3 = unconstrained n /\
        n3 = sync_original (write_unconstrained (unconstrained n) m) /\
        match transform_type m with
        | NONE => value n3 = unconstrained n
        | t => value n3 = transform_inverse t (value m) (unconstrained n)
        end.
Proof.
  intros [Hnd Hps] [Hvals Hgrads] Hlen.
  set (s1 := with_vals_backup (fun _ => stochastic_values s) s).
  set (s2 := with_nodes mutated s1).
  assert (forall p, p ∈ stochastic_nodes s2 -> p < length (nodes (graph s2))) as Hps2.
  { intros p Hp. simpl. rewrite Hlen. by apply Hps. }
  assert (length (stochastic_unconstrained_vals_backup s2)
          = length (stochastic_nodes s2)) as Hvals2.
  { simpl. unfold stochastic_values. by apply length_values_of. }
  eexists s1, _. split; [by apply backup_unconstrained_values_run|].
  split; [by apply revert_unconstrained_values_run|].
  intros p n Hp Hn.
  destruct (lookup_lt_is_Some_2 mutated p) as [m Hm]; [rewrite Hlen; by apply Hps|].
  apply list_elem_of_lookup in Hp as [k Hk].
  pose proof (values_of_lookup _ _ _ _ _ Hk Hn Hps) as Hsaved.
  exists m, (revert_node (unconstrained n) m).
  split; [done|]. split.
  { simpl. rewrite (revert_nodes_lookup _ _ _ k p (unconstrained n)) by done.
    by rewrite Hm. }
  unfold revert_node. split.
  { by rewrite unconstrained_sync_original, unconstrained_write_unconstrained. }
  split; [done|].
  unfold sync_original, write_unconstrained, unconstrained_field.
  destruct (transform_type m) eqn:Ht; simpl; by rewrite Ht.
Qed.

(** C3 (as amended). Increment composition: on a consistent state and for
    increments [v1], [v2] of length [flat_size], the two calls in a row
    and the single call with [v1 + v2] all succeed; the first leaves the
    flattened vector [(x + v1) + v2] and the second [x + (v1 + v2)], sums
    of doubles taken coefficient by coefficient, [x] being the flattened
    vector before; the two states have the same flattened vector whenever
    these two sums agree. *)
Theorem increment_composition_when_associative (s : GlobalState)
    (v1 v2 : list float) :
  consistent s -> length v1 = flat_size s -> length v2 = flat_size s ->
  exists s1 s2 v12 s12,
    add_to_stochastic_unconstrained_nodes v1 s = (Ok tt, s1) /\
    add_to_stochastic_unconstrained_nodes v2 s1 = (Ok tt, s2) /\
    vector_add v1 v2 = Ok v12 /\
    add_to_stochastic_unconstrained_nodes v12 s = (Ok tt, s12) /\
    flattened s2 =
      zip_with PrimFloat.add (zip_with PrimFloat.add (flattened s) v1) v2 /\
    flattened s12 =
      zip_with PrimFloat.add (flattened s) (zip_with PrimFloat.add v1 v2) /\
    (zip_with PrimFloat.add (zip_with PrimFloat.add (flattened s) v1) v2 =
     zip_with PrimFloat.add (flattened s) (zip_with PrimFloat.add v1 v2) ->
     flattened s2 = flattened s12).
Proof.
  intros Hs Hv1 Hv2.
  destruct (add_to_stochastic_unconstrained_nodes_run v1 s Hs Hv1)
    as (s1 & Hrun1 & Hs1 & Hsize1 & Hflat1).
  destruct (add_to_stochastic_unconstrained_nodes_run v2 s1 Hs1 ltac:(lia))
    as (s2 & Hrun2 & Hs2 & Hsize2 & Hflat2).
  destruct (add_to_stochastic_unconstrained_nodes_run
              (zip_with PrimFloat.add v1 v2) s Hs)
    as (s12 & Hrun12 & Hs12 & Hsize12 & Hflat12).
  { rewrite length_zip_with. lia. }
  exists s1, s2, (zip_with PrimFloat.add v1 v2), s12.
  repeat split; try done.
  - unfold vector_add. rewrite decide_True by lia. done.
  - by rewrite Hflat2, Hflat1.
  - intros Hassoc. by rewrite Hflat2, Hflat1, Hflat12.
Qed.

(** C4. Size mismatch: when the length of the vector differs from
    [flat_size], [set_flattened_unconstrained_values] and
    [add_to_stochastic_unconstrained_nodes] throw [invalid_argument] with
    their size-mismatch message and leave the whole state as it was:
    every node of the graph (unconstrained value, value and gradient) and
    every member of the GlobalState. *)
Theorem size_mismatch_leaves_state (s : GlobalState) (v : list float) :
  length v ≠ flat_size s ->
  set_flattened_unconstrained_values v s = (Throw size_mismatch_flattened, s) /\
  add_to_stochastic_unconstrained_nodes v s = (Throw size_mismatch_increment, s).
Proof.
  intros Hlen. split.
  - by apply set_flattened_mismatch.
  - by apply add_to_stochastic_unconstrained_nodes_mismatch.
Qed.

(** C5. Support minimality and order: on a well-formed graph the
    constructor succeeds; [ordered_support] holds exactly the nodes
    [compute_support] returns, which are exactly the ancestor closure of
    the observed and queried nodes, so none outside of it; and every input
    of a node of [ordered_support] that is itself in [ordered_support]
    stands strictly before the node. *)
Theorem support_minimal_and_ordered (g : Graph) (seed : nat) :
  graph_wf g ->
  exists s,
    GlobalState_new g seed = (Ok tt, s) /\
    (forall p, p ∈ ordered_support s <-> p ∈ compute_support g) /\
    (forall p, p ∈ ordered_support s <-> in_closure g p) /\
    (forall j p n q,
       ordered_support s !! j = Some p ->
       nodes (graph s) !! p = Some n -> q ∈ in_nodes n ->
       q ∈ ordered_support s ->
       exists i, i < j /\ ordered_support s !! i = Some q).
Proof.
  intros Hwf.
  destruct (GlobalState_new_run g seed (compute_support_valid g Hwf))
    as (s & Hrun & Hsupp & Hk & _).
  exists s. split; [done|]. rewrite Hsupp. repeat split.
  - by apply elem_of_ascending.
  - by apply elem_of_ascending.
  - intros Hp. apply compute_support_sound. by apply elem_of_ascending.
  - intros Hp. apply elem_of_ascending. by apply compute_support_complete.
  - intros j p n q Hj Hn Hq Hin. apply (ascending_before _ j p q); [done|done|].
    destruct (Forall2_lookup_r _ _ _ _ _ Hk Hn) as (n0 & Hn0 & (_ & _ & _ & Hins & _)).
    destruct Hwf as [_ Hinputs]. apply (Hinputs p n0 q Hn0). by rewrite <- Hins.
Qed.

(** C6. Partition pass: on a well-formed graph the constructor succeeds;
    [stochastic_nodes] is [ordered_support] filtered for the stochastic
    nodes that are not observed, and [deterministic_nodes] is
    [ordered_support] filtered for the nodes that are not stochastic, both
    in the order of [ordered_support]; an observed stochastic node is in
    neither. *)
Theorem partition_pass (g : Graph) (seed : nat) :
  graph_wf g ->
  exists s,
    GlobalState_new g seed = (Ok tt, s) /\
    stochastic_nodes s =
      filter (fun p => unobserved_stochastic (nodes g) p) (ordered_support s) /\
    deterministic_nodes s =
      filter (fun p => deterministic (nodes g) p) (ordered_support s) /\
    (forall p n, nodes g !! p = Some n ->
       is_stochastic n = true -> is_observed n = true ->
       p ∉ stochastic_nodes s /\ p ∉ deterministic_nodes s).
Proof.
  intros Hwf.
  destruct (GlobalState_new_run g seed (compute_support_valid g Hwf))
    as (s & Hrun & Hsupp & Hk & _ & _ & Hsto & Hdet & _).
  assert (stochastic_nodes s =
          filter (fun p => unobserved_stochastic (nodes g) p) (ordered_support s))
    as Hsto'.
  { rewrite Hsto. apply list_filter_iff. intros p.
    by rewrite (same_kind_unobserved_stochastic _ _ _ Hk). }
  assert (deterministic_nodes s =
          filter (fun p => deterministic (nodes g) p) (ordered_support s))
    as Hdet'.
  { rewrite Hdet. apply list_filter_iff. intros p.
    by rewrite (same_kind_deterministic _ _ _ Hk). }
  exists s. split; [done|]. split; [done|]. split; [done|].
  intros p n Hn Hstochastic Hobserved. split.
  - rewrite Hsto'. intros Hp. apply list_elem_of_filter in Hp as [Hp _].
    unfold unobserved_stochastic in Hp.
    rewrite Hn, Hstochastic, Hobserved in Hp. done.
  - rewrite Hdet'. intros Hp. apply list_elem_of_filter in Hp as [Hp _].
    unfold deterministic in Hp. rewrite Hn, Hstochastic in Hp. done.
Qed.

(** C9. [flat_size] consistency: on a well-formed graph the constructor
    succeeds; [flat_size] is the sum over [stochastic_nodes] of 1 for a
    scalar unconstrained value and of the number of matrix coefficients
    otherwise; and [get_flattened_unconstrained_values], whatever vector
    it is given, returns the concatenation, in the order of
    [stochastic_nodes], of each node's scalar or matrix coefficients,
    which has length [flat_size]. *)
Theorem flat_size_consistent (g : Graph) (seed : nat) :
  graph_wf g ->
  exists s,
    GlobalState_new g seed = (Ok tt, s) /\
    flat_size s = sum_list (flat_length <$> stochastic_values s) /\
    length (stochastic_values s) = length (stochastic_nodes s) /\
    forall v,
      get_flattened_unconstrained_values v s =
        (Ok (concat (flat_of <$> stochastic_values s)), s) /\
      length (concat (flat_of <$> stochastic_values s)) = flat_size s.
Proof.
  intros Hwf.
  destruct (GlobalState_new_consistent g seed Hwf)
    as (s & Hrun & ([Hnd Hps] & Hal & Hsize)).
  exists s. split; [done|]. split; [done|].
  split; [by apply length_values_of|].
  intros v. split.
  - by apply get_flattened_run.
  - rewrite Hsize. apply length_flat_all.
Qed.

(** C10. Parallel-backup alignment: on a well-formed graph the constructor
    succeeds and leaves one slot per stochastic node in each backup
    sequence, slot [i] holding the unconstrained value and the gradient of
    [stochastic_nodes[i]]; every method keeps [stochastic_nodes] and the
    number of slots, however it ends; [backup_unconstrained_values] and
    [backup_unconstrained_grads] write into slot [i] the unconstrained
    value and the gradient of [stochastic_nodes[i]], and the two revert
    methods write slot [i] back into [stochastic_nodes[i]]; and a slot
    keeps its snapshot until the next backup: every method but
    [backup_unconstrained_values] leaves
    [stochastic_unconstrained_vals_backup] as it was, and every method but
    [backup_unconstrained_grads] leaves
    [stochastic_unconstrained_grads_backup] as it was, however it ends. *)
Theorem backups_aligned :
  (forall g seed, graph_wf g ->
     exists s,
       GlobalState_new g seed = (Ok tt, s) /\ pointers_ok s /\ aligned s /\
       stochastic_unconstrained_vals_backup s = stochastic_values s /\
       stochastic_unconstrained_grads_backup s = stochastic_grads s) /\
  (forall m s, aligned s ->
     aligned (call m s).2 /\ stochastic_nodes (call m s).2 = stochastic_nodes s) /\
  (forall s i p n,
     pointers_ok s -> aligned s ->
     stochastic_nodes s !! i = Some p -> nodes (graph s) !! p = Some n ->
     stochastic_unconstrained_vals_backup (backup_unconstrained_values s).2 !! i
       = Some (unconstrained n) /\
     stochastic_unconstrained_grads_backup (backup_unconstrained_grads s).2 !! i
       = Some (back_grad1 n) /\
     exists b d,
       stochastic_unconstrained_vals_backup s !! i = Some b /\
       stochastic_unconstrained_grads_backup s !! i = Some d /\
       nodes (graph (revert_unconstrained_values s).2) !! p
         = Some (revert_node b n) /\
       nodes (graph (revert_unconstrained_grads s).2) !! p
         = Some (set_back_grad1 d n)) /\
  (forall m s,
     (m ≠ Backup_unconstrained_values ->
      stochastic_unconstrained_vals_backup (call m s).2 =
      stochastic_unconstrained_vals_backup s) /\
     (m ≠ Backup_unconstrained_grads ->
      stochastic_unconstrained_grads_backup (call m s).2 =
      stochastic_unconstrained_grads_backup s)).
Proof.
  split; [|split; [|split]].
  - intros g seed Hwf.
    destruct (GlobalState_new_run g seed (compute_support_valid g Hwf))
      as (s & Hrun & _ & _ & _ & _ & _ & _ & _ & Hvals & Hgrads).
    destruct (GlobalState_new_consistent g seed Hwf) as (s' & Hrun' & Hs & Hal & _).
    rewrite Hrun in Hrun'. simplify_eq. by exists s'.
  - intros m s [Hvals Hgrads].
    destruct (keeps_call m s) as (Hsto & Hv & Hg).
    unfold aligned. rewrite Hsto, Hv, Hg. done.
  - intros s i p n [Hnd Hps] [Hvals Hgrads] Hi Hn.
    rewrite backup_unconstrained_values_run, backup_unconstrained_grads_run,
      revert_unconstrained_values_run, revert_unconstrained_grads_run by done.
    simpl.
    destruct (lookup_lt_is_Some_2 (stochastic_unconstrained_vals_backup s) i)
      as [b Hb]; [rewrite Hvals; by eapply lookup_lt_Some|].
    destruct (lookup_lt_is_Some_2 (stochastic_unconstrained_grads_backup s) i)
      as [d Hd]; [rewrite Hgrads; by eapply lookup_lt_Some|].
    split; [by eapply values_of_lookup|]. split; [by eapply grads_of_lookup|].
    exists b, d. split; [done|]. split; [done|]. split.
    + rewrite (revert_nodes_lookup _ _ _ i p b) by done. by rewrite Hn.
    + rewrite (revert_grads_lookup _ _ _ i p d) by done. by rewrite Hn.
  - intros m s. split; intros Hm.
    + by apply vals_backup_call.
    + by apply grads_backup_call.
Qed.

(** *** Further properties of the methods and of the constructor *)

Lemma unflatten_nodes_lookup fv ps p : forall i ns n,
  NoDup ps -> (forall q, q ∈ ps -> q < length ns) ->
  i + flat_total ns ps <= length fv ->
  p ∈ ps -> ns !! p = Some n ->
  exists i',
    i' + flat_length (unconstrained n) <= length fv /\
    unflatten_nodes fv ps i ns !! p = Some (unflatten_node fv i' n).
Proof.
  induction ps as [|q ps IH]; intros i ns n Hnd Hps Hi Hp Hn; [set_solver|].
  apply NoDup_cons in Hnd as [Hq Hnd]. simpl.
  destruct (lookup_lt_is_Some_2 ns q) as [m Hm]; [apply Hps; set_solver|].
  rewrite (flat_total_cons _ _ _ m Hm) in Hi.
  rewrite Hm. destruct (decide (p = q)) as [->|Hne].
  - simplify_eq. exists i. split; [lia|]. rewrite unflatten_nodes_notin by done.
    apply list_lookup_insert_eq. by eapply lookup_lt_Some.
  - apply IH; [done| | |set_solver|by rewrite list_lookup_insert_ne].
    + intros q' Hq'. rewrite length_insert. apply Hps. set_solver.
    + rewrite flat_total_insert_same; [lia|].
      intros n0 Hn0. simplify_eq. rewrite unconstrained_unflatten_node.
      apply flat_length_unflatten_value. lia.
Qed.

Lemma same_kind_write_field f v n : same_kind n (write_field f v n).
Proof. by destruct f. Qed.

Lemma same_kind_sync_original n : same_kind n (sync_original n).
Proof. unfold sync_original. by destruct (transform_type n). Qed.

Lemma back_grad1_sync_original n : back_grad1 (sync_original n) = back_grad1 n.
Proof. unfold sync_original. by destruct (transform_type n). Qed.

Lemma back_grad1_write_unconstrained v n :
  back_grad1 (write_unconstrained v n) = back_grad1 n.
Proof. unfold write_unconstrained. by destruct (unconstrained_field n). Qed.

(** The value of a node after its unconstrained value was written and
    [get_original_value(true)] ran. *)
Lemma value_sync_write v n :
  match transform_type n with
  | NONE => value (sync_original (write_unconstrained v n)) = v
  | t => value (sync_original (write_unconstrained v n))
         = transform_inverse t (value n) v
  end.
Proof.
  unfold sync_original, write_unconstrained, unconstrained_field.
  destruct (transform_type n) eqn:Ht; simpl; by rewrite Ht.
Qed.

(** X1. Writing a vector and reading it back: on a consistent state,
    [set_flattened_unconstrained_values] with any vector of length
    [flat_size] succeeds, and [get_flattened_unconstrained_values] then
    returns exactly that vector, whatever vector it is handed. *)
Theorem unflatten_then_flatten (s : GlobalState) (v w : list float) :
  consistent s -> length v = flat_size s ->
  exists s',
    set_flattened_unconstrained_values v s = (Ok tt, s') /\
    get_flattened_unconstrained_values w s' = (Ok v, s').
Proof.
  intros Hs Hv. pose proof Hs as ([Hnd Hps] & Hal & Hsize).
  eexists. split; [by apply set_flattened_run|].
  pose proof (consistent_unflatten v s Hs Hv) as ([_ Hps'] & _ & Hsize').
  rewrite get_flattened_run by done. by rewrite flattened_unflatten.
Qed.

(** X2. What [set_flattened_unconstrained_values] does to the nodes, on a
    consistent state and a vector of length [flat_size]: nodes that are
    not in [stochastic_nodes] stay as they are, and so do all members but
    the graph; a stochastic node keeps its kind, its gradient and the type
    tag of its unconstrained value; a scalar keeps its matrix and a matrix
    its scalar and its number of coefficients, as one column; and [value]
    is the unconstrained value under the identity transform, and is
    recomputed from it by the inverse transform otherwise. *)
Theorem set_flattened_nodes (s : GlobalState) (v : list float) :
  consistent s -> length v = flat_size s ->
  exists s',
    set_flattened_unconstrained_values v s = (Ok tt, s') /\
    s' = with_nodes (nodes (graph s')) s /\
    (forall q, q ∉ stochastic_nodes s ->
       nodes (graph s') !! q = nodes (graph s) !! q) /\
    (forall p n, p ∈ stochastic_nodes s -> nodes (graph s) !! p = Some n ->
       exists n',
         nodes (graph s') !! p = Some n' /\
         same_kind n n' /\ back_grad1 n' = back_grad1 n /\
         type (unconstrained n') = type (unconstrained n) /\
         (if decide (variable_type (type (unconstrained n)) = SCALAR)
          then _matrix (unconstrained n') = _matrix (unconstrained n)
          else _double (unconstrained n') = _double (unconstrained n) /\
               m_cols (_matrix (unconstrained n')) = 1 /\
               m_rows (_matrix (unconstrained n')) = size (_matrix (unconstrained n)) /\
               size (_matrix (unconstrained n')) = size (_matrix (unconstrained n))) /\
         match transform_type n with
         | NONE => value n' = unconstrained n'
         | t => value n' = transform_inverse t (value n) (unconstrained n')
         end).
Proof.
  intros Hs Hv. pose proof Hs as ([Hnd Hps] & Hal & Hsize).
  eexists. split; [by apply set_flattened_run|]. split; [done|]. split.
  - intros q Hq. simpl. by apply unflatten_nodes_notin.
  - intros p n Hp Hn. simpl.
    destruct (unflatten_nodes_lookup v (stochastic_nodes s) p 0 _ n Hnd Hps
                ltac:(lia) Hp Hn) as (i & Hbound & Hi).
    exists (unflatten_node v i n). split; [done|].
    unfold unflatten_node.
    rewrite unconstrained_sync_original, unconstrained_write_unconstrained.
    split.
    { eapply same_kind_trans; [|apply same_kind_sync_original].
      apply same_kind_write_field. }
    split.
    { by rewrite back_grad1_sync_original, back_grad1_write_unconstrained. }
    split.
    { unfold unflatten_value. by case_decide. }
    split.
    { unfold unflatten_value, flat_length in *. case_decide; [done|].
      simpl. unfold size in *. simpl.
      rewrite length_take, length_drop. repeat split; lia. }
    pose proof (value_sync_write
                  (unflatten_value v i (unconstrained n)) n) as Hsync.
    by destruct (transform_type n).
Qed.
Lemma revert_grads_notin ps : forall ds ns q,
  q ∉ ps -> revert_grads ps ds ns !! q = ns !! q.
Proof.
  induction ps as [|p ps IH]; intros ds ns q Hq; [done|].
  apply not_elem_of_cons in Hq as [Hne Hq]. destruct ds as [|d ds]; [done|].
  simpl. rewrite IH by done. by apply list_lookup_alter_ne.
Qed.

Lemma revert_nodes_notin ps : forall bs ns q,
  q ∉ ps -> revert_nodes ps bs ns !! q = ns !! q.
Proof.
  induction ps as [|p ps IH]; intros bs ns q Hq; [done|].
  apply not_elem_of_cons in Hq as [Hne Hq]. destruct bs as [|b bs]; [done|].
  simpl. rewrite IH by done. by apply list_lookup_alter_ne.
Qed.

(** X3. Gradient backup / revert: on a state whose pointers and backup
    slots are in order, [backup_unconstrained_grads], then any change of
    the graph's nodes (the graph keeping its size), then
    [revert_unconstrained_grads] succeeds; every stochastic node is the
    changed node with [back_grad1] set back to what it was at the backup,
    and every other node is the changed node as it is. *)
Theorem backup_revert_grads_restores (s : GlobalState) (mutated : list Node) :
  pointers_ok s -> aligned s ->
  length mutated = length (nodes (graph s)) ->
  exists s1 s3,
    backup_unconstrained_grads s = (Ok tt, s1) /\
    revert_unconstrained_grads (with_nodes mutated s1) = (Ok tt, s3) /\
    (forall p n, p ∈ stochastic_nodes s -> nodes (graph s) !! p = Some n ->
       exists m,
         mutated !! p = Some m /\
         nodes (graph s3) !! p = Some (set_back_grad1 (back_grad1 n) m)) /\
    (forall q, q ∉ stochastic_nodes s -> nodes (graph s3) !! q = mutated !! q).
Proof.
  intros [Hnd Hps] [Hvals Hgrads] Hlen.
  set (s1 := with_grads_backup (fun _ => stochastic_grads s) s).
  set (s2 := with_nodes mutated s1).
  assert (forall p, p ∈ stochastic_nodes s2 -> p < length (nodes (graph s2))) as Hps2.
  { intros p Hp. simpl. rewrite Hlen. by apply Hps. }
  assert (length (stochastic_unconstrained_grads_backup s2)
          = length (stochastic_nodes s2)) as Hgrads2.
  { simpl. unfold stochastic_grads. by apply length_grads_of. }
  eexists s1, _. split; [by apply backup_unconstrained_grads_run|].
  split; [by apply revert_unconstrained_grads_run|]. split.
  - intros p n Hp Hn.
    destruct (lookup_lt_is_Some_2 mutated p) as [m Hm];
      [rewrite Hlen; by apply Hps|].
    apply list_elem_of_lookup in Hp as [k Hk].
    pose proof (grads_of_lookup _ _ _ _ _ Hk Hn Hps) as Hsaved.
    exists m. split; [done|]. simpl.
    rewrite (revert_grads_lookup _ _ _ k p (back_grad1 n)) by done.
    by rewrite Hm.
  - intros q Hq. simpl. by apply revert_grads_notin.
Qed.

(** X4. The sampler's transaction: both backups, then any change of the
    graph's nodes (the graph keeping its size), then both reverts, all
    succeed; every stochastic node ends with the unconstrained value and
    the gradient it had at the backup, its [value] recomputed from the
    restored unconstrained value, and every other node is left as the
    change made it. *)
Theorem backup_revert_transaction (s : GlobalState) (mutated : list Node) :
  pointers_ok s -> aligned s ->
  length mutated = length (nodes (graph s)) ->
  exists s1 s2 s3 s4,
    backup_unconstrained_values s = (Ok tt, s1) /\
    backup_unconstrained_grads s1 = (Ok tt, s2) /\
    revert_unconstrained_values (with_nodes mutated s2) = (Ok tt, s3) /\
    revert_unconstrained_grads s3 = (Ok tt, s4) /\
    (forall p n, p ∈ stochastic_nodes s -> nodes (graph s) !! p = Some n ->
       exists m n4,
         mutated !! p = Some m /\ nodes (graph s4) !! p = Some n4 /\
         n4 = set_back_grad1 (back_grad1 n) (revert_node (unconstrained n) m) /\
         unconstrained n4 = unconstrained n /\
         back_grad1 n4 = back_grad1 n) /\
    (forall q, q ∉ stochastic_nodes s -> nodes (graph s4) !! q = mutated !! q).
Proof.
  intros [Hnd Hps] [Hvals Hgrads] Hlen.
  set (s1 := with_vals_backup (fun _ => stochastic_values s) s).
  set (s2 := with_grads_backup (fun _ => stochastic_grads s1) s1).
  set (s2' := with_nodes mutated s2).
  assert (forall p, p ∈ stochastic_nodes s -> p < length mutated) as Hpsm.
  { intros p Hp. rewrite Hlen. by apply Hps. }
  assert (length (stochastic_values s) = length (stochastic_nodes s)) as Hlv
    by (by apply length_values_of).
  assert (length (stochastic_grads s) = length (stochastic_nodes s)) as Hlg
    by (by apply length_grads_of).
  set (ns3 := revert_nodes (stochastic_nodes s) (stochastic_values s) mutated).
  set (s3 := with_nodes ns3 s2').
  exists s1, s2, s3. eexists.
  split; [by apply backup_unconstrained_values_run|].
  split; [by apply backup_unconstrained_grads_run|].
  split; [by apply (revert_unconstrained_values_run s2')|].
  split.
  { apply revert_unconstrained_grads_run; simpl; [|done].
    intros p Hp. unfold ns3. rewrite length_revert_nodes. by apply Hpsm. }
  split.
  - intros p n Hp Hn. simpl.
    destruct (lookup_lt_is_Some_2 mutated p) as [m Hm]; [by apply Hpsm|].
    apply list_elem_of_lookup in Hp as [k Hk].
    pose proof (values_of_lookup _ _ _ _ _ Hk Hn Hps) as Hsv.
    pose proof (grads_of_lookup _ _ _ _ _ Hk Hn Hps) as Hsg.
    exists m, (set_back_grad1 (back_grad1 n) (revert_node (unconstrained n) m)).
    split; [done|]. split.
    { rewrite (revert_grads_lookup _ _ _ k p (back_grad1 n)) by done.
      unfold ns3.
      rewrite (revert_nodes_lookup _ _ _ k p (unconstrained n)) by done.
      by rewrite Hm. }
    split; [done|]. split; [|done].
    by rewrite unconstrained_set_back_grad1, unconstrained_revert_node.
  - intros q Hq. simpl. rewrite revert_grads_notin by done.
    unfold ns3. by apply revert_nodes_notin.
Qed.
Lemma nodes_at_cons ns p ps :
  nodes_at ns (p :: ps) =
  match ns !! p with
  | Some n => n :: nodes_at ns ps
  | None => nodes_at ns ps
  end.
Proof. unfold nodes_at. simpl. by destruct (ns !! p). Qed.

Lemma grad_flat_all_cons ns p ps n :
  ns !! p = Some n ->
  grad_flat_all ns (p :: ps) = grad_flat_of n ++ grad_flat_all ns ps.
Proof. intros Hp. unfold grad_flat_all. by rewrite nodes_at_cons, Hp. Qed.

Lemma flatten_grad_step_run p n v i s :
  nodes (graph s) !! p = Some n ->
  flatten_grad_step (v, i) p s =
  if decide (i + length (grad_flat_of n) <= length v)
  then (Ok (take i v ++ grad_flat_of n ++ drop (i + length (grad_flat_of n)) v,
            i + length (grad_flat_of n)), s)
  else (Undefined, s).
Proof.
  intros Hp. unfold flatten_grad_step. cbn [fst snd].
  rewrite (bind_Ok _ _ _ _ _ (deref_Some _ _ _ Hp)).
  unfold grad_flat_of.
  destruct (decide (variable_type (type (value n)) = SCALAR)) as [Hs|Hs].
  - unfold set_coeff. simpl length.
    destruct (decide (i + 1 <= length v)) as [Hi|Hi].
    + rewrite decide_True by lia. rewrite bind_run. unfold lift.
      cbv beta iota. unfold mret, St_mret, st_ret.
      rewrite insert_take_drop by lia. by replace (i + 1) with (S i) by lia.
    + rewrite decide_False by lia. rewrite bind_run. unfold lift. done.
  - unfold set_segment, size.
    destruct (decide (i + length (coeffs (grad_matrix (back_grad1 n)))
                      <= length v)) as [Hi|Hi].
    + rewrite decide_True by done. rewrite bind_run. unfold lift. done.
    + rewrite decide_False by (intros [? _]; lia).
      rewrite bind_run. unfold lift. done.
Qed.

Lemma flatten_grad_loop ps : forall v i s,
  (forall p, p ∈ ps -> p < length (nodes (graph s))) ->
  i <= length v ->
  st_for flatten_grad_step ps (v, i) s =
  if decide (i + length (grad_flat_all (nodes (graph s)) ps) <= length v)
  then (Ok (take i v ++ grad_flat_all (nodes (graph s)) ps
              ++ drop (i + length (grad_flat_all (nodes (graph s)) ps)) v,
            i + length (grad_flat_all (nodes (graph s)) ps)), s)
  else (Undefined, s).
Proof.
  induction ps as [|p ps IH]; intros v i s Hps Hi.
  - rewrite st_for_nil. unfold grad_flat_all. simpl.
    rewrite decide_True by lia. by rewrite Nat.add_0_r, take_drop.
  - destruct (lookup_lt_is_Some_2 (nodes (graph s)) p) as [n Hn];
      [apply Hps; set_solver|].
    rewrite (grad_flat_all_cons _ _ _ n Hn), length_app.
    rewrite st_for_cons, bind_run, (flatten_grad_step_run _ _ _ _ _ Hn).
    set (k := length (grad_flat_of n)).
    set (G := grad_flat_all (nodes (graph s)) ps).
    destruct (decide (i + k <= length v)) as [Hk|Hk].
    + rewrite IH; [|intros; apply Hps; set_solver
                   |rewrite splice_length; [lia|done|lia]].
      fold G. rewrite splice_length by (done || lia).
      destruct (decide (i + k + length G <= length v)) as [HG|HG].
      * rewrite decide_True by lia.
        rewrite splice_take by (done || lia).
        rewrite splice_drop by (done || lia).
        by rewrite <- !app_assoc, !Nat.add_assoc.
      * by rewrite decide_False by lia.
    + by rewrite decide_False by lia.
Qed.

Lemma get_flattened_unconstrained_grads_run (s : GlobalState) (v : list float) :
  (forall p, p ∈ stochastic_nodes s -> p < length (nodes (graph s))) ->
  get_flattened_unconstrained_grads v s =
  if decide (length (flattened_grads s) <= flat_size s)
  then (Ok (flattened_grads s
              ++ drop (length (flattened_grads s)) (resize (flat_size s) v)), s)
  else (Undefined, s).
Proof.
  intros Hps. unfold get_flattened_unconstrained_grads.
  rewrite bind_run. unfold get_state. cbv beta iota zeta.
  rewrite bind_run, flatten_grad_loop by (done || lia).
  fold (flattened_grads s). rewrite length_resize. simpl.
  destruct (decide (length (flattened_grads s) <= flat_size s)); done.
Qed.

(** X5. [get_flattened_unconstrained_grads] on a state with valid
    pointers never changes the state, and never throws.  When the
    gradient coefficients of the stochastic nodes (a node counts as a
    scalar by the type tag of its [value]) fit in [flat_size], it returns
    a vector of [flat_size] coefficients that starts with them, in the
    order of [stochastic_nodes]; when they do not fit, it writes past the
    end of the vector, which is undefined behaviour. *)
Theorem get_flattened_unconstrained_grads_bounds (s : GlobalState)
    (v : list float) :
  (forall p, p ∈ stochastic_nodes s -> p < length (nodes (graph s))) ->
  if decide (length (flattened_grads s) <= flat_size s)
  then exists r,
         get_flattened_unconstrained_grads v s = (Ok r, s) /\
         length r = flat_size s /\
         take (length (flattened_grads s)) r = flattened_grads s
  else get_flattened_unconstrained_grads v s = (Undefined, s).
Proof.
  intros Hps. rewrite get_flattened_unconstrained_grads_run by done.
  case_decide; [|done]. eexists. split; [done|]. split.
  - rewrite length_app, length_drop, length_resize. lia.
  - by rewrite take_app_length.
Qed.

(** X6. When, for every stochastic node, the gradient has as many
    coefficients as the unconstrained value (one for a scalar),
    [get_flattened_unconstrained_grads] on a consistent state returns
    exactly the gradient coefficients in the order of [stochastic_nodes],
    [flat_size] of them, each node's gradient starting at the offset where
    its value starts in the flattened values. *)
Theorem get_flattened_unconstrained_grads_aligned (s : GlobalState)
    (v : list float) :
  consistent s ->
  (forall p n, p ∈ stochastic_nodes s -> nodes (graph s) !! p = Some n ->
     length (grad_flat_of n) = flat_length (unconstrained n)) ->
  get_flattened_unconstrained_grads v s = (Ok (flattened_grads s), s) /\
  length (flattened_grads s) = flat_size s /\
  forall k,
    length (grad_flat_all (nodes (graph s)) (take k (stochastic_nodes s))) =
    length (flat_all (nodes (graph s)) (take k (stochastic_nodes s))).
Proof.
  intros ([Hnd Hps] & Hal & Hsize) Hshape.
  assert (forall ps, (forall p, p ∈ ps -> p ∈ stochastic_nodes s) ->
            length (grad_flat_all (nodes (graph s)) ps)
            = length (flat_all (nodes (graph s)) ps)) as Hsame.
  { induction ps as [|p ps IH]; intros Hsub; [done|].
    destruct (lookup_lt_is_Some_2 (nodes (graph s)) p) as [n Hn];
      [apply Hps, Hsub; set_solver|].
    rewrite (grad_flat_all_cons _ _ _ n Hn), (flat_all_cons _ _ _ n Hn).
    rewrite !length_app, length_flat_of, IH by (intros; apply Hsub; set_solver).
    f_equal. apply (Hshape p n); [apply Hsub; set_solver|done]. }
  assert (length (flattened_grads s) = flat_size s) as Hlen.
  { unfold flattened_grads. rewrite Hsame by done.
    by rewrite length_flat_all. }
  split; [|split; [done|]].
  - rewrite get_flattened_unconstrained_grads_run by done.
    rewrite decide_True by lia.
    rewrite drop_ge by (rewrite length_resize; lia). by rewrite app_nil_r.
  - intros k. apply Hsame. intros p Hp.
    by apply (subseteq_take k (stochastic_nodes s)).
Qed.
Lemma unchanged_preorder {B : Type} (f : Node -> B) : PreOrder (unchanged f).
Proof.
  split.
  - intros s. apply Forall2_same_length_lookup_2; [done|].
    intros i n n' ? ?. by simplify_eq.
  - intros s1 s2 s3 H12 H23. unfold unchanged in *.
    revert H23. generalize (nodes (graph s3)).
    induction H12 as [|n1 n2 l1 l2 Hn H12 IH]; intros l3 H23.
    + by inversion H23.
    + inversion H23 as [|? n3 ? l3' Hn' H23']; subst. constructor.
      * congruence.
      * by apply IH.
Qed.

Lemma same_partition_preorder : PreOrder same_partition.
Proof.
  split.
  - by intros s.
  - unfold same_partition. intros s1 s2 s3 (?&?&?&?&?&?) (?&?&?&?&?&?).
    repeat split; congruence.
Qed.

Lemma same_log_prob_preorder : PreOrder same_log_prob.
Proof.
  split; [by intros s|]. unfold same_log_prob. intros s1 s2 s3 ? ?. congruence.
Qed.

Lemma unchanged_alter {B : Type} (f : Node -> B) (h : Node -> Node) p ns :
  (forall n, f (h n) = f n) ->
  Forall2 (fun n n' => f n' = f n) ns (alter h p ns).
Proof.
  intros Hh. apply Forall2_same_length_lookup_2; [by rewrite length_alter|].
  intros i n n' Hn Hn'. destruct (decide (p = i)) as [->|Hne].
  - rewrite list_lookup_alter_eq, Hn in Hn'. simpl in Hn'. by simplify_eq.
  - rewrite list_lookup_alter_ne in Hn' by done. by simplify_eq.
Qed.

Lemma unchanged_imap {B : Type} (f : Node -> B) (h : nat -> Node -> Node) ns :
  (forall i n, f (h i n) = f n) ->
  Forall2 (fun n n' => f n' = f n) ns (imap h ns).
Proof.
  intros Hh. apply Forall2_same_length_lookup_2; [by rewrite length_imap|].
  intros i n n' Hn Hn'. rewrite list_lookup_imap, Hn in Hn'. simpl in Hn'.
  by simplify_eq.
Qed.

Lemma unchanged_same_nodes {B : Type} (f : Node -> B) s s' :
  nodes (graph s') = nodes (graph s) -> unchanged f s s'.
Proof.
  intros Heq. unfold unchanged. rewrite Heq.
  apply Forall2_same_length_lookup_2; [done|]. intros i n n' ? ?. by simplify_eq.
Qed.

(** State updates under [unchanged f]: a node is altered by a function
    that keeps [f], or the graph is not touched. *)
Ltac unchanged_tac :=
  first [ by apply unchanged_same_nodes
        | unfold unchanged; simpl; apply unchanged_alter; intros ?;
          try match goal with
              | |- context [write_field ?fld _ _] => destruct fld
              end; done
        | unfold unchanged; simpl; apply unchanged_imap; intros ? ?; done ].

Lemma kind_of_call m : preserves (unchanged kind_of) (call m).
Proof.
  destruct m; cbn [call];
    first [ solve [preserves_tac (unchanged_preorder kind_of) unchanged_tac]
          | intros s; unchanged_tac ].
Qed.

Lemma same_graph_preorder :
  PreOrder (fun s s' : GlobalState => graph s' = graph s).
Proof. split; [by intros s|]. intros s1 s2 s3 ? ?. congruence. Qed.

Lemma same_state_preorder : PreOrder (fun s s' : GlobalState => s' = s).
Proof. split; [by intros s|]. intros s1 s2 s3 ? ?. congruence. Qed.

Lemma partition_call m : preserves same_partition (call m).
Proof.
  destruct m; cbn [call];
    preserves_tac same_partition_preorder ltac:(by repeat split).
Qed.

Lemma unchanged_same_kind s s' :
  unchanged kind_of s s' ->
  Forall2 same_kind (nodes (graph s)) (nodes (graph s')).
Proof.
  unfold unchanged, kind_of, same_kind. intros Hs.
  eapply Forall2_impl; [exact Hs|]. intros n n' Hk. by inversion Hk.
Qed.

(** X8. No method changes what the constructor fixed: whatever the state
    and however the call ends, [ordered_support], [stochastic_nodes],
    [deterministic_nodes], [flat_size], the observed and queried ids and
    the number of nodes are as before, and every node keeps its node type,
    its stochastic and observed flags, its inputs and its transform. *)
Theorem methods_keep_structure (m : method) (s : GlobalState) :
  same_partition s (call m s).2 /\
  Forall2 same_kind (nodes (graph s)) (nodes (graph (call m s).2)).
Proof.
  split; [apply partition_call|]. apply unchanged_same_kind, kind_of_call.
Qed.

Lemma log_prob_call m : m ≠ Update_log_prob -> preserves same_log_prob (call m).
Proof.
  intros Hm. destruct m; try done; cbn [call];
    preserves_tac same_log_prob_preorder ltac:(done).
Qed.

(** X9. The cached log-probability: [update_log_prob] stores the
    graph's joint log-probability of the current nodes over
    [ordered_support]; no other method changes the stored number, however
    the call ends; and [get_log_prob] returns the stored number without
    recomputing it, so after a call that changed the values it still
    returns the number stored before. *)
Theorem log_prob_is_cached (m : method) (s : GlobalState) :
  log_prob (call m s).2 =
    match m with
    | Update_log_prob =>
        Graph_full_log_prob (nodes (graph s)) (ordered_support s)
    | _ => log_prob s
    end /\
  get_log_prob (call m s).2 = (Ok (log_prob (call m s).2), (call m s).2).
Proof.
  split; [|done].
  destruct m; first [done | by apply log_prob_call].
Qed.

Lemma reads_get_flattened_unconstrained_values v :
  preserves (fun s s' => s' = s) (get_flattened_unconstrained_values v).
Proof.
  unfold get_flattened_unconstrained_values, flatten_value_step.
  preserves_tac same_state_preorder ltac:(done).
Qed.

Lemma only_vals_backup_preorder :
  PreOrder (fun s s' : GlobalState =>
    s' = with_vals_backup (fun _ => stochastic_unconstrained_vals_backup s') s).
Proof.
  split.
  - intros s. by destruct s.
  - intros s1 s2 s3 H12 H23. etrans; [exact H23|]. by rewrite H12.
Qed.

Lemma only_grads_backup_preorder :
  PreOrder (fun s s' : GlobalState =>
    s' = with_grads_backup (fun _ => stochastic_unconstrained_grads_backup s') s).
Proof.
  split.
  - intros s. by destruct s.
  - intros s1 s2 s3 H12 H23. etrans; [exact H23|]. by rewrite H12.
Qed.

(** X10. The getters only read: [get_flattened_unconstrained_values],
    [get_flattened_unconstrained_grads] and [get_log_prob] leave the state
    exactly as it was, also when they fail; and a backup method changes
    nothing but its own backup sequence, also when it fails. *)
Theorem getters_and_backups_frame (s : GlobalState) (v : list float) :
  (get_flattened_unconstrained_values v s).2 = s /\
  (get_flattened_unconstrained_grads v s).2 = s /\
  (get_log_prob s).2 = s /\
  (backup_unconstrained_values s).2 =
    with_vals_backup
      (fun _ => stochastic_unconstrained_vals_backup
                  (backup_unconstrained_values s).2) s /\
  (backup_unconstrained_grads s).2 =
    with_grads_backup
      (fun _ => stochastic_unconstrained_grads_backup
                  (backup_unconstrained_grads s).2) s.
Proof.
  split; [apply reads_get_flattened_unconstrained_values|].
  split; [apply reads_get_flattened_unconstrained_grads|].
  split; [done|]. split.
  - revert s. change (preserves (fun s s' : GlobalState =>
      s' = with_vals_backup (fun _ => stochastic_unconstrained_vals_backup s') s)
      backup_unconstrained_values).
    unfold backup_unconstrained_values, backup_value_step, assign_vals_backup.
    preserves_tac only_vals_backup_preorder ltac:(done).
  - revert s. change (preserves (fun s s' : GlobalState =>
      s' = with_grads_backup (fun _ => stochastic_unconstrained_grads_backup s') s)
      backup_unconstrained_grads).
    unfold backup_unconstrained_grads, backup_grad_step, assign_grads_backup.
    preserves_tac only_grads_backup_preorder ltac:(done).
Qed.

(** X11. Values and gradients are kept apart, on every state and
    however the call ends: the methods that write values
    ([set_flattened_unconstrained_values],
    [add_to_stochastic_unconstrained_nodes], [revert_unconstrained_values])
    never change the gradient of any node; [revert_unconstrained_grads],
    which writes gradients, never changes [value] or
    [unconstrained_value] of any node; and the two backup methods leave
    the graph as it is. *)
Theorem values_and_gradients_apart (s : GlobalState) (v : VectorXd) :
  unchanged back_grad1 s (set_flattened_unconstrained_values v s).2 /\
  unchanged back_grad1 s (add_to_stochastic_unconstrained_nodes v s).2 /\
  unchanged back_grad1 s (revert_unconstrained_values s).2 /\
  unchanged value s (revert_unconstrained_grads s).2 /\
  unchanged unconstrained_value s (revert_unconstrained_grads s).2 /\
  graph (backup_unconstrained_values s).2 = graph s /\
  graph (backup_unconstrained_grads s).2 = graph s.
Proof.
  repeat split; revert s.
  - change (preserves (unchanged back_grad1)
              (set_flattened_unconstrained_values v)).
    unfold set_flattened_unconstrained_values, unflatten_value_step.
    preserves_tac (unchanged_preorder back_grad1) unchanged_tac.
  - change (preserves (unchanged back_grad1)
              (add_to_stochastic_unconstrained_nodes v)).
    unfold add_to_stochastic_unconstrained_nodes.
    preserves_tac (unchanged_preorder back_grad1) unchanged_tac.
  - change (preserves (unchanged back_grad1) revert_unconstrained_values).
    unfold revert_unconstrained_values, revert_value_step.
    preserves_tac (unchanged_preorder back_grad1) unchanged_tac.
  - change (preserves (unchanged value) revert_unconstrained_grads).
    unfold revert_unconstrained_grads, revert_grad_step.
    preserves_tac (unchanged_preorder value) unchanged_tac.
  - change (preserves (unchanged unconstrained_value) revert_unconstrained_grads).
    unfold revert_unconstrained_grads, revert_grad_step.
    preserves_tac (unchanged_preorder unconstrained_value) unchanged_tac.
  - change (preserves (fun s s' => graph s' = graph s) backup_unconstrained_values).
    unfold backup_unconstrained_values, backup_value_step.
    preserves_tac same_graph_preorder ltac:(done).
  - change (preserves (fun s s' => graph s' = graph s) backup_unconstrained_grads).
    unfold backup_unconstrained_grads, backup_grad_step.
    preserves_tac same_graph_preorder ltac:(done).
Qed.

(** X7. On every state a sampler can reach from a well-formed graph, the
    outcome of each method is decided by its argument alone: the backups,
    the reverts, [get_flattened_unconstrained_values], [get_log_prob],
    [update_log_prob] and [update_backgrad] succeed;
    [set_flattened_unconstrained_values] and
    [add_to_stochastic_unconstrained_nodes] succeed exactly when the
    argument has [flat_size] entries and throw [invalid_argument]
    otherwise; and [get_flattened_unconstrained_grads] is the one method
    that can write out of bounds, exactly when the gradients of the
    stochastic nodes hold more entries than [flat_size]. *)
Theorem outcome_on_reachable (g : Graph) (seed : nat) (s : GlobalState)
    (m : method) :
  graph_wf g -> reachable g seed s ->
  (call m s).1 =
  match m with
  | Set_flattened_unconstrained_values v =>
      if decide (length v = flat_size s) then Ok tt
      else Throw size_mismatch_flattened
  | Add_to_stochastic_unconstrained_nodes v =>
      if decide (length v = flat_size s) then Ok tt
      else Throw size_mismatch_increment
  | Get_flattened_unconstrained_grads _ =>
      if decide (length (flattened_grads s) <= flat_size s) then Ok tt
      else Undefined
  | _ => Ok tt
  end.
Proof.
  intros Hwf Hreach.
  destruct (reachable_sound g seed s Hwf Hreach)
    as [Hs _]. pose proof Hs as ([Hnd Hps] & [Hvals Hgrads] & Hsize).
  destruct m as [| | | |v|v|v|v| | |]; cbn [call].
  - by rewrite backup_unconstrained_values_run.
  - by rewrite backup_unconstrained_grads_run.
  - by rewrite revert_unconstrained_values_run.
  - by rewrite revert_unconstrained_grads_run.
  - case_decide as Hv.
    + destruct (add_to_stochastic_unconstrained_nodes_run v s Hs Hv)
        as (s' & -> & _). done.
    + by rewrite add_to_stochastic_unconstrained_nodes_mismatch.
  - by rewrite bind_run, (get_flattened_run v s Hps Hsize).
  - case_decide as Hv.
    + by rewrite set_flattened_run.
    + by rewrite set_flattened_mismatch.
  - rewrite bind_run, get_flattened_unconstrained_grads_run by done.
    by case_decide.
  - done.
  - done.
  - done.
Qed.
Lemma initialize_step_effect gen p n ns s :
  ns !! p = Some n ->
  exists gen' n',
    initialize_step gen p (with_nodes ns s) =
    (Ok gen', with_nodes (<[p := n']> ns) s) /\ initialized n n'.
Proof.
  intros Hn. pose proof (lookup_lt_Some _ _ _ Hn) as Hlt.
  unfold initialize_step.
  rewrite (bind_Ok _ _ _ _ _ (deref_Some p n (with_nodes ns s) Hn)).
  assert (exists gen' n1,
    (if negb (is_observed n) then eval p gen else mret gen) (with_nodes ns s)
    = (Ok gen', with_nodes (<[p := n1]> ns) s) /\ same_kind n n1 /\
    back_grad1 n1 = back_grad1 n /\
    unconstrained_value n1 = unconstrained_value n /\
    (is_observed n = true -> value n1 = value n))
    as (gen' & n1 & Heval & Hk1 & Hg1 & Hu1 & Hv1).
  { destruct (is_observed n); simpl.
    - exists gen, n. split; [|by split; [apply same_kind_refl|]].
      unfold mret, St_mret, st_ret. by rewrite list_insert_id.
    - eexists _, _. split; [|shelve]. unfold eval.
      rewrite bind_run. unfold get_state. cbv beta iota zeta.
      erewrite bind_Ok by (by apply update_node_Some). done.
      Unshelve. by repeat split. }
  rewrite (bind_Ok _ _ _ _ _ Heval).
  assert (<[p := n1]> ns !! p = Some n1) as Hn1 by (by apply list_lookup_insert_eq).
  pose proof Hk1 as (_ & _ & _ & _ & Ht1).
  unfold initialized.
  destruct (is_stochastic n && bool_decide (node_type n = OPERATOR)).
  - unfold get_unconstrained_value. rewrite !bind_run.
    rewrite (deref_Some p n1) by done. cbv beta iota.
    rewrite Ht1. destruct (transform_type n) eqn:Ht.
    + exists gen', n1. done.
    + rewrite bind_run. erewrite update_node_Some by done.
      rewrite nodes_with_nodes, with_nodes_with_nodes, list_insert_insert_eq.
      eexists _, _. split; [done|]. simpl. rewrite Hu1.
      split; [|done].
      eapply same_kind_trans; [done|]. by repeat split.
  - exists gen', n1. done.
Qed.

Lemma initialize_loop_effect l : forall gen ns s,
  NoDup l -> (forall p, p ∈ l -> p < length ns) ->
  exists gen' ns',
    st_for initialize_step l gen (with_nodes ns s) = (Ok gen', with_nodes ns' s) /\
    length ns' = length ns /\
    forall p n, ns !! p = Some n ->
      exists n', ns' !! p = Some n' /\
        (p ∈ l -> initialized n n') /\ (p ∉ l -> n' = n).
Proof.
  induction l as [|p l IH]; intros gen ns s Hnd Hl.
  - exists gen, ns. split; [done|]. split; [done|].
    intros p n Hp. exists n. split; [done|]. split; [set_solver|done].
  - apply NoDup_cons in Hnd as [Hp Hnd].
    destruct (lookup_lt_is_Some_2 ns p) as [n Hn]; [apply Hl; set_solver|].
    destruct (initialize_step_effect gen p n ns s Hn) as (gen1 & n1 & Hstep & Hk).
    destruct (IH gen1 (<[p := n1]> ns) s Hnd) as (gen' & ns' & Hrun & Hlen & Hns').
    { intros q Hq. rewrite length_insert. apply Hl. set_solver. }
    exists gen', ns'. split; [|split].
    + rewrite st_for_cons. by rewrite (bind_Ok _ _ _ _ _ Hstep).
    + by rewrite Hlen, length_insert.
    + intros q m Hq. destruct (decide (q = p)) as [->|Hne].
      * simplify_eq.
        destruct (Hns' p n1) as (n' & Hn' & _ & Hsame).
        { apply list_lookup_insert_eq. by eapply lookup_lt_Some. }
        exists n'. split; [done|]. rewrite (Hsame Hp).
        split; [done|set_solver].
      * destruct (Hns' q m) as (n' & Hn' & Hin & Hout).
        { by rewrite list_lookup_insert_ne. }
        exists n'. split; [done|]. split.
        -- intros Hq'. apply Hin. set_solver.
        -- intros Hq'. apply Hout. set_solver.
Qed.

(** The nodes the constructor leaves behind: those after the "initialize
    values" loop, with the gradients [update_backgrad] computes from them;
    and the log-probability it caches is that of these nodes. *)
Lemma GlobalState_new_nodes g seed :
  (forall p, p ∈ compute_support g -> p < length (nodes g)) ->
  exists s ns2,
    GlobalState_new g seed = (Ok tt, s) /\
    length ns2 = length (nodes g) /\
    (forall p n, nodes g !! p = Some n ->
       exists n', ns2 !! p = Some n' /\
         (p ∈ compute_support g -> initialized n n') /\
         (p ∉ compute_support g -> n' = n)) /\
    nodes (graph s) =
      imap (fun p n =>
              set_back_grad1
                (Graph_update_backgrad ns2 (ascending (compute_support g)) p) n)
           ns2 /\
    log_prob s = Graph_full_log_prob (nodes (graph s)) (ordered_support s).
Proof.
  intros Hvalid. unfold GlobalState_new, GlobalState_body. cbv zeta.
  set (asc := ascending (compute_support g)).
  assert (forall p, p ∈ asc -> p < length (nodes g)) as Hasc.
  { intros p Hp. apply Hvalid. by apply elem_of_ascending. }
  rewrite bind_run. unfold modify at 1. cbv beta iota.
  rewrite bind_run. unfold get_state at 1. cbv beta iota.
  set (s0 := with_flat_size (fun _ => 0) (members_of g)).
  change (compute_support (graph s0)) with (compute_support g). fold asc.
  rewrite (bind_Ok _ _ _ _ _ (push_support_loop asc s0 Hasc)).
  set (s1 := with_ordered_support (fun o => o ++ asc) s0).
  rewrite bind_run. unfold get_state at 1. cbv beta iota.
  change (ordered_support s1) with asc.
  destruct (initialize_loop_effect asc (mt19937 seed) (nodes g) s1
              (NoDup_ascending _) Hasc)
    as (gen' & ns2 & Hinit & Hlen2 & Hns2).
  change (with_nodes (nodes g) s1)
    with (with_nodes (nodes (graph s1)) s1) in Hinit.
  rewrite with_nodes_id in Hinit.
  rewrite (bind_Ok _ _ _ _ _ Hinit).
  set (ns3 := imap (fun p n =>
                set_back_grad1 (Graph_update_backgrad ns2 asc p) n) ns2).
  assert (update_backgrad (with_nodes ns2 s1) = (Ok tt, with_nodes ns3 s1))
    as Hgrad by done.
  rewrite (bind_Ok _ _ _ _ _ Hgrad).
  assert (length ns3 = length (nodes g)) as Hlen3
    by (unfold ns3; by rewrite length_imap).
  rewrite bind_run. unfold get_state at 1. cbv beta iota.
  change (ordered_support (with_nodes ns3 s1)) with asc.
  assert (forall p, p ∈ asc -> p < length (nodes (graph (with_nodes ns3 s1))))
    as Hasc3.
  { intros p Hp. rewrite nodes_with_nodes, Hlen3. by apply Hasc. }
  rewrite (bind_Ok _ _ _ _ _ (save_nodes_loop asc (with_nodes ns3 s1) Hasc3)).
  set (s4 := save_nodes_result asc (with_nodes ns3 s1)).
  set (sto := filter (fun p => unobserved_stochastic ns3 p) asc).
  assert (stochastic_nodes s4 = sto) as Hsto by done.
  assert (forall p, p ∈ sto -> p < length ns3) as Hsto_valid.
  { intros p Hp. apply list_elem_of_filter in Hp as [_ Hp].
    rewrite Hlen3. by apply Hasc. }
  rewrite bind_run. unfold get_state at 1. cbv beta iota.
  rewrite Hsto.
  rewrite (bind_Ok _ _ _ _ _ (flat_size_loop sto s4 Hsto_valid)).
  change (nodes (graph s4)) with ns3.
  set (s5 := with_flat_size (fun k => k + flat_total ns3 sto) s4).
  assert (length (values_of ns3 sto) = length sto) as Hvals
    by (by apply length_values_of).
  assert (length (grads_of ns3 sto) = length sto) as Hgrads
    by (by apply length_grads_of).
  rewrite (bind_Ok _ _ _ _ _ (backup_unconstrained_values_run s5 Hsto_valid Hvals)).
  set (s6 := with_vals_backup (fun _ => stochastic_values s5) s5).
  rewrite (bind_Ok _ _ _ _ _ (backup_unconstrained_grads_run s6 Hsto_valid Hgrads)).
  eexists _, ns2. split; [reflexivity|].
  split; [done|]. split; [|done].
  intros p n Hp. destruct (Hns2 p n Hp) as (n' & Hn' & Hin & Hout).
  exists n'. split; [done|]. unfold asc in Hin, Hout.
  split; intros Hq; [apply Hin|apply Hout]; by rewrite elem_of_ascending.
Qed.

(** X12. What the constructor does to the values of the graph it is given
    (a well-formed one, on which it succeeds).  It never overwrites an
    observation: an observed node keeps its [value].  A node outside the
    support keeps [value] and [unconstrained_value].  Every stochastic
    operator of the support that has a transform ends with its
    [unconstrained_value] in step with its [value] (it is the transform's
    image of it), and every other node keeps its [unconstrained_value].
    The cached [log_prob] is the log-probability of the nodes the
    constructor leaves behind. *)
Theorem constructor_initializes_values (g : Graph) (seed : nat) :
  graph_wf g ->
  exists s,
    GlobalState_new g seed = (Ok tt, s) /\
    length (nodes (graph s)) = length (nodes g) /\
    log_prob s = Graph_full_log_prob (nodes (graph s)) (ordered_support s) /\
    forall p n, nodes g !! p = Some n ->
      exists n',
        nodes (graph s) !! p = Some n' /\
        (is_observed n = true -> value n' = value n) /\
        (p ∉ compute_support g ->
           value n' = value n /\ unconstrained_value n' = unconstrained_value n) /\
        unconstrained_value n' =
          if bool_decide (p ∈ compute_support g) && is_stochastic n
             && bool_decide (node_type n = OPERATOR)
          then match transform_type n with
               | NONE => unconstrained_value n
               | t => transform_apply t (value n') (unconstrained_value n)
               end
          else unconstrained_value n.
Proof.
  intros Hwf.
  destruct (GlobalState_new_nodes g seed (compute_support_valid g Hwf))
    as (s & ns2 & Hrun & Hlen & Hns2 & Hnodes & Hlp).
  exists s. split; [done|]. split; [by rewrite Hnodes, length_imap|].
  split; [done|]. intros p n Hp.
  destruct (Hns2 p n Hp) as (n2 & Hn2 & Hin & Hout).
  eexists. split.
  { rewrite Hnodes, list_lookup_imap, Hn2. done. }
  simpl. destruct (decide (p ∈ compute_support g)) as [Hsupp|Hsupp].
  - destruct (Hin Hsupp) as (_ & _ & Hobs & Hunc).
    rewrite bool_decide_eq_true_2 by done. done.
  - rewrite (Hout Hsupp). rewrite bool_decide_eq_false_2 by done. done.
Qed.
Lemma push_support_loop_invalid l : forall s,
  (exists p, p ∈ l /\ length (nodes (graph s)) <= p) ->
  (st_for push_support_step l tt s).1 = Undefined.
Proof.
  induction l as [|q l IH]; intros s (p & Hp & Hge); [set_solver|].
  rewrite st_for_cons.
  destruct (nodes (graph s) !! q) as [n|] eqn:Hq.
  - rewrite (bind_Ok _ _ _ _ _ (push_support_step_run _ _ _ Hq)).
    apply IH. exists p. split; [|done].
    apply elem_of_cons in Hp as [->|Hp]; [|done].
    apply lookup_lt_Some in Hq. lia.
  - rewrite bind_run. unfold push_support_step.
    rewrite bind_run. unfold get_state. cbv beta iota.
    rewrite bind_run. unfold at_index, lift. by rewrite Hq.
Qed.

(** X13. The outcome of the constructor is decided by the support
    [compute_support] returns: if every id in it is a node of the graph
    the constructor succeeds; if some id is not, [graph.nodes[node_id]]
    reads past the end of the node sequence and the behaviour is
    undefined.  The constructor never throws. *)
Theorem constructor_outcome (g : Graph) (seed : nat) :
  (GlobalState_new g seed).1 =
  if decide (set_Forall (fun p => p < length (nodes g)) (compute_support g))
  then Ok tt else Undefined.
Proof.
  case_decide as Hvalid.
  - destruct (GlobalState_new_run g seed Hvalid) as (s & -> & _). done.
  - apply (not_set_Forall_Exists _) in Hvalid as (p & Hp & Hge).
    simpl in Hge.
    unfold GlobalState_new, GlobalState_body. cbv zeta.
    rewrite bind_run. unfold modify at 1. cbv beta iota.
    rewrite bind_run. unfold get_state at 1. cbv beta iota.
    rewrite bind_run.
    pose proof (push_support_loop_invalid
      (ascending (compute_support g))
      (with_flat_size (fun _ => 0) (members_of g))) as Hloop.
    change (graph (with_flat_size (fun _ => 0) (members_of g))) with g in *.
    destruct (st_for push_support_step _ _ _) as [r s'].
    simpl in Hloop. rewrite Hloop; [done|].
    exists p. split; [by apply elem_of_ascending|lia].
Qed.

Lemma compute_support_no_roots g :
  observed g = [] -> queries g = [] -> compute_support g = ∅.
Proof.
  intros Ho Hq. unfold compute_support. rewrite Ho, Hq. simpl.
  induction (length (nodes g)) as [|k IH]; [done|].
  simpl. rewrite IH. unfold expand. rewrite elements_empty. set_solver.
Qed.

(** X14. A graph with nothing observed and nothing queried: the
    constructor succeeds whatever the nodes are, the three node sequences
    and both backups are empty and [flat_size] is 0; the flattened values
    are the empty vector, which is also the only vector
    [set_flattened_unconstrained_values] accepts; and every node keeps its
    [value] and [unconstrained_value]. *)
Theorem constructor_without_roots (g : Graph) (seed : nat) :
  observed g = [] -> queries g = [] ->
  exists s,
    GlobalState_new g seed = (Ok tt, s) /\
    ordered_support s = [] /\ stochastic_nodes s = [] /\
    deterministic_nodes s = [] /\ flat_size s = 0 /\
    stochastic_unconstrained_vals_backup s = [] /\
    stochastic_unconstrained_grads_backup s = [] /\
    (forall v, get_flattened_unconstrained_values v s = (Ok [], s)) /\
    (forall v, (set_flattened_unconstrained_values v s).1 =
       if decide (v = []) then Ok tt else Throw size_mismatch_flattened) /\
    Forall2 (fun n n' => value n' = value n /\
                         unconstrained_value n' = unconstrained_value n)
      (nodes g) (nodes (graph s)).
Proof.
  intros Ho Hq. pose proof (compute_support_no_roots g Ho Hq) as Hsupp.
  assert (forall p, p ∈ compute_support g -> p < length (nodes g)) as Hvalid
    by (rewrite Hsupp; set_solver).
  destruct (GlobalState_new_run g seed Hvalid)
    as (s & Hrun & Hos & Hk & _ & _ & Hsto & Hdet & Hsize & Hvals & Hgrads).
  destruct (GlobalState_new_nodes g seed Hvalid)
    as (s' & ns2 & Hrun' & Hlen & Hns2 & Hnodes & _).
  rewrite Hrun in Hrun'. simplify_eq.
  assert (ordered_support s' = []) as Hos'.
  { rewrite Hos, Hsupp. unfold ascending. by rewrite elements_empty. }
  assert (stochastic_nodes s' = []) as Hsto' by (by rewrite Hsto, Hos').
  assert (flat_size s' = 0) as Hsize' by (by rewrite Hsize, Hsto').
  exists s'. split; [done|]. split; [done|]. split; [done|].
  split; [by rewrite Hdet, Hos'|]. split; [done|].
  split; [by rewrite Hvals; unfold stochastic_values; rewrite Hsto'|].
  split; [by rewrite Hgrads; unfold stochastic_grads; rewrite Hsto'|].
  split; [|split].
  - intros v. rewrite get_flattened_run.
    + unfold flattened. by rewrite Hsto'.
    + rewrite Hsto'. set_solver.
    + done.
  - intros v. case_decide as Hv.
    + subst v. rewrite set_flattened_run; [done| |done|by rewrite Hsize'].
      rewrite Hsto'. set_solver.
    + rewrite set_flattened_mismatch; [done|]. rewrite Hsize'.
      by destruct v.
  - apply Forall2_same_length_lookup_2.
    { by rewrite Hnodes, length_imap. }
    intros p n n' Hn Hn'.
    destruct (Hns2 p n Hn) as (n2 & Hn2 & _ & Hout).
    rewrite Hnodes, list_lookup_imap, Hn2 in Hn'. simpl in Hn'.
    simplify_eq. rewrite Hout by (rewrite Hsupp; set_solver). done.
Qed.

Lemma reachable_partition g seed s :
  graph_wf g -> reachable g seed s ->
  exists s0,
    GlobalState_new g seed = (Ok tt, s0) /\ same_partition s0 s /\
    Forall2 same_kind (nodes (graph s0)) (nodes (graph s)).
Proof.
  intros Hwf Hreach. induction Hreach as [s Hnew|s m Hreach (s0 & Hnew & Hp & Hk)].
  - exists s. split; [done|]. split; [by repeat split|apply same_kind_all_refl].
  - exists s0. split; [done|]. split.
    + pose proof same_partition_preorder as [_ Htrans].
      eapply Htrans; [done|apply partition_call].
    + eapply same_kind_all_trans; [done|].
      apply unchanged_same_kind, kind_of_call.
Qed.

Lemma StronglySorted_filter (P : nat -> Prop) `{!forall x, Decision (P x)} l :
  StronglySorted lt l -> StronglySorted lt (filter P l).
Proof.
  induction 1 as [|x l Hl IH Hx]; [constructor|].
  rewrite filter_cons. case_decide; [|done].
  constructor; [done|]. rewrite Forall_forall in *.
  intros y Hy. apply Hx. by apply list_elem_of_filter in Hy as [_ Hy].
Qed.

(** X15. What the constructor computed stays true in every state a
    sampler can reach from a well-formed graph: [ordered_support] is the
    support in strictly ascending id order; [stochastic_nodes] and
    [deterministic_nodes] are its unobserved stochastic and its
    deterministic nodes (judged on the graph as it was given), in the same
    order and disjoint; [flat_size] is the size of the current flattened
    values; and every node has the kind it had in the given graph. *)
Theorem partition_on_reachable (g : Graph) (seed : nat) (s : GlobalState) :
  graph_wf g -> reachable g seed s ->
  ordered_support s = ascending (compute_support g) /\
  StronglySorted lt (ordered_support s) /\
  stochastic_nodes s =
    filter (fun p => unobserved_stochastic (nodes g) p) (ordered_support s) /\
  deterministic_nodes s =
    filter (fun p => deterministic (nodes g) p) (ordered_support s) /\
  StronglySorted lt (stochastic_nodes s) /\
  StronglySorted lt (deterministic_nodes s) /\
  (forall p, p ∈ stochastic_nodes s -> p ∉ deterministic_nodes s) /\
  flat_size s = length (flattened s) /\
  Forall2 same_kind (nodes g) (nodes (graph s)).
Proof.
  intros Hwf Hreach.
  destruct (reachable_partition g seed s Hwf Hreach)
    as (s0 & Hnew & (Hos & Hst & Hdt & _) & Hk).
  destruct (reachable_sound g seed s Hwf Hreach) as [(_ & _ & Hsize) _].
  destruct (GlobalState_new_run g seed (compute_support_valid g Hwf))
    as (s0' & Hrun & Hsupp & Hk0 & _ & _ & Hsto & Hdet & _).
  rewrite Hnew in Hrun. simplify_eq.
  assert (stochastic_nodes s =
          filter (fun p => unobserved_stochastic (nodes g) p) (ordered_support s))
    as Hsto'.
  { rewrite Hst, Hos, Hsto. apply list_filter_iff. intros p.
    by rewrite (same_kind_unobserved_stochastic _ _ _ Hk0). }
  assert (deterministic_nodes s =
          filter (fun p => deterministic (nodes g) p) (ordered_support s))
    as Hdet'.
  { rewrite Hdt, Hos, Hdet. apply list_filter_iff. intros p.
    by rewrite (same_kind_deterministic _ _ _ Hk0). }
  assert (StronglySorted lt (ordered_support s)) as Hsorted.
  { rewrite Hos, Hsupp. apply ascending_sorted. }
  split; [by rewrite Hos|]. split; [done|]. split; [done|]. split; [done|].
  split; [rewrite Hsto'; by apply StronglySorted_filter|].
  split; [rewrite Hdet'; by apply StronglySorted_filter|].
  split; [|split].
  - intros p. rewrite Hsto', Hdet'. rewrite !list_elem_of_filter.
    intros [Hp _] [Hq _]. unfold unobserved_stochastic, deterministic in *.
    destruct (nodes g !! p) as [n|]; [|done]. by destruct (is_stochastic n).
  - by rewrite length_flattened.
  - by eapply same_kind_all_trans.
Qed.

End facts.

(** *** The claims at the sample data *)

Lemma sample_graph_wf : graph_wf sample_graph.
Proof.
  split.
  - intros r Hr. simpl in *. set_unfold. destruct Hr as [->|[->|[]]]; lia.
  - intros p n q Hn Hq.
    do 7 (destruct p as [|p]; [simpl in Hn; simplify_eq; simpl in Hq;
                               set_unfold; lia|]).
    done.
Qed.

Lemma sample_state_consistent : consistent sample_state.
Proof.
  repeat split; simpl.
  - repeat (apply NoDup_cons; split; [set_solver|]). apply NoDup_nil_2.
  - intros p Hp. set_unfold. lia.
Qed.

Example sample_state_constructed :
  @GlobalState_new sample_collaborators sample_graph 42 = (Ok tt, sample_state).
Proof. vm_compute. reflexivity. Qed.

Example matrix_state_constructed :
  @GlobalState_new sample_collaborators matrix_graph 0 = (Ok tt, matrix_state).
Proof. vm_compute. reflexivity. Qed.

Example large_state_constructed :
  @GlobalState_new sample_collaborators large_graph 0 = (Ok tt, large_state).
Proof. vm_compute. reflexivity. Qed.

(** The spec's scenario: unconstrained shapes scalar, 3-vector, scalar. *)
Example sample_flat_size : flat_size sample_state = 1 + 3 + 1.
Proof. reflexivity. Qed.

Example sample_flattened :
  @get_flattened_unconstrained_values sample_collaborators [] sample_state =
  (Ok [8; 1; 2; 3; 4]%float, sample_state).
Proof. vm_compute. reflexivity. Qed.

Example sample_partition :
  ordered_support sample_state = [0; 1; 2; 3; 4; 5] /\
  stochastic_nodes sample_state = [1; 2; 3] /\
  deterministic_nodes sample_state = [0; 5].
Proof. by repeat split. Qed.

Lemma backup_revert_restores_witness :
  exists s1 s3,
    @backup_unconstrained_values sample_collaborators sample_state = (Ok tt, s1) /\
    @revert_unconstrained_values sample_collaborators
      (with_nodes proposed_nodes s1) = (Ok tt, s3) /\
    forall p n, p ∈ stochastic_nodes sample_state ->
      nodes (graph sample_state) !! p = Some n ->
      exists m n3,
        proposed_nodes !! p = Some m /\ nodes (graph s3) !! p = Some n3 /\
        unconstrained n3 = unconstrained n /\
        n3 = @sync_original sample_collaborators
               (write_unconstrained (unconstrained n) m) /\
        match transform_type m with
        | NONE => value n3 = unconstrained n
        | t => value n3 = @transform_inverse sample_collaborators t (value m)
                            (unconstrained n)
        end.
Proof.
  apply (@backup_revert_restores sample_collaborators sample_state proposed_nodes).
  - apply sample_state_consistent.
  - apply sample_state_consistent.
  - reflexivity.
Defined.

(** C1. Flatten round trip, at a stochastic node whose unconstrained value
    is a 2 x 2 matrix: [get_flattened_unconstrained_values] returns its
    four coefficients, and [set_flattened_unconstrained_values] on that
    vector leaves the node with a 4 x 1 matrix of the same coefficients,
    while [type] still declares 2 rows and 2 columns: the unconstrained
    value is not what it was before the two calls. *)
Theorem flatten_round_trip_reshapes_matrix :
  exists s',
    @get_flattened_unconstrained_values sample_collaborators [] matrix_state =
      (Ok [1; 2; 3; 4]%float, matrix_state) /\
    @set_flattened_unconstrained_values sample_collaborators
      [1; 2; 3; 4]%float matrix_state = (Ok tt, s') /\
    unconstrained <$> nodes (graph matrix_state) !! 0 =
      Some (matrix 2 2 [1; 2; 3; 4]%float) /\
    unconstrained <$> nodes (graph s') !! 0 =
      Some (set_matrix
              {| m_rows := 4; m_cols := 1; coeffs := [1; 2; 3; 4]%float |}
              (matrix 2 2 [1; 2; 3; 4]%float)) /\
    (m_rows <$> (_matrix <$> (unconstrained <$> nodes (graph s') !! 0))) = Some 4 /\
    (m_rows <$> (_matrix <$> (unconstrained <$> nodes (graph matrix_state) !! 0)))
      = Some 2.
Proof.
  eexists. split; [vm_compute; reflexivity|].
  split; [vm_compute; reflexivity|].
  repeat split.
Qed.

(** C3, as stated, fails at a scalar stochastic node of value 2^53 and the
    increments [1] and [1]: the two calls leave 2^53 (each sum rounds back
    to 2^53), the single call with [1 + 1] leaves 2^53 + 2. *)
Lemma increment_composition_counterexample :
  exists s1 s2 s12,
    @add_to_stochastic_unconstrained_nodes sample_collaborators [1%float]
      large_state = (Ok tt, s1) /\
    @add_to_stochastic_unconstrained_nodes sample_collaborators [1%float] s1
      = (Ok tt, s2) /\
    vector_add [1%float] [1%float] = Ok [2%float] /\
    @add_to_stochastic_unconstrained_nodes sample_collaborators [2%float]
      large_state = (Ok tt, s12) /\
    flat_size large_state = 1 /\
    flattened s2 = [9007199254740992%float] /\
    flattened s12 = [9007199254740994%float] /\
    flattened s2 <> flattened s12.
Proof.
  eexists _, _, _.
  split; [vm_compute; reflexivity|].
  split; [vm_compute; reflexivity|].
  split; [vm_compute; reflexivity|].
  split; [vm_compute; reflexivity|].
  split; [reflexivity|].
  split; [vm_compute; reflexivity|].
  split; [vm_compute; reflexivity|].
  intros Heq.
  apply (f_equal (fun l => match l with
                           | [x] => PrimFloat.eqb x 9007199254740992%float
                           | _ => false
                           end)) in Heq.
  vm_compute in Heq. discriminate.
Qed.

Lemma increment_composition_witness :
  exists s1 s2 v12 s12,
    @add_to_stochastic_unconstrained_nodes sample_collaborators
      [1; 2; 3; 4; 5]%float sample_state = (Ok tt, s1) /\
    @add_to_stochastic_unconstrained_nodes sample_collaborators
      [8; 8; 8; 8; 8]%float s1 = (Ok tt, s2) /\
    vector_add [1; 2; 3; 4; 5]%float [8; 8; 8; 8; 8]%float = Ok v12 /\
    @add_to_stochastic_unconstrained_nodes sample_collaborators v12 sample_state
      = (Ok tt, s12) /\
    flattened s2 =
      zip_with PrimFloat.add
        (zip_with PrimFloat.add (flattened sample_state) [1; 2; 3; 4; 5]%float)
        [8; 8; 8; 8; 8]%float /\
    flattened s12 =
      zip_with PrimFloat.add (flattened sample_state)
        (zip_with PrimFloat.add [1; 2; 3; 4; 5]%float [8; 8; 8; 8; 8]%float) /\
    flattened s2 = flattened s12.
Proof.
  destruct (@increment_composition_when_associative sample_collaborators
              sample_state [1; 2; 3; 4; 5]%float [8; 8; 8; 8; 8]%float
              sample_state_consistent eq_refl eq_refl)
    as (s1 & s2 & v12 & s12 & H1 & H2 & H3 & H4 & H5 & H6 & H7).
  exists s1, s2, v12, s12. repeat split; try assumption.
  apply H7. vm_compute. reflexivity.
Defined.

(** The spec's scenario: [flat_size] is 5, the vector has 4 or 6
    coefficients. *)
Lemma size_mismatch_leaves_state_witness :
  (@set_flattened_unconstrained_values sample_collaborators
     [1; 2; 3; 4]%float sample_state
   = (Throw size_mismatch_flattened, sample_state) /\
   @add_to_stochastic_unconstrained_nodes sample_collaborators
     [1; 2; 3; 4]%float sample_state
   = (Throw size_mismatch_increment, sample_state)) /\
  (@set_flattened_unconstrained_values sample_collaborators
     [1; 2; 3; 4; 5; 6]%float sample_state
   = (Throw size_mismatch_flattened, sample_state) /\
   @add_to_stochastic_unconstrained_nodes sample_collaborators
     [1; 2; 3; 4; 5; 6]%float sample_state
   = (Throw size_mismatch_increment, sample_state)).
Proof.
  split.
  - apply (@size_mismatch_leaves_state sample_collaborators sample_state
             [1; 2; 3; 4]%float). simpl. lia.
  - apply (@size_mismatch_leaves_state sample_collaborators sample_state
             [1; 2; 3; 4; 5; 6]%float). simpl. lia.
Defined.

Lemma support_minimal_and_ordered_witness :
  exists s,
    @GlobalState_new sample_collaborators sample_graph 42 = (Ok tt, s) /\
    (forall p, p ∈ ordered_support s <-> p ∈ compute_support sample_graph) /\
    (forall p, p ∈ ordered_support s <-> in_closure sample_graph p) /\
    (forall j p n q,
       ordered_support s !! j = Some p ->
       nodes (graph s) !! p = Some n -> q ∈ in_nodes n ->
       q ∈ ordered_support s ->
       exists i, i < j /\ ordered_support s !! i = Some q).
Proof.
  apply (@support_minimal_and_ordered sample_collaborators sample_graph 42).
  exact sample_graph_wf.
Defined.

Lemma partition_pass_witness :
  exists s,
    @GlobalState_new sample_collaborators sample_graph 42 = (Ok tt, s) /\
    stochastic_nodes s =
      filter (fun p => unobserved_stochastic (nodes sample_graph) p)
        (ordered_support s) /\
    deterministic_nodes s =
      filter (fun p => deterministic (nodes sample_graph) p) (ordered_support s) /\
    (forall p n, nodes sample_graph !! p = Some n ->
       is_stochastic n = true -> is_observed n = true ->
       p ∉ stochastic_nodes s /\ p ∉ deterministic_nodes s).
Proof.
  apply (@partition_pass sample_collaborators sample_graph 42).
  exact sample_graph_wf.
Defined.

Lemma flat_size_consistent_witness :
  exists s,
    @GlobalState_new sample_collaborators sample_graph 42 = (Ok tt, s) /\
    flat_size s = sum_list (flat_length <$> stochastic_values s) /\
    length (stochastic_values s) = length (stochastic_nodes s) /\
    forall v,
      @get_flattened_unconstrained_values sample_collaborators v s =
        (Ok (concat (flat_of <$> stochastic_values s)), s) /\
      length (concat (flat_of <$> stochastic_values s)) = flat_size s.
Proof.
  apply (@flat_size_consistent sample_collaborators sample_graph 42).
  exact sample_graph_wf.
Defined.

Lemma backups_aligned_witness :
  (exists s,
     @GlobalState_new sample_collaborators sample_graph 42 = (Ok tt, s) /\
     pointers_ok s /\ aligned s /\
     stochastic_unconstrained_vals_backup s = stochastic_values s /\
     stochastic_unconstrained_grads_backup s = stochastic_grads s) /\
  (aligned
     (@call sample_collaborators
        (Set_flattened_unconstrained_values [1; 2; 3; 4; 5]%float)
        sample_state).2 /\
   stochastic_nodes
     (@call sample_collaborators
        (Set_flattened_unconstrained_values [1; 2; 3; 4; 5]%float)
        sample_state).2 = stochastic_nodes sample_state) /\
  (stochastic_unconstrained_vals_backup
     (@backup_unconstrained_values sample_collaborators sample_state).2 !! 1
   = Some (matrix 3 1 [1; 2; 3]%float) /\
   stochastic_unconstrained_grads_backup
     (backup_unconstrained_grads sample_state).2 !! 1
   = Some zero_grad) /\
  (stochastic_unconstrained_vals_backup
     (@call sample_collaborators Revert_unconstrained_values
        (with_nodes proposed_nodes sample_state)).2 =
   stochastic_unconstrained_vals_backup (with_nodes proposed_nodes sample_state) /\
   stochastic_unconstrained_grads_backup
     (@call sample_collaborators Revert_unconstrained_values
        (with_nodes proposed_nodes sample_state)).2 =
   stochastic_unconstrained_grads_backup (with_nodes proposed_nodes sample_state)).
Proof.
  destruct (@backups_aligned sample_collaborators)
    as (Hnew & Hcall & Hslot & Hkept).
  split; [|split; [|split]].
  - apply Hnew. exact sample_graph_wf.
  - apply Hcall. apply sample_state_consistent.
  - destruct (Hslot sample_state 1 2
                (sample_node true false [0] (matrix 3 1 [1; 2; 3]%float)
                   (TRANSFORM 1)))
      as (Hvals & Hgrads & _).
    + apply sample_state_consistent.
    + apply sample_state_consistent.
    + reflexivity.
    + reflexivity.
    + split; [exact Hvals|exact Hgrads].
  - destruct (Hkept Revert_unconstrained_values
                (with_nodes proposed_nodes sample_state)) as [Hvals Hgrads].
    split; [apply Hvals|apply Hgrads]; discriminate.
Defined.


(** *** The further properties at the sample data *)

Lemma graded_state_consistent : consistent graded_state.
Proof.
  repeat split; simpl.
  - repeat (apply NoDup_cons; split; [set_solver|]). apply NoDup_nil_2.
  - intros p Hp. set_unfold. lia.
Qed.

Lemma graded_state_gradients p n :
  p ∈ stochastic_nodes graded_state ->
  nodes (graph graded_state) !! p = Some n ->
  length (grad_flat_of n) = flat_length (unconstrained n).
Proof.
  intros Hp Hn. simpl in Hp. set_unfold.
  destruct Hp as [->|[->|[->|[]]]]; simpl in Hn; by simplify_eq.
Qed.

Lemma unflatten_then_flatten_witness :
  exists s',
    @set_flattened_unconstrained_values sample_collaborators
      [1; 2; 3; 4; 5]%float sample_state = (Ok tt, s') /\
    @get_flattened_unconstrained_values sample_collaborators [] s' =
      (Ok [1; 2; 3; 4; 5]%float, s').
Proof.
  apply (@unflatten_then_flatten sample_collaborators sample_state
           [1; 2; 3; 4; 5]%float []).
  - exact sample_state_consistent.
  - reflexivity.
Defined.

Lemma set_flattened_nodes_witness :
  exists s',
    @set_flattened_unconstrained_values sample_collaborators
      [1; 2; 3; 4; 5]%float sample_state = (Ok tt, s') /\
    s' = with_nodes (nodes (graph s')) sample_state /\
    (forall q, q ∉ stochastic_nodes sample_state ->
       nodes (graph s') !! q = nodes (graph sample_state) !! q) /\
    (forall p n, p ∈ stochastic_nodes sample_state ->
       nodes (graph sample_state) !! p = Some n ->
       exists n',
         nodes (graph s') !! p = Some n' /\
         same_kind n n' /\ back_grad1 n' = back_grad1 n /\
         type (unconstrained n') = type (unconstrained n) /\
         (if decide (variable_type (type (unconstrained n)) = SCALAR)
          then _matrix (unconstrained n') = _matrix (unconstrained n)
          else _double (unconstrained n') = _double (unconstrained n) /\
               m_cols (_matrix (unconstrained n')) = 1 /\
               m_rows (_matrix (unconstrained n')) = size (_matrix (unconstrained n)) /\
               size (_matrix (unconstrained n')) = size (_matrix (unconstrained n))) /\
         match transform_type n with
         | NONE => value n' = unconstrained n'
         | t => value n' = @transform_inverse sample_collaborators t (value n)
                             (unconstrained n')
         end).
Proof.
  apply (@set_flattened_nodes sample_collaborators sample_state
           [1; 2; 3; 4; 5]%float).
  - exact sample_state_consistent.
  - reflexivity.
Defined.

Lemma backup_revert_grads_restores_witness :
  exists s1 s3,
    backup_unconstrained_grads sample_state = (Ok tt, s1) /\
    revert_unconstrained_grads
      (with_nodes (nodes (graph graded_state)) s1) = (Ok tt, s3) /\
    (forall p n, p ∈ stochastic_nodes sample_state ->
       nodes (graph sample_state) !! p = Some n ->
       exists m,
         nodes (graph graded_state) !! p = Some m /\
         nodes (graph s3) !! p = Some (set_back_grad1 (back_grad1 n) m)) /\
    (forall q, q ∉ stochastic_nodes sample_state ->
       nodes (graph s3) !! q = nodes (graph graded_state) !! q).
Proof.
  apply (backup_revert_grads_restores sample_state (nodes (graph graded_state))).
  - apply sample_state_consistent.
  - apply sample_state_consistent.
  - reflexivity.
Defined.

Lemma backup_revert_transaction_witness :
  exists s1 s2 s3 s4,
    @backup_unconstrained_values sample_collaborators sample_state = (Ok tt, s1) /\
    backup_unconstrained_grads s1 = (Ok tt, s2) /\
    @revert_unconstrained_values sample_collaborators
      (with_nodes proposed_nodes s2) = (Ok tt, s3) /\
    revert_unconstrained_grads s3 = (Ok tt, s4) /\
    (forall p n, p ∈ stochastic_nodes sample_state ->
       nodes (graph sample_state) !! p = Some n ->
       exists m n4,
         proposed_nodes !! p = Some m /\ nodes (graph s4) !! p = Some n4 /\
         n4 = set_back_grad1 (back_grad1 n)
                (@revert_node sample_collaborators (unconstrained n) m) /\
         unconstrained n4 = unconstrained n /\
         back_grad1 n4 = back_grad1 n) /\
    (forall q, q ∉ stochastic_nodes sample_state ->
       nodes (graph s4) !! q = proposed_nodes !! q).
Proof.
  apply (@backup_revert_transaction sample_collaborators sample_state
           proposed_nodes).
  - apply sample_state_consistent.
  - apply sample_state_consistent.
  - reflexivity.
Defined.

Lemma get_flattened_unconstrained_grads_bounds_witness :
  if decide (length (flattened_grads graded_state) <= flat_size graded_state)
  then exists r,
         get_flattened_unconstrained_grads [] graded_state = (Ok r, graded_state) /\
         length r = flat_size graded_state /\
         take (length (flattened_grads graded_state)) r =
           flattened_grads graded_state
  else get_flattened_unconstrained_grads [] graded_state =
         (Undefined, graded_state).
Proof.
  apply (get_flattened_unconstrained_grads_bounds graded_state []).
  apply graded_state_consistent.
Defined.

Lemma get_flattened_unconstrained_grads_aligned_witness :
  get_flattened_unconstrained_grads [] graded_state =
    (Ok (flattened_grads graded_state), graded_state) /\
  length (flattened_grads graded_state) = flat_size graded_state /\
  forall k,
    length (grad_flat_all (nodes (graph graded_state))
              (take k (stochastic_nodes graded_state))) =
    length (flat_all (nodes (graph graded_state))
              (take k (stochastic_nodes graded_state))).
Proof.
  apply (get_flattened_unconstrained_grads_aligned graded_state []).
  - exact graded_state_consistent.
  - exact graded_state_gradients.
Defined.

Lemma outcome_on_reachable_witness :
  (@call sample_collaborators
     (Set_flattened_unconstrained_values [1; 2; 3; 4]%float) sample_state).1 =
  if decide (length [1; 2; 3; 4]%float = flat_size sample_state) then Ok tt
  else Throw size_mismatch_flattened.
Proof.
  apply (@outcome_on_reachable sample_collaborators sample_graph 42
           sample_state (Set_flattened_unconstrained_values [1; 2; 3; 4]%float)).
  - exact sample_graph_wf.
  - apply reachable_new. exact sample_state_constructed.
Defined.

Lemma constructor_initializes_values_witness :
  exists s,
    @GlobalState_new sample_collaborators sample_graph 42 = (Ok tt, s) /\
    length (nodes (graph s)) = length (nodes sample_graph) /\
    log_prob s =
      @Graph_full_log_prob sample_collaborators (nodes (graph s))
        (ordered_support s) /\
    forall p n, nodes sample_graph !! p = Some n ->
      exists n',
        nodes (graph s) !! p = Some n' /\
        (is_observed n = true -> value n' = value n) /\
        (p ∉ compute_support sample_graph ->
           value n' = value n /\ unconstrained_value n' = unconstrained_value n) /\
        unconstrained_value n' =
          if bool_decide (p ∈ compute_support sample_graph) && is_stochastic n
             && bool_decide (node_type n = OPERATOR)
          then match transform_type n with
               | NONE => unconstrained_value n
               | t => @transform_apply sample_collaborators t (value n')
                        (unconstrained_value n)
               end
          else unconstrained_value n.
Proof.
  apply (@constructor_initializes_values sample_collaborators sample_graph 42).
  exact sample_graph_wf.
Defined.

Lemma constructor_without_roots_witness :
  exists s,
    @GlobalState_new sample_collaborators rootless_graph 42 = (Ok tt, s) /\
    ordered_support s = [] /\ stochastic_nodes s = [] /\
    deterministic_nodes s = [] /\ flat_size s = 0 /\
    stochastic_unconstrained_vals_backup s = [] /\
    stochastic_unconstrained_grads_backup s = [] /\
    (forall v, @get_flattened_unconstrained_values sample_collaborators v s =
       (Ok [], s)) /\
    (forall v, (@set_flattened_unconstrained_values sample_collaborators v s).1 =
       if decide (v = []) then Ok tt else Throw size_mismatch_flattened) /\
    Forall2 (fun n n' => value n' = value n /\
                         unconstrained_value n' = unconstrained_value n)
      (nodes rootless_graph) (nodes (graph s)).
Proof.
  apply (@constructor_without_roots sample_collaborators rootless_graph 42).
  - reflexivity.
  - reflexivity.
Defined.

Lemma partition_on_reachable_witness :
  ordered_support sample_state = ascending (compute_support sample_graph) /\
  StronglySorted lt (ordered_support sample_state) /\
  stochastic_nodes sample_state =
    filter (fun p => unobserved_stochastic (nodes sample_graph) p)
      (ordered_support sample_state) /\
  deterministic_nodes sample_state =
    filter (fun p => deterministic (nodes sample_graph) p)
      (ordered_support sample_state) /\
  StronglySorted lt (stochastic_nodes sample_state) /\
  StronglySorted lt (deterministic_nodes sample_state) /\
  (forall p, p ∈ stochastic_nodes sample_state ->
     p ∉ deterministic_nodes sample_state) /\
  flat_size sample_state = length (flattened sample_state) /\
  Forall2 same_kind (nodes sample_graph) (nodes (graph sample_state)).
Proof.
  apply (@partition_on_reachable sample_collaborators sample_graph 42
           sample_state).
  - exact sample_graph_wf.
  - apply reachable_new. exact sample_state_constructed.
Defined.
End global_state_facts.
